(** * MariaDB storage backend: connection management, schema evolution,
      statement splitting and retry classification

    A shallow embedding of [internal/storage/mariadb/store.go] and
    [internal/storage/mariadb/migrations.go], followed by the properties the
    specification states about them.

    Go strings are byte sequences: they are modelled as [list ascii], one
    [ascii] per byte.  The functions of Go's [strings] package the code calls
    are modelled first, then the program itself. *)

From Stdlib Require Import List String Ascii Bool Arith NArith ZArith Lia.
From Stdlib Require Import DecimalString.
Import ListNotations.

(* ================================================================== *)
(** * Part I: definitions *)
(* ================================================================== *)

(** ** Go strings *)

Definition gostring := list ascii.

(** A Go string literal. *)
Definition str (s : string) : gostring := list_ascii_of_string s.

Definition byteval (c : ascii) : N := N_of_ascii c.

Definition squote : ascii := "'"%char.
Definition dquote : ascii := "034"%char.
Definition backtick : ascii := "`"%char.
Definition semicolon : ascii := ";"%char.
Definition backslash : ascii := "\"%char.
Definition newline : ascii := "010"%char.
Definition tab : ascii := "009"%char.

Definition isEmpty (s : gostring) : bool :=
  match s with [] => true | _ => false end.

(** [strings.HasPrefix]. *)
Fixpoint HasPrefix (s prefix : gostring) : bool :=
  match prefix, s with
  | [], _ => true
  | _ :: _, [] => false
  | p :: prefix', c :: s' => Ascii.eqb c p && HasPrefix s' prefix'
  end.

(** [strings.Contains]: [substr] occurs at some offset of [s]. *)
Fixpoint Contains (s substr : gostring) : bool :=
  HasPrefix s substr ||
  match s with
  | [] => false
  | _ :: s' => Contains s' substr
  end.

(** [utf8.RuneSelf]: bytes below it are single-byte (ASCII) runes. *)
Definition RuneSelf : N := 128.

Definition isASCIIByte (c : ascii) : bool := (byteval c <? RuneSelf)%N.

Definition isUpperByte (c : ascii) : bool :=
  (65 <=? byteval c)%N && (byteval c <=? 90)%N.

Definition lowerByte (c : ascii) : ascii :=
  if isUpperByte c then ascii_of_N (byteval c + 32) else c.

(** The part of Go's runtime the model does not spell out: the Unicode case
    table.  [MapToLower s] stands for [strings.Map(unicode.ToLower, s)], which
    [strings.ToLower] calls only when [s] holds a non-ASCII byte. *)
Class Unicode := { MapToLower : gostring -> gostring }.

(** [strings.ToLower]: the ASCII fast path is the byte map, anything else goes
    through the Unicode table. *)
Definition ToLower `{Unicode} (s : gostring) : gostring :=
  if forallb isASCIIByte s then
    if existsb isUpperByte s then map lowerByte s else s
  else MapToLower s.

(** *** White space

    [unicode.IsSpace] holds of the ASCII bytes tab, line feed, vertical tab,
    form feed, carriage return and space, and of the runes U+0085, U+00A0,
    U+1680, U+2000..U+200A, U+2028, U+2029, U+202F, U+205F and U+3000.  Go's
    decoder accepts only the shortest encoding of a rune, so a string starts
    (ends) with a white-space rune exactly when it starts (ends) with one of
    the byte sequences below. *)

Definition asciiSpace (c : ascii) : bool :=
  let n := byteval c in
  ((9 <=? n) && (n <=? 13) || (n =? 32))%N.

(** Two-byte encodings: U+0085 and U+00A0. *)
Definition space2 (c1 c2 : ascii) : bool :=
  ((byteval c1 =? 194) && ((byteval c2 =? 133) || (byteval c2 =? 160)))%N.

(** Three-byte encodings. *)
Definition space3 (c1 c2 c3 : ascii) : bool :=
  let n1 := byteval c1 in
  let n2 := byteval c2 in
  let n3 := byteval c3 in
  ((n1 =? 225) && (n2 =? 154) && (n3 =? 128)
   || (n1 =? 226) && (n2 =? 128) &&
       ((128 <=? n3) && (n3 <=? 138) || (n3 =? 168) || (n3 =? 169) || (n3 =? 175))
   || (n1 =? 226) && (n2 =? 129) && (n3 =? 159)
   || (n1 =? 227) && (n2 =? 128) && (n3 =? 128))%N.

(** Width in bytes of the white-space rune [s] starts with, 0 when it starts
    with none. *)
Definition leadingSpaceWidth (s : gostring) : nat :=
  match s with
  | [] => 0
  | c1 :: r1 =>
      if asciiSpace c1 then 1
      else match r1 with
           | [] => 0
           | c2 :: r2 =>
               if space2 c1 c2 then 2
               else match r2 with
                    | [] => 0
                    | c3 :: _ => if space3 c1 c2 c3 then 3 else 0
                    end
           end
  end.

(** The same, read from the end of the string: [r] is the string reversed. *)
Definition trailingSpaceWidthRev (r : gostring) : nat :=
  match r with
  | [] => 0
  | c1 :: r1 =>
      if asciiSpace c1 then 1
      else match r1 with
           | [] => 0
           | c2 :: r2 =>
               if space2 c2 c1 then 2
               else match r2 with
                    | [] => 0
                    | c3 :: _ => if space3 c3 c2 c1 then 3 else 0
                    end
           end
  end.

Definition hasLeadingSpace (s : gostring) : bool :=
  negb (leadingSpaceWidth s =? 0).

Definition hasTrailingSpace (s : gostring) : bool :=
  negb (trailingSpaceWidthRev (rev s) =? 0).

(** [strings.TrimLeftFunc(s, unicode.IsSpace)]. *)
Fixpoint TrimLeftSpace (s : gostring) : gostring :=
  match s with
  | [] => []
  | c1 :: r1 =>
      if asciiSpace c1 then TrimLeftSpace r1
      else match r1 with
           | [] => s
           | c2 :: r2 =>
               if space2 c1 c2 then TrimLeftSpace r2
               else match r2 with
                    | [] => s
                    | c3 :: r3 =>
                        if space3 c1 c2 c3 then TrimLeftSpace r3 else s
                    end
           end
  end.

(** Trailing white space stripped from a reversed string. *)
Fixpoint TrimRightSpaceRev (r : gostring) : gostring :=
  match r with
  | [] => []
  | c1 :: r1 =>
      if asciiSpace c1 then TrimRightSpaceRev r1
      else match r1 with
           | [] => r
           | c2 :: r2 =>
               if space2 c2 c1 then TrimRightSpaceRev r2
               else match r2 with
                    | [] => r
                    | c3 :: r3 =>
                        if space3 c3 c2 c1 then TrimRightSpaceRev r3 else r
                    end
           end
  end.

(** [strings.TrimRightFunc(s, unicode.IsSpace)]. *)
Definition TrimRightSpace (s : gostring) : gostring :=
  rev (TrimRightSpaceRev (rev s)).

(** [strings.TrimSpace]: leading, then trailing white space removed. *)
Definition TrimSpace (s : gostring) : gostring :=
  TrimRightSpace (TrimLeftSpace s).

(** [strings.Split(s, "\n")]: the lines of [s]; never the empty list. *)
Fixpoint SplitLines (s : gostring) : list gostring :=
  match s with
  | [] => [[]]
  | c :: r =>
      if Ascii.eqb c newline then [] :: SplitLines r
      else match SplitLines r with
           | [] => [[c]]
           | l :: ls => (c :: l) :: ls
           end
  end.

(** ** The statement splitter ([splitStatements], store.go) *)

(** The loop's variables. *)
Record scanState := {
  statements : list gostring;
  current : gostring;
  inString : bool;
  stringChar : ascii
}.

Definition scanInit : scanState :=
  {| statements := []; current := []; inString := false; stringChar := zero |}.

Definition isQuote (c : ascii) : bool :=
  Ascii.eqb c squote || Ascii.eqb c dquote || Ascii.eqb c backtick.

(** [i == 0 || script[i-1] != '\\'], with [prev] the byte before the current
    one ([None] at index 0). *)
Definition notEscaped (prev : option ascii) : bool :=
  match prev with
  | None => true
  | Some p => negb (Ascii.eqb p backslash)
  end.

(** One iteration of the loop, on byte [c]. *)
Definition scanStep (prev : option ascii) (c : ascii) (st : scanState) : scanState :=
  if inString st then
    {| statements := statements st;
       current := current st ++ [c];
       inString := if Ascii.eqb c (stringChar st) && notEscaped prev
                   then false else true;
       stringChar := stringChar st |}
  else if isQuote c then
    {| statements := statements st;
       current := current st ++ [c];
       inString := true;
       stringChar := c |}
  else if Ascii.eqb c semicolon then
    let stmt := TrimSpace (current st) in
    {| statements := if isEmpty stmt then statements st
                     else statements st ++ [stmt];
       current := [];
       inString := false;
       stringChar := stringChar st |}
  else
    {| statements := statements st;
       current := current st ++ [c];
       inString := false;
       stringChar := stringChar st |}.

(** The loop over the bytes still to read. *)
Fixpoint scanFrom (prev : option ascii) (rest : gostring) (st : scanState) : scanState :=
  match rest with
  | [] => st
  | c :: rest' => scanFrom (Some c) rest' (scanStep prev c st)
  end.

(** The state of the loop once it has read all of [script]. *)
Definition scan (script : gostring) : scanState := scanFrom None script scanInit.

(** The code after the loop: the last statement, without a semicolon. *)
Definition scanFinish (st : scanState) : list gostring :=
  let stmt := TrimSpace (current st) in
  if isEmpty stmt then statements st else statements st ++ [stmt].

Definition splitStatements (script : gostring) : list gostring :=
  scanFinish (scan script).

(** [truncateForError]. *)
Definition truncateForError (s : gostring) : gostring :=
  if 100 <? List.length s then firstn 100 s ++ str "..." else s.

(** [isOnlyComments]: the loop over the lines. *)
Fixpoint onlyCommentLines (lines : list gostring) : bool :=
  match lines with
  | [] => true
  | line :: rest =>
      let line := TrimSpace line in
      if isEmpty line || HasPrefix line (str "--") then onlyCommentLines rest
      else false
  end.

Definition isOnlyComments (stmt : gostring) : bool :=
  onlyCommentLines (SplitLines stmt).

(** ** Errors

    Go's [error] values: what the code builds ([fmt.Errorf], [errors.Join],
    [backoff.Permanent]) and what it inspects ([Error()], [errors.Is] against
    [context.Canceled], [errors.As] for backoff's permanent marker).  A nil
    error is [None]. *)

#[warnings="-register-all"]
Inductive error : Type :=
| errorString (msg : gostring)               (* a plain error: errors.New, a driver error *)
| wrapError (msg : gostring) (inner : error) (* fmt.Errorf with %w: the text, the wrapped error *)
| PermanentError (Err : error)               (* backoff.PermanentError *)
| joinError (errs : list error)              (* errors.Join *)
| Canceled                                   (* context.Canceled *)
| DeadlineExceeded.                          (* context.DeadlineExceeded *)

(** The [Error()] method. *)
Fixpoint Error (e : error) : gostring :=
  match e with
  | errorString msg => msg
  | wrapError msg _ => msg
  | PermanentError inner => Error inner
  | joinError errs =>
      (fix joined (l : list error) : gostring :=
         match l with
         | [] => []
         | x :: rest =>
             match rest with
             | [] => Error x
             | _ :: _ => Error x ++ [newline] ++ joined rest
             end
         end) errs
  | Canceled => str "context canceled"
  | DeadlineExceeded => str "context deadline exceeded"
  end.

(** [errors.Is(e, context.Canceled)]. *)
Fixpoint IsCanceled (e : error) : bool :=
  match e with
  | Canceled => true
  | wrapError _ inner => IsCanceled inner
  | PermanentError inner => IsCanceled inner
  | joinError errs =>
      (fix any (l : list error) : bool :=
         match l with
         | [] => false
         | x :: rest => IsCanceled x || any rest
         end) errs
  | errorString _ | DeadlineExceeded => false
  end.

(** [errors.As(e, &permanent)] followed by [permanent.Err]: the error inside
    the first permanent marker of [e]'s chain. *)
Fixpoint AsPermanent (e : error) : option error :=
  match e with
  | PermanentError inner => Some inner
  | wrapError _ inner => AsPermanent inner
  | joinError errs =>
      (fix first (l : list error) : option error :=
         match l with
         | [] => None
         | x :: rest =>
             match AsPermanent x with
             | Some p => Some p
             | None => first rest
             end
         end) errs
  | errorString _ | Canceled | DeadlineExceeded => None
  end.

Definition isSome {A} (o : option A) : bool :=
  match o with Some _ => true | None => false end.

Fixpoint nonNil (errs : list (option error)) : list error :=
  match errs with
  | [] => []
  | Some e :: rest => e :: nonNil rest
  | None :: rest => nonNil rest
  end.

(** [errors.Join]: nil values dropped; nil when nothing is left. *)
Definition Join (errs : list (option error)) : option error :=
  match nonNil errs with
  | [] => None
  | es => Some (joinError es)
  end.

(** [fmt.Errorf(before + "%w" + after, err)]. *)
Definition Errorf (before : string) (err : error) (after : gostring) : error :=
  wrapError (str before ++ Error err ++ after) err.

(** [backoff.Permanent]. *)
Definition Permanent (err : option error) : option error :=
  match err with
  | None => None
  | Some e => Some (PermanentError e)
  end.

(** ** Error classification ([isRetryableError], store.go) *)

Definition isRetryableError `{Unicode} (err : option error) : bool :=
  match err with
  | None => false
  | Some e =>
      let errStr := ToLower (Error e) in
      if Contains errStr (str "driver: bad connection") then true
      else if Contains errStr (str "invalid connection") then true
      else if Contains errStr (str "broken pipe") then true
      else if Contains errStr (str "connection reset") then true
      else false
  end.

(** ** The retry wrapper ([withRetry], [newServerRetryBackoff], store.go) *)

(** [serverRetryMaxElapsed], in milliseconds. *)
Definition serverRetryMaxElapsed : N := 30000.

(** What the clock and the caller's context let a failed attempt see, in the
    order [backoff.Retry] reads them. *)
Record attempt := {
  ctxErrAtNext : option error;   (* ctx.Err() when NextBackOff is asked *)
  elapsed : N;                   (* time since the first attempt, ms *)
  interval : N;                  (* the randomized interval drawn, ms *)
  ctxErrAtStop : option error;   (* ctx.Err() read after the policy stopped *)
  ctxErrWaiting : option error   (* ctx done before the timer fires *)
}.

Inductive backoffAnswer := Stop | Next (d : N).

(** [ExponentialBackOff.NextBackOff] with [MaxElapsedTime] set by
    [newServerRetryBackoff], behind [backoff.WithContext]: a done context
    stops at once, and so does an interval that would pass the ceiling. *)
Definition NextBackOff (a : attempt) : backoffAnswer :=
  match ctxErrAtNext a with
  | Some _ => Stop
  | None =>
      if (negb (serverRetryMaxElapsed =? 0)
          && (serverRetryMaxElapsed <? elapsed a + interval a))%N
      then Stop
      else Next (interval a)
  end.

(** [backoff.Retry]: [operation] is a closure over a state of type [St];
    [clock] lists what each failed attempt sees, and an exhausted list is a
    clock past the ceiling. *)
Fixpoint Retry {St : Type} (operation : St -> option error * St)
         (clock : list attempt) (s : St) : option error * St :=
  let (err, s1) := operation s in
  match err with
  | None => (None, s1)
  | Some e =>
      match AsPermanent e with
      | Some inner => (Some inner, s1)
      | None =>
          match clock with
          | [] => (Some e, s1)
          | a :: later =>
              match NextBackOff a with
              | Stop =>
                  match ctxErrAtNext a with
                  | Some cerr => (Some cerr, s1)
                  | None =>
                      match ctxErrAtStop a with
                      | Some cerr => (Some cerr, s1)
                      | None => (Some e, s1)
                      end
                  end
              | Next _ =>
                  match ctxErrWaiting a with
                  | Some cerr => (Some cerr, s1)
                  | None => Retry operation later s1
                  end
              end
          end
      end
  end.

(** [withRetry]: the closure handed to [backoff.Retry]. *)
Definition classified `{Unicode} {St : Type} (op : St -> option error * St)
  : St -> option error * St :=
  fun s =>
    let (err, s1) := op s in
    if isSome err && isRetryableError err then (err, s1)
    else if isSome err then (Permanent err, s1)
    else (None, s1).

Definition withRetry `{Unicode} {St : Type} (clock : list attempt)
           (op : St -> option error * St) (s : St) : option error * St :=
  Retry (classified op) clock s.

(** An operation that counts its own invocations, as a test closure would. *)
Definition counting {St : Type} (op : St -> option error * St)
  : St * nat -> option error * (St * nat) :=
  fun sn => let (err, s1) := op (fst sn) in (err, (s1, S (snd sn))).

(** ** The database server, as the code sees it

    Everything the code learns from outside comes through [database/sql] and
    [os.Getenv].  A [World] answers each call, given the calls made before
    it; a computation threads the list of calls made so far. *)

(** The two [*sql.DB] objects [New] creates: the pool the store keeps, and
    the short-lived administrative connection (no database selected). *)
Inductive sqlDB := PoolDB | InitDB.

Inductive call :=
| CallOpen (dsn : gostring)                  (* sql.Open("mysql", dsn) *)
| CallExec (d : sqlDB) (stmt : gostring)     (* d.ExecContext / d.Exec *)
| CallQueryRow (d : sqlDB) (query : gostring)(* d.QueryRow(query).Scan(&count) *)
| CallPing (d : sqlDB)                       (* d.PingContext *)
| CallClose (d : sqlDB)                      (* d.Close *)
| CallConn (d : sqlDB).                      (* d.Conn *)

Record World := {
  Getenv : gostring -> gostring;
  answer : list call -> call -> option error;
  scanned : list call -> call -> Z
}.

Definition M (A : Type) : Type := World -> list call -> A * list call.

Definition ret {A} (a : A) : M A := fun _ tr => (a, tr).

Definition bind {A B} (m : M A) (k : A -> M B) : M B :=
  fun w tr => let (a, tr1) := m w tr in k a w tr1.

Notation "x <- m ;; k" := (bind m (fun x => k))
  (at level 61, m at next level, right associativity).
Notation "' p <- m ;; k" := (bind m (fun p => k))
  (at level 61, p pattern, m at next level, right associativity).

(** One call to the server: its answer, and the call recorded. *)
Definition perform (c : call) : M (option error) :=
  fun w tr => (answer w tr c, tr ++ [c]).

(** [d.QueryRow(query).Scan(&count)]: the error, and the count scanned. *)
Definition queryCount (d : sqlDB) (query : gostring) : M (option error * Z) :=
  fun w tr =>
    let c := CallQueryRow d query in
    ((answer w tr c, scanned w tr c), tr ++ [c]).

Definition osGetenv (name : gostring) : M gostring :=
  fun w tr => (Getenv w name, tr).

(** The calls a computation makes, started with none made. *)
Definition trace {A} (m : M A) (w : World) : list call := snd (m w []).

Definition value {A} (m : M A) (w : World) : A := fst (m w []).

Inductive result (A : Type) : Type :=
| Ok (a : A)
| Err (e : error).
Arguments Ok {A} a.
Arguments Err {A} e.

(** What a call does: it returns, or the Go runtime panics. *)
Inductive outcome (A : Type) : Type :=
| Returned (a : A)
| Panicked (reason : gostring).
Arguments Returned {A} a.
Arguments Panicked {A} reason.

(** ** Configuration and the store *)

Record Config := {
  Host : gostring;
  Port : Z;
  User : gostring;
  Password : gostring;
  Database : gostring;
  ReadOnly : bool
}.

Definition DefaultPort : Z := 3306.

(** [MariaDBStore]; [db] is a pointer and may be nil.  The mutex has no part
    in a sequential run. *)
Record MariaDBStore := {
  db : option sqlDB;
  dbName : gostring;
  closed : bool;
  connStr : gostring;
  readOnly : bool
}.

(** The constants of the package's schema file, which the code names
    ([schema], [defaultConfig], [readyIssuesView], [blockedIssuesView]) and
    this development takes as given. *)
Class SchemaScripts := {
  schema : gostring;
  defaultConfig : gostring;
  readyIssuesView : gostring;
  blockedIssuesView : gostring
}.

(** [%d] of a Go [int]. *)
Definition itoa (n : Z) : gostring :=
  str (NilZero.string_of_int (Z.to_int n)).

(** ** Opening a store ([New], [openServerConnection], store.go) *)

Definition remedy : gostring :=
  [newline; newline]
  ++ str "The MariaDB server may not be running. Try:" ++ [newline]
  ++ str "  sudo systemctl start mariadb    # On systemd systems" ++ [newline]
  ++ str "  brew services start mariadb     # On macOS with Homebrew".

Definition openServerConnection `{Unicode} (cfg : Config)
  : M (result (sqlDB * gostring)) :=
  let connStr :=
    if negb (isEmpty (Password cfg)) then
      User cfg ++ str ":" ++ Password cfg ++ str "@tcp(" ++ Host cfg ++ str ":"
      ++ itoa (Port cfg) ++ str ")/" ++ Database cfg ++ str "?parseTime=true"
    else
      User cfg ++ str "@tcp(" ++ Host cfg ++ str ":"
      ++ itoa (Port cfg) ++ str ")/" ++ Database cfg ++ str "?parseTime=true" in
  err <- perform (CallOpen connStr) ;;
  match err with
  | Some e => ret (Err (Errorf "failed to open MariaDB server connection: " e []))
  | None =>
      (* the pool bounds set here (10 open, 5 idle, 5 minutes) make no call *)
      let initConnStr :=
        if negb (isEmpty (Password cfg)) then
          User cfg ++ str ":" ++ Password cfg ++ str "@tcp(" ++ Host cfg
          ++ str ":" ++ itoa (Port cfg) ++ str ")/?parseTime=true"
        else
          User cfg ++ str "@tcp(" ++ Host cfg
          ++ str ":" ++ itoa (Port cfg) ++ str ")/?parseTime=true" in
      err <- perform (CallOpen initConnStr) ;;
      match err with
      | Some e =>
          _ <- perform (CallClose PoolDB) ;;
          ret (Err (Errorf "failed to open init connection: " e []))
      | None =>
          err <- perform (CallExec InitDB
                            (str "CREATE DATABASE IF NOT EXISTS " ++ Database cfg)) ;;
          r <- match err with
               | Some e =>
                   let errLower := ToLower (Error e) in
                   if negb (Contains errLower (str "database exists"))
                      && negb (Contains errLower (str "1007"))
                   then
                     _ <- perform (CallClose PoolDB) ;;
                     if Contains errLower (str "connection refused")
                        || Contains errLower (str "connect: connection refused")
                     then
                       ret (Err (wrapError
                                   (str "failed to connect to MariaDB server at "
                                    ++ Host cfg ++ str ":" ++ itoa (Port cfg)
                                    ++ str ": " ++ Error e ++ remedy) e))
                     else ret (Err (Errorf "failed to create database: " e []))
                   else ret (Ok (PoolDB, connStr))
               | None => ret (Ok (PoolDB, connStr))
               end ;;
          (* deferred: the administrative connection is closed on the way out *)
          _ <- perform (CallClose InitDB) ;;
          ret r
      end
  end.

(** ** Migrations (migrations.go) *)

Record Migration := {
  Name : gostring;
  Func : sqlDB -> M (option error)
}.

(** The catalog queries, byte for byte. *)
Definition wispTypeQuery : gostring :=
  [newline; tab; tab]
  ++ str "SELECT COUNT(*) "
  ++ [newline; tab; tab]
  ++ str "FROM information_schema.columns "
  ++ [newline; tab; tab]
  ++ str "WHERE table_schema = DATABASE() "
  ++ [newline; tab; tab]
  ++ str "AND table_name = 'issues' "
  ++ [newline; tab; tab]
  ++ str "AND column_name = 'wisp_type'"
  ++ [newline; tab].

Definition specIDQuery : gostring :=
  [newline; tab; tab]
  ++ str "SELECT COUNT(*) "
  ++ [newline; tab; tab]
  ++ str "FROM information_schema.columns "
  ++ [newline; tab; tab]
  ++ str "WHERE table_schema = DATABASE() "
  ++ [newline; tab; tab]
  ++ str "AND table_name = 'issues' "
  ++ [newline; tab; tab]
  ++ str "AND column_name = 'spec_id'"
  ++ [newline; tab].

(** [migrateWispTypeColumn]. *)
Definition migrateWispTypeColumn `{Unicode} (d : sqlDB) : M (option error) :=
  '(err, count) <- queryCount d wispTypeQuery ;;
  match err with
  | Some e => ret (Some (Errorf "checking wisp_type column: " e []))
  | None =>
      if (0 <? count)%Z then ret None
      else
        err <- perform (CallExec d
                 (str "ALTER TABLE issues ADD COLUMN wisp_type VARCHAR(32) DEFAULT ''")) ;;
        match err with
        | Some e =>
            if negb (Contains (ToLower (Error e)) (str "duplicate column"))
            then ret (Some (Errorf "adding wisp_type column: " e []))
            else ret None
        | None => ret None
        end
  end.

(** [migrateSpecIDColumn]. *)
Definition migrateSpecIDColumn `{Unicode} (d : sqlDB) : M (option error) :=
  '(err, count) <- queryCount d specIDQuery ;;
  match err with
  | Some e => ret (Some (Errorf "checking spec_id column: " e []))
  | None =>
      if (0 <? count)%Z then ret None
      else
        err <- perform (CallExec d
                 (str "ALTER TABLE issues ADD COLUMN spec_id VARCHAR(1024)")) ;;
        match (match err with
               | Some e =>
                   if negb (Contains (ToLower (Error e)) (str "duplicate column"))
                   then Some (Errorf "adding spec_id column: " e [])
                   else None
               | None => None
               end) with
        | Some failure => ret (Some failure)
        | None =>
            err <- perform (CallExec d
                     (str "CREATE INDEX idx_issues_spec_id ON issues(spec_id)")) ;;
            match err with
            | Some e =>
                if negb (Contains (ToLower (Error e)) (str "duplicate"))
                   && negb (Contains (ToLower (Error e)) (str "already exists"))
                then ret (Some (Errorf "creating spec_id index: " e []))
                else ret None
            | None => ret None
            end
        end
  end.

(** [migrationsList]. *)
Definition migrationsList `{Unicode} : list Migration :=
  [ {| Name := str "wisp_type_column"; Func := migrateWispTypeColumn |};
    {| Name := str "spec_id_column"; Func := migrateSpecIDColumn |} ].

(** [%q] of a migration's name: the names of [migrationsList] are plain
    identifiers, which Go quotes without any escape. *)
Definition quoted (name : gostring) : gostring := dquote :: name ++ [dquote].

(** The loop of [RunMigrations]. *)
Fixpoint runMigrationList (ms : list Migration) (d : sqlDB) : M (option error) :=
  match ms with
  | [] => ret None
  | m :: rest =>
      err <- Func m d ;;
      match err with
      | Some e =>
          ret (Some (wrapError (str "mariadb migration " ++ quoted (Name m)
                                ++ str " failed: " ++ Error e) e))
      | None => runMigrationList rest d
      end
  end.

Definition RunMigrations `{Unicode} (d : sqlDB) : M (option error) :=
  runMigrationList migrationsList d.

Definition ListMigrations `{Unicode} : list gostring :=
  map Name migrationsList.

(** ** Schema evolution ([initSchemaOnDB], store.go) *)

(** The first loop: the baseline script. *)
Fixpoint execSchema (d : sqlDB) (stmts : list gostring) : M (option error) :=
  match stmts with
  | [] => ret None
  | stmt :: rest =>
      let stmt := TrimSpace stmt in
      if isEmpty stmt then execSchema d rest
      else if isOnlyComments stmt then execSchema d rest
      else
        err <- perform (CallExec d stmt) ;;
        match err with
        | Some e =>
            ret (Some (Errorf "failed to create schema: " e
                         ([newline] ++ str "Statement: " ++ truncateForError stmt)))
        | None => execSchema d rest
        end
  end.

(** The second loop: the default configuration values. *)
Fixpoint execDefaultConfig (d : sqlDB) (stmts : list gostring) : M (option error) :=
  match stmts with
  | [] => ret None
  | stmt :: rest =>
      let stmt := TrimSpace stmt in
      if isEmpty stmt then execDefaultConfig d rest
      else if isOnlyComments stmt then execDefaultConfig d rest
      else
        err <- perform (CallExec d stmt) ;;
        match err with
        | Some e => ret (Some (Errorf "failed to insert default config: " e []))
        | None => execDefaultConfig d rest
        end
  end.

Definition indexMigrations : list gostring :=
  [ str "CREATE INDEX idx_issues_issue_type ON issues(issue_type)" ].

(** The third loop: the index migrations. *)
Fixpoint execIndexMigrations `{Unicode} (d : sqlDB) (migrations : list gostring)
  : M (option error) :=
  match migrations with
  | [] => ret None
  | migration :: rest =>
      err <- perform (CallExec d migration) ;;
      match err with
      | Some e =>
          if negb (Contains (ToLower (Error e)) (str "duplicate"))
             && negb (Contains (ToLower (Error e)) (str "already exists"))
          then ret (Some (Errorf "failed to apply index migration: " e []))
          else execIndexMigrations d rest
      | None => execIndexMigrations d rest
      end
  end.

Definition dropForeignKey : gostring :=
  str "ALTER TABLE dependencies DROP FOREIGN KEY fk_dep_depends_on".

Definition initSchemaOnDB `{Unicode} `{SchemaScripts} (d : sqlDB) : M (option error) :=
  err <- execSchema d (splitStatements schema) ;;
  match err with
  | Some e => ret (Some e)
  | None =>
  err <- execDefaultConfig d (splitStatements defaultConfig) ;;
  match err with
  | Some e => ret (Some e)
  | None =>
  err <- execIndexMigrations d indexMigrations ;;
  match err with
  | Some e => ret (Some e)
  | None =>
  err <- perform (CallExec d dropForeignKey) ;;
  match (match err with
         | Some e =>
             let low := ToLower (Error e) in
             if negb (Contains low (str "can't drop"))
                && negb (Contains low (str "doesn't exist"))
                && negb (Contains low (str "check that it exists"))
                && negb (Contains low (str "was not found"))
             then Some (Errorf "failed to drop fk_dep_depends_on: " e [])
             else None
         | None => None
         end) with
  | Some failure => ret (Some failure)
  | None =>
  err <- perform (CallExec d readyIssuesView) ;;
  match err with
  | Some e => ret (Some (Errorf "failed to create ready_issues view: " e []))
  | None =>
  err <- perform (CallExec d blockedIssuesView) ;;
  match err with
  | Some e => ret (Some (Errorf "failed to create blocked_issues view: " e []))
  | None =>
  err <- RunMigrations d ;;
  match err with
  | Some e => ret (Some (Errorf "failed to run mariadb migrations: " e []))
  | None => ret None
  end end end end end end end.

(** [New].  The caller's [Config] is written through the pointer: the model
    returns it next to the result.  [store.initSchema(ctx)] is
    [initSchemaOnDB(ctx, store.db)], on the pool just pinged. *)
Definition New `{Unicode} `{SchemaScripts} (cfg : Config)
  : M (Config * result MariaDBStore) :=
  let cfg := if isEmpty (Database cfg)
             then {| Host := Host cfg; Port := Port cfg; User := User cfg;
                     Password := Password cfg; Database := str "beads";
                     ReadOnly := ReadOnly cfg |}
             else cfg in
  let cfg := if isEmpty (Host cfg)
             then {| Host := str "127.0.0.1"; Port := Port cfg; User := User cfg;
                     Password := Password cfg; Database := Database cfg;
                     ReadOnly := ReadOnly cfg |}
             else cfg in
  let cfg := if (Port cfg =? 0)%Z
             then {| Host := Host cfg; Port := DefaultPort; User := User cfg;
                     Password := Password cfg; Database := Database cfg;
                     ReadOnly := ReadOnly cfg |}
             else cfg in
  let cfg := if isEmpty (User cfg)
             then {| Host := Host cfg; Port := Port cfg; User := str "root";
                     Password := Password cfg; Database := Database cfg;
                     ReadOnly := ReadOnly cfg |}
             else cfg in
  cfg <- (if isEmpty (Password cfg)
          then
            secret <- osGetenv (str "BEADS_MARIADB_PASSWORD") ;;
            ret {| Host := Host cfg; Port := Port cfg; User := User cfg;
                   Password := secret; Database := Database cfg;
                   ReadOnly := ReadOnly cfg |}
          else ret cfg) ;;
  opened <- openServerConnection cfg ;;
  match opened with
  | Err e => ret (cfg, Err e)
  | Ok (d, connStr) =>
      err <- perform (CallPing d) ;;
      match err with
      | Some e =>
          _ <- perform (CallClose d) ;;
          ret (cfg, Err (Errorf "failed to ping MariaDB database: " e []))
      | None =>
          let store := {| db := Some d;
                          dbName := Database cfg;
                          closed := false;
                          connStr := connStr;
                          readOnly := ReadOnly cfg |} in
          if negb (ReadOnly cfg) then
            err <- initSchemaOnDB d ;;
            match err with
            | Some e => ret (cfg, Err (Errorf "failed to initialize schema: " e []))
            | None => ret (cfg, Ok store)
            end
          else ret (cfg, Ok store)
      end
  end.

(** ** The store's methods (store.go) *)

(** [Close]. *)
Definition Close (s : MariaDBStore) : M (MariaDBStore * option error) :=
  let s := {| db := db s; dbName := dbName s; closed := true;
              connStr := connStr s; readOnly := readOnly s |} in
  err <- match db s with
         | Some d =>
             cerr <- perform (CallClose d) ;;
             match cerr with
             | Some ce =>
                 if negb (IsCanceled ce) then ret (Join [None; Some ce])
                 else ret None
             | None => ret None
             end
         | None => ret None
         end ;;
  ret ({| db := None; dbName := dbName s; closed := closed s;
          connStr := connStr s; readOnly := readOnly s |}, err).

(** [Path]. *)
Definition Path (s : MariaDBStore) : gostring := dbName s.

(** [IsClosed]. *)
Definition IsClosed (s : MariaDBStore) : bool := closed s.

(** [UnderlyingDB]. *)
Definition UnderlyingDB (s : MariaDBStore) : option sqlDB := db s.

(** [UnderlyingConn]: [s.db.Conn(ctx)].  The [Conn] method of [sql.DB] locks the pool's
    mutex first, so on a nil [s.db] the runtime panics before any call is
    made. *)
Definition UnderlyingConn (s : MariaDBStore) : M (outcome (option error)) :=
  match db s with
  | Some d => err <- perform (CallConn d) ;; ret (Returned err)
  | None => ret (Panicked (str "invalid memory address or nil pointer dereference"))
  end.

(** ** Quoted literals, in the specification's words

    "Exit the string only on an unescaped matching quote character (a quote
    immediately preceded by a backslash does not terminate the string)."
    These definitions follow that sentence, not the loop. *)

(** Byte [c], which follows byte [prev], ends a literal opened by [q]. *)
Definition terminates (q prev c : ascii) : bool :=
  Ascii.eqb c q && negb (Ascii.eqb prev backslash).

(** No byte of [body], which follows byte [prev], ends the literal. *)
Fixpoint unterminated (q prev : ascii) (body : gostring) : bool :=
  match body with
  | [] => true
  | c :: rest => negb (terminates q prev c) && unterminated q c rest
  end.

(** [q :: body ++ [q]] is a complete literal: nothing in [body] ends it, and
    the closing quote does. *)
Definition literalBody (q : ascii) (body : gostring) : bool :=
  unterminated q q body && negb (Ascii.eqb (last body q) backslash).

(** A text made of bytes that are not quotes and of complete literals: at its
    end, no literal is open. *)
Inductive WellQuoted : gostring -> Prop :=
| WellQuoted_nil : WellQuoted []
| WellQuoted_plain (c : ascii) (rest : gostring) :
    isQuote c = false -> WellQuoted rest -> WellQuoted (c :: rest)
| WellQuoted_literal (q : ascii) (body rest : gostring) :
    isQuote q = true -> literalBody q body = true -> WellQuoted rest ->
    WellQuoted (q :: body ++ q :: rest).

(** Byte [i] of [script] lies inside a quoted literal: a literal opens right
    after a well-quoted prefix, and nothing ends it before byte [i]. *)
Definition InLiteral (script : gostring) (i : nat) : Prop :=
  exists (pre : gostring) (q : ascii) (body rest : gostring),
    script = pre ++ q :: body ++ rest
    /\ WellQuoted pre
    /\ isQuote q = true
    /\ unterminated q q body = true
    /\ List.length pre < i <= List.length pre + List.length body.

(** [sub] occurs in [s]. *)
Definition Infix (sub s : gostring) : Prop :=
  exists a b : gostring, s = a ++ sub ++ b.

(** A statement as the splitter promises it: not empty, no white space at
    either end. *)
Definition Trimmed (stmt : gostring) : Prop :=
  stmt <> [] /\ hasLeadingSpace stmt = false /\ hasTrailingSpace stmt = false.

(** ** Auxiliary values for the statements below *)

(** Two states of the loop that differ only by statements emitted earlier. *)
Definition shifted (earlier : list gostring) (st st' : scanState) : Prop :=
  statements st = earlier ++ statements st'
  /\ current st = current st'
  /\ inString st = inString st'
  /\ (inString st = true -> stringChar st = stringChar st').

(** The literal [lit] is in a statement already emitted, or in the one being
    built. *)
Definition carries (lit : gostring) (st : scanState) : Prop :=
  (exists stmt, In stmt (statements st) /\ Infix lit stmt)
  \/ Infix lit (current st).

(** The byte before the next one to read, once [a] has been read. *)
Definition lastByte (prev : option ascii) (a : gostring) : option ascii :=
  fold_left (fun _ c => Some c) a prev.

(** A [Config] with its read-only flag set to [b]. *)
Definition withReadOnly (cfg : Config) (b : bool) : Config :=
  {| Host := Host cfg; Port := Port cfg; User := User cfg;
     Password := Password cfg; Database := Database cfg; ReadOnly := b |}.

(** The defaults [New] writes into the caller's [Config]. *)
Definition defaulted (getenv : gostring -> gostring) (cfg : Config) : Config :=
  {| Host := if isEmpty (Host cfg) then str "127.0.0.1" else Host cfg;
     Port := if (Port cfg =? 0)%Z then DefaultPort else Port cfg;
     User := if isEmpty (User cfg) then str "root" else User cfg;
     Password := if isEmpty (Password cfg)
                 then getenv (str "BEADS_MARIADB_PASSWORD") else Password cfg;
     Database := if isEmpty (Database cfg) then str "beads" else Database cfg;
     ReadOnly := ReadOnly cfg |}.

(** A call of schema evolution: a statement or a catalog query on the pool. *)
Definition isSchemaCall (c : call) : bool :=
  match c with
  | CallExec PoolDB _ | CallQueryRow PoolDB _ => true
  | _ => false
  end.

(** An ASCII byte that is not white space: no part of any white-space rune. *)
Definition solid (c : ascii) : bool := isASCIIByte c && negb (asciiSpace c).

(** Operations for examples: one that always fails with a broken pipe, one
    that always finds the server down. *)
Definition brokenPipeOp : unit -> option error * unit :=
  fun _ => (Some (errorString (str "write tcp 127.0.0.1:3306: write: broken pipe")), tt).

Definition refusedOp : unit -> option error * unit :=
  fun _ => (Some (errorString (str "dial tcp 127.0.0.1:3306: connect: connection refused")), tt).

(** A failed attempt that finds the caller's context cancelled. *)
Definition cancelledAttempt : attempt :=
  {| ctxErrAtNext := Some Canceled; elapsed := 5; interval := 500;
     ctxErrAtStop := Some Canceled; ctxErrWaiting := Some Canceled |}.

(** A failed attempt, five milliseconds in, that is granted half a second. *)
Definition grantedAttempt : attempt :=
  {| ctxErrAtNext := None; elapsed := 5; interval := 500;
     ctxErrAtStop := None; ctxErrWaiting := None |}.

(** Every call a computation makes satisfies [P]. *)
Definition emits {A : Type} (P : call -> bool) (m : M A) : Prop :=
  forall (w : World) (tr : list call),
    exists cs : list call, snd (m w tr) = tr ++ cs /\ forallb P cs = true.

(** Whatever the server answers, the value returned satisfies [Q]. *)
Definition yields {A : Type} (Q : A -> Prop) (m : M A) : Prop :=
  forall (w : World) (tr : list call), Q (fst (m w tr)).

Definition notSchemaCall (c : call) : bool := negb (isSchemaCall c).

(** Equality of Go strings. *)
Fixpoint eqString (a b : gostring) : bool :=
  match a, b with
  | [], [] => true
  | x :: a', y :: b' => Ascii.eqb x y && eqString a' b'
  | _, _ => false
  end.

(** Scripts for examples, in place of the package's schema file. *)
Definition sampleScripts : SchemaScripts :=
  {| schema :=
       str "CREATE TABLE IF NOT EXISTS issues (id VARCHAR(255) PRIMARY KEY, title TEXT);"
       ++ [newline] ++ str "-- dependency edges" ++ [newline]
       ++ str "CREATE TABLE IF NOT EXISTS dependencies (issue_id VARCHAR(255), depends_on_id VARCHAR(255));";
     defaultConfig :=
       str "INSERT IGNORE INTO config (`key`, value) VALUES ('compaction_enabled', 'false');";
     readyIssuesView :=
       str "CREATE OR REPLACE VIEW ready_issues AS SELECT * FROM issues";
     blockedIssuesView :=
       str "CREATE OR REPLACE VIEW blocked_issues AS SELECT * FROM issues" |}.

(** A server on which every call succeeds and every catalog query counts
    nothing; no environment variable is set. *)
Definition quietWorld : World :=
  {| Getenv := fun _ => [];
     answer := fun _ _ => None;
     scanned := fun _ _ => 0%Z |}.

(** The same server, with a user that may not create indexes. *)
Definition indexDenied : error :=
  errorString (str "Error 1142 (42000): INDEX command denied to user 'beads'@'localhost' for table `beads`.`issues`").

Definition indexDeniedWorld : World :=
  {| Getenv := fun _ => [];
     answer := fun _ c =>
       match c with
       | CallExec PoolDB stmt =>
           if eqString stmt (str "CREATE INDEX idx_issues_issue_type ON issues(issue_type)")
           then Some indexDenied else None
       | _ => None
       end;
     scanned := fun _ _ => 0%Z |}.

(** A server whose pool reports a cancelled context when it is closed. *)
Definition cancelledCloseWorld : World :=
  {| Getenv := fun _ => [];
     answer := fun _ c =>
       match c with
       | CallClose _ => Some Canceled
       | _ => None
       end;
     scanned := fun _ _ => 0%Z |}.

(** A store as [New] returns it. *)
Definition openStore : MariaDBStore :=
  {| db := Some PoolDB; dbName := str "beads"; closed := false;
     connStr := str "root@tcp(127.0.0.1:3306)/beads?parseTime=true";
     readOnly := false |}.

(** A read-only configuration with every other field left to its default. *)
Definition readOnlyConfig : Config :=
  {| Host := []; Port := 0; User := []; Password := []; Database := [];
     ReadOnly := true |}.

(** A case table for examples on ASCII text, which never consult it. *)
Definition plainText : Unicode := {| MapToLower := fun s => s |}.

(** ** Auxiliary values for the further properties *)

(** [strings.Split(s, sep)] for a separator of one byte. *)
Fixpoint SplitOn (sep : ascii) (s : gostring) : list gostring :=
  match s with
  | [] => [[]]
  | c :: r =>
      if Ascii.eqb c sep then [] :: SplitOn sep r
      else match SplitOn sep r with
           | [] => [[c]]
           | l :: ls => (c :: l) :: ls
           end
  end.

(** The pieces of a text, the first one continuing the text [cur]. *)
Definition continued (cur : gostring) (pieces : list gostring) : list gostring :=
  match pieces with
  | [] => [cur]
  | l :: ls => (cur ++ l) :: ls
  end.

(** The texts of a list that are not empty. *)
Definition nonEmpty (l : list gostring) : list gostring :=
  filter (fun s => negb (isEmpty s)) l.

(** No byte of [s] is a quote. *)
Definition quoteFree (s : gostring) : bool :=
  forallb (fun c => negb (isQuote c)) s.

(** What the loop of [splitStatements] keeps true of the text [done] it has
    read: every statement emitted is a part of it, and the statement being
    built is its end. *)
Definition cutFrom (done : gostring) (st : scanState) : Prop :=
  (forall stmt, In stmt (statements st) -> Infix stmt done)
  /\ exists a, done = a ++ current st.

(** The statements of a script that are submitted: those that are not only
    comments. *)
Definition submitted (stmts : list gostring) : list gostring :=
  filter (fun stmt => negb (isOnlyComments stmt)) stmts.

(** The calls of the two named migrations on a database without their
    columns. *)
Definition migrationCalls (d : sqlDB) : list call :=
  [ CallQueryRow d wispTypeQuery;
    CallExec d (str "ALTER TABLE issues ADD COLUMN wisp_type VARCHAR(32) DEFAULT ''");
    CallQueryRow d specIDQuery;
    CallExec d (str "ALTER TABLE issues ADD COLUMN spec_id VARCHAR(1024)");
    CallExec d (str "CREATE INDEX idx_issues_spec_id ON issues(spec_id)") ].

(** An error the index migrations take for success. *)
Definition indexExists `{Unicode} (e : error) : bool :=
  Contains (ToLower (Error e)) (str "duplicate")
  || Contains (ToLower (Error e)) (str "already exists").

(** An error the removal of the foreign key takes for success. *)
Definition keyAbsent `{Unicode} (e : error) : bool :=
  Contains (ToLower (Error e)) (str "can't drop")
  || Contains (ToLower (Error e)) (str "doesn't exist")
  || Contains (ToLower (Error e)) (str "check that it exists")
  || Contains (ToLower (Error e)) (str "was not found").

(** A server whose schema is already current: the index and the two columns
    exist, the foreign key is gone. *)
Definition migratedWorld : World :=
  {| Getenv := fun _ => [];
     answer := fun _ c =>
       match c with
       | CallExec _ stmt =>
           if eqString stmt (str "CREATE INDEX idx_issues_issue_type ON issues(issue_type)")
           then Some (errorString (str "Error 1061 (42000): Duplicate key name 'idx_issues_issue_type'"))
           else if eqString stmt (str "ALTER TABLE dependencies DROP FOREIGN KEY fk_dep_depends_on")
           then Some (errorString (str "Error 1091 (42000): Can't DROP FOREIGN KEY `fk_dep_depends_on`; check that it exists"))
           else None
       | _ => None
       end;
     scanned := fun _ _ => 1%Z |}.

(** A server that answers every statement with a duplicate-column error and
    counts no column. *)
Definition duplicateColumnWorld : World :=
  {| Getenv := fun _ => [];
     answer := fun _ c =>
       match c with
       | CallExec _ _ =>
           Some (errorString (str "Error 1060 (42S21): Duplicate column name 'wisp_type'"))
       | _ => None
       end;
     scanned := fun _ _ => 0%Z |}.

(** The connection string of the pool, as [openServerConnection] builds it:
    the password only when there is one. *)
Definition serverDSN (cfg : Config) : gostring :=
  if negb (isEmpty (Password cfg)) then
    User cfg ++ str ":" ++ Password cfg ++ str "@tcp(" ++ Host cfg ++ str ":"
    ++ itoa (Port cfg) ++ str ")/" ++ Database cfg ++ str "?parseTime=true"
  else
    User cfg ++ str "@tcp(" ++ Host cfg ++ str ":"
    ++ itoa (Port cfg) ++ str ")/" ++ Database cfg ++ str "?parseTime=true".

(** The connection string of the administrative connection: no database. *)
Definition adminDSN (cfg : Config) : gostring :=
  if negb (isEmpty (Password cfg)) then
    User cfg ++ str ":" ++ Password cfg ++ str "@tcp(" ++ Host cfg
    ++ str ":" ++ itoa (Port cfg) ++ str ")/?parseTime=true"
  else
    User cfg ++ str "@tcp(" ++ Host cfg
    ++ str ":" ++ itoa (Port cfg) ++ str ")/?parseTime=true".

(** The statement sent on the administrative connection. *)
Definition createDatabase (cfg : Config) : gostring :=
  str "CREATE DATABASE IF NOT EXISTS " ++ Database cfg.


(** A configuration for examples. *)
Definition sampleConfig : Config :=
  {| Host := str "db.example.org"; Port := 3307; User := str "beads";
     Password := str "s3cret"; Database := str "tracker"; ReadOnly := false |}.

(** A host on which no server listens. *)
Definition refusedError : error :=
  errorString (str "dial tcp 127.0.0.1:3306: connect: connection refused").

Definition refusedWorld : World :=
  {| Getenv := fun _ => [];
     answer := fun _ c =>
       match c with
       | CallExec InitDB _ => Some refusedError
       | _ => None
       end;
     scanned := fun _ _ => 0%Z |}.

(** A server that refuses to answer the ping. *)
Definition deadPoolWorld : World :=
  {| Getenv := fun _ => [];
     answer := fun _ c =>
       match c with
       | CallPing _ => Some (errorString (str "driver: bad connection"))
       | _ => None
       end;
     scanned := fun _ _ => 0%Z |}.

(** The store [New] returns for the sample configuration. *)
Definition sampleStore : MariaDBStore :=
  {| db := Some PoolDB; dbName := str "tracker"; closed := false;
     connStr := str "beads:s3cret@tcp(db.example.org:3307)/tracker?parseTime=true";
     readOnly := false |}.

(** The calls of a successful connection. *)
Definition connectionCalls (cfg : Config) : list call :=
  [ CallOpen (serverDSN cfg); CallOpen (adminDSN cfg);
    CallExec InitDB (createDatabase cfg); CallClose InitDB ].

(** An operation that fails with [e] until it has been invoked [k] times,
    then succeeds; its state counts the invocations. *)
Definition flaky (k : nat) (e : error) : nat -> option error * nat :=
  fun n => (if n <? k then Some e else None, S n).

(** A failed attempt after which the backoff waits and the timer fires: the
    context is not done and the interval stays within the ceiling. *)
Definition granted (a : attempt) : bool :=
  negb (isSome (ctxErrAtNext a))
  && (elapsed a + interval a <=? serverRetryMaxElapsed)%N
  && negb (isSome (ctxErrWaiting a)).

(** A failed attempt that finds the ceiling passed. *)
Definition lateAttempt : attempt :=
  {| ctxErrAtNext := None; elapsed := 29900; interval := 750;
     ctxErrAtStop := None; ctxErrWaiting := None |}.

Definition brokenPipe : error :=
  errorString (str "write tcp 127.0.0.1:3306: write: broken pipe").

(** ** The backend factory (factory_mariadb.go) *)

(** The fields of the factory's options that the MariaDB backend reads. *)
Record Options := {
  ServerHost : gostring;
  ServerPort : Z;
  ServerUser : gostring;
  OptionsDatabase : gostring;
  OptionsReadOnly : bool
}.

(** The function [init] registers for the MariaDB backend.  It does not read
    [path], and it passes no password. *)
Definition mariadbBackend `{Unicode} `{SchemaScripts}
           (path : gostring) (opts : Options) : M (result MariaDBStore) :=
  '(_, r) <- New {| Host := ServerHost opts;
                    Port := ServerPort opts;
                    User := ServerUser opts;
                    Password := [];
                    Database := OptionsDatabase opts;
                    ReadOnly := OptionsReadOnly opts |} ;;
  match r with
  | Err e => ret (Err e)
  | Ok store => ret (Ok store)
  end.

(** The configuration the factory hands to [New]. *)
Definition optionsConfig (opts : Options) : Config :=
  {| Host := ServerHost opts; Port := ServerPort opts; User := ServerUser opts;
     Password := []; Database := OptionsDatabase opts;
     ReadOnly := OptionsReadOnly opts |}.

(** Options with nothing set, and an environment that holds a password. *)
Definition noOptions : Options :=
  {| ServerHost := []; ServerPort := 0; ServerUser := [];
     OptionsDatabase := []; OptionsReadOnly := false |}.

Definition secretWorld : World :=
  {| Getenv := fun name =>
       if eqString name (str "BEADS_MARIADB_PASSWORD") then str "hunter2" else [];
     answer := fun _ _ => None;
     scanned := fun _ _ => 0%Z |}.

(** A server that denies every statement. *)
Definition denyingWorld : World :=
  {| Getenv := fun _ => [];
     answer := fun _ c =>
       match c with
       | CallExec _ _ => Some indexDenied
       | _ => None
       end;
     scanned := fun _ _ => 0%Z |}.

(** The error of [RunMigrations] on that server. *)
Definition wispTypeDenied : error :=
  wrapError (str "mariadb migration " ++ quoted (str "wisp_type_column")
             ++ str " failed: "
             ++ Error (Errorf "adding wisp_type column: " indexDenied []))
            (Errorf "adding wisp_type column: " indexDenied []).

(** A byte the loop of [splitStatements] only copies when it is outside a
    literal: neither a quote nor the separator. *)
Definition plainByte (c : ascii) : bool :=
  negb (isQuote c) && negb (Ascii.eqb c semicolon).

(** A text the loop reads through without taking the separator branch: all
    of it is still in [current] at the end. *)
Definition unsplit (seg : gostring) : Prop :=
  current (scan seg) = seg.

(** The loop's position inside the statement being built is the one a fresh
    run over that statement alone would reach. *)
Definition restartable (prev : option ascii) (st : scanState) : Prop :=
  current (scan (current st)) = current st
  /\ inString (scan (current st)) = inString st
  /\ (inString st = true ->
      stringChar (scan (current st)) = stringChar st
      /\ lastByte None (current st) = prev).

(** What the loop keeps true of the statements it has emitted. *)
Definition emittedWhole (st : scanState) : Prop :=
  forall stmt, In stmt (statements st) ->
    isEmpty stmt = false /\ exists seg, stmt = TrimSpace seg /\ unsplit seg.

(** ** The clock of the retry loop *)

(** A clock that runs forward: no failed attempt is earlier than [since],
    and each one comes no sooner after the one before than the interval
    that was waited in between.  [backoff.Retry] waits for its timer before
    it invokes the operation again, and the elapsed time is read as the time
    since the first attempt. *)
Fixpoint runsForward (since : N) (clock : list attempt) : bool :=
  match clock with
  | [] => true
  | a :: later =>
      (since <=? elapsed a)%N && runsForward (elapsed a + interval a) later
  end.

(** Every interval drawn is at least [lo] milliseconds. *)
Definition intervalsAtLeast (lo : N) (clock : list attempt) : bool :=
  forallb (fun a => (lo <=? interval a)%N) clock.

(** Three failed attempts on a clock that runs forward, with the intervals
    the default policy could draw first. *)
Definition forwardClock : list attempt :=
  [ {| ctxErrAtNext := None; elapsed := 5; interval := 400;
       ctxErrAtStop := None; ctxErrWaiting := None |};
    {| ctxErrAtNext := None; elapsed := 410; interval := 900;
       ctxErrAtStop := None; ctxErrWaiting := None |};
    {| ctxErrAtNext := None; elapsed := 1315; interval := 1000;
       ctxErrAtStop := None; ctxErrWaiting := None |} ].

(** A failed attempt that finds the context alive, and cancelled before the
    timer fires. *)
Definition interruptedAttempt : attempt :=
  {| ctxErrAtNext := None; elapsed := 5; interval := 500;
     ctxErrAtStop := None; ctxErrWaiting := Some Canceled |}.

(** ** The steps of schema evolution *)

(** The server accepts each of the statements [done], submitted in this
    order after the calls [tr]. *)
Fixpoint accepted (d : sqlDB) (w : World) (tr : list call) (done : list gostring)
  : bool :=
  match done with
  | [] => true
  | stmt :: rest =>
      negb (isSome (answer w tr (CallExec d stmt)))
      && accepted d w (tr ++ [CallExec d stmt]) rest
  end.

(** The calls of the two column migrations. *)
Inductive migrationAction :=
| CheckWispType
| AddWispType
| CheckSpecID
| AddSpecID
| IndexSpecID.

Definition actionCall (d : sqlDB) (action : migrationAction) : call :=
  match action with
  | CheckWispType => CallQueryRow d wispTypeQuery
  | AddWispType =>
      CallExec d (str "ALTER TABLE issues ADD COLUMN wisp_type VARCHAR(32) DEFAULT ''")
  | CheckSpecID => CallQueryRow d specIDQuery
  | AddSpecID => CallExec d (str "ALTER TABLE issues ADD COLUMN spec_id VARCHAR(1024)")
  | IndexSpecID => CallExec d (str "CREATE INDEX idx_issues_spec_id ON issues(spec_id)")
  end.

(** The migration a call belongs to, by its registered name. *)
Definition migrationOf (action : migrationAction) : gostring :=
  match action with
  | CheckWispType | AddWispType => str "wisp_type_column"
  | CheckSpecID | AddSpecID | IndexSpecID => str "spec_id_column"
  end.

(** The text a migration puts before the error of a call. *)
Definition actionLabel (action : migrationAction) : string :=
  match action with
  | CheckWispType => "checking wisp_type column: "
  | AddWispType => "adding wisp_type column: "
  | CheckSpecID => "checking spec_id column: "
  | AddSpecID => "adding spec_id column: "
  | IndexSpecID => "creating spec_id index: "
  end.

(** The step of schema evolution that failed. *)
Inductive failedStep :=
| BaselineStatement (stmt : gostring)
| DefaultConfigStatement (stmt : gostring)
| IndexMigration (migration : gostring)
| DropForeignKey
| ReadyIssuesView
| BlockedIssuesView
| NamedMigration (action : migrationAction).

(** The call to the server a step makes. *)
Definition failingCall `{SchemaScripts} (d : sqlDB) (step : failedStep) : call :=
  match step with
  | BaselineStatement stmt => CallExec d stmt
  | DefaultConfigStatement stmt => CallExec d stmt
  | IndexMigration migration => CallExec d migration
  | DropForeignKey => CallExec d dropForeignKey
  | ReadyIssuesView => CallExec d readyIssuesView
  | BlockedIssuesView => CallExec d blockedIssuesView
  | NamedMigration action => actionCall d action
  end.

(** The errors a step takes for its work being done already. *)
Definition tolerated `{Unicode} (step : failedStep) (cause : error) : bool :=
  let low := ToLower (Error cause) in
  match step with
  | BaselineStatement _ => false
  | DefaultConfigStatement _ => false
  | IndexMigration _ =>
      Contains low (str "duplicate") || Contains low (str "already exists")
  | DropForeignKey =>
      Contains low (str "can't drop") || Contains low (str "doesn't exist")
      || Contains low (str "check that it exists") || Contains low (str "was not found")
  | ReadyIssuesView => false
  | BlockedIssuesView => false
  | NamedMigration CheckWispType => false
  | NamedMigration AddWispType => Contains low (str "duplicate column")
  | NamedMigration CheckSpecID => false
  | NamedMigration AddSpecID => Contains low (str "duplicate column")
  | NamedMigration IndexSpecID =>
      Contains low (str "duplicate") || Contains low (str "already exists")
  end.

(** The error a migration returns for a failed call. *)
Definition actionError (action : migrationAction) (cause : error) : error :=
  Errorf (actionLabel action) cause [].

(** The error [RunMigrations] returns for it. *)
Definition migrationError (action : migrationAction) (cause : error) : error :=
  wrapError (str "mariadb migration " ++ quoted (migrationOf action)
             ++ str " failed: " ++ Error (actionError action cause))
            (actionError action cause).

(** The error schema evolution returns for a failed step, given the error
    the server answered. *)
Definition stepError (step : failedStep) (cause : error) : error :=
  match step with
  | BaselineStatement stmt =>
      Errorf "failed to create schema: " cause
        ([newline] ++ str "Statement: " ++ truncateForError stmt)
  | DefaultConfigStatement _ => Errorf "failed to insert default config: " cause []
  | IndexMigration _ => Errorf "failed to apply index migration: " cause []
  | DropForeignKey => Errorf "failed to drop fk_dep_depends_on: " cause []
  | ReadyIssuesView => Errorf "failed to create ready_issues view: " cause []
  | BlockedIssuesView => Errorf "failed to create blocked_issues view: " cause []
  | NamedMigration action =>
      Errorf "failed to run mariadb migrations: " (migrationError action cause) []
  end.

(** Its text, given the text of the server's error. *)
Definition failureText (step : failedStep) (cause : gostring) : gostring :=
  match step with
  | BaselineStatement stmt =>
      str "failed to create schema: " ++ cause
      ++ [newline] ++ str "Statement: " ++ truncateForError stmt
  | DefaultConfigStatement _ => str "failed to insert default config: " ++ cause
  | IndexMigration _ => str "failed to apply index migration: " ++ cause
  | DropForeignKey => str "failed to drop fk_dep_depends_on: " ++ cause
  | ReadyIssuesView => str "failed to create ready_issues view: " ++ cause
  | BlockedIssuesView => str "failed to create blocked_issues view: " ++ cause
  | NamedMigration action =>
      str "failed to run mariadb migrations: "
      ++ str "mariadb migration " ++ quoted (migrationOf action) ++ str " failed: "
      ++ str (actionLabel action) ++ cause
  end.

(** The errors wrapped inside an error, from the outside in: what
    [errors.Unwrap] gives, repeated. *)
Fixpoint wrapped (e : error) : list error :=
  match e with
  | wrapError _ inner => inner :: wrapped inner
  | _ => []
  end.

(** The step belongs to schema evolution: its statement is one the script
    loops submit, its migration is registered. *)
Definition stepOfEvolution `{Unicode} `{SchemaScripts} (step : failedStep) : Prop :=
  match step with
  | BaselineStatement stmt =>
      In stmt (submitted (nonEmpty (map TrimSpace (splitStatements schema))))
  | DefaultConfigStatement stmt =>
      In stmt (submitted (nonEmpty (map TrimSpace (splitStatements defaultConfig))))
  | IndexMigration migration => In migration indexMigrations
  | NamedMigration action => In (migrationOf action) ListMigrations
  | _ => True
  end.

(** The server let each of [steps] pass, made in this order after the calls
    [tr]: it answered the step's call with no error, or with one the step
    tolerates. *)
Fixpoint passed `{Unicode} `{SchemaScripts} (d : sqlDB) (w : World)
         (tr : list call) (steps : list failedStep) : bool :=
  match steps with
  | [] => true
  | step :: rest =>
      match answer w tr (failingCall d step) with
      | None => true
      | Some e => tolerated step e
      end
      && passed d w (tr ++ [failingCall d step]) rest
  end.

(** The calls [m] makes are those of a sequence of steps in [P].  When [m]
    returns nil, the server let them all pass.  When [m] returns an error,
    the server let all but the last pass and answered the last with an error
    that step does not tolerate, and [m] returns that error as [wrap] wraps
    it. *)
Definition failsAs `{Unicode} `{SchemaScripts} (d : sqlDB)
           (P : failedStep -> Prop) (wrap : failedStep -> error -> error)
           (m : M (option error)) : Prop :=
  forall (w : World) (tr : list call),
    exists steps : list failedStep,
      snd (m w tr) = tr ++ map (failingCall d) steps
      /\ Forall P steps
      /\ match fst (m w tr) with
         | None => passed d w tr steps = true
         | Some e =>
             exists (before : list failedStep) (step : failedStep) (cause : error),
               steps = before ++ [step]
               /\ passed d w tr before = true
               /\ answer w (tr ++ map (failingCall d) before) (failingCall d step)
                  = Some cause
               /\ tolerated step cause = false
               /\ e = wrap step cause
         end.

(** The error a migration returns for the call of a step. *)
Definition stepActionError (step : failedStep) (cause : error) : error :=
  match step with
  | NamedMigration action => actionError action cause
  | _ => cause
  end.

(** The error [RunMigrations] returns for it. *)
Definition stepMigrationError (step : failedStep) (cause : error) : error :=
  match step with
  | NamedMigration action => migrationError action cause
  | _ => cause
  end.

(** The step is a call of the migration registered as [name]. *)
Definition stepOfMigration (name : gostring) (step : failedStep) : Prop :=
  match step with
  | NamedMigration action => migrationOf action = name
  | _ => False
  end.

(** The step is a call of a registered migration. *)
Definition stepOfRegistered `{Unicode} (step : failedStep) : Prop :=
  match step with
  | NamedMigration action => In (migrationOf action) ListMigrations
  | _ => False
  end.

(* ================================================================== *)
(** * Part II: properties *)
(* ================================================================== *)

(** ** Strings *)

Lemma HasPrefix_app (p s : gostring) : HasPrefix (p ++ s) p = true.
Proof.
  induction p as [|c p IH]; simpl.
  - destruct s; reflexivity.
  - rewrite Ascii.eqb_refl. exact IH.
Qed.

Lemma HasPrefix_inv (p s : gostring) :
  HasPrefix s p = true -> exists r, s = p ++ r.
Proof.
  revert s. induction p as [|c p IH]; intros s H.
  - exists s. reflexivity.
  - destruct s as [|d s]; simpl in H; [discriminate|].
    apply andb_true_iff in H. destruct H as [Hc Hp].
    apply Ascii.eqb_eq in Hc. subst d.
    destruct (IH _ Hp) as [r ->]. exists r. reflexivity.
Qed.

Lemma Contains_cons (c : ascii) (s sub : gostring) :
  Contains (c :: s) sub = HasPrefix (c :: s) sub || Contains s sub.
Proof. reflexivity. Qed.

Lemma Contains_nil (sub : gostring) : Contains [] sub = isEmpty sub.
Proof. destruct sub; reflexivity. Qed.

(** [Contains] is the occurrence relation. *)
Lemma Contains_Infix (s sub : gostring) :
  Contains s sub = true <-> Infix sub s.
Proof.
  split.
  - induction s as [|c s IH]; intros H.
    + rewrite Contains_nil in H. destruct sub; [|discriminate H].
      exists [], []. reflexivity.
    + rewrite Contains_cons in H. apply orb_true_iff in H. destruct H as [H|H].
      * apply HasPrefix_inv in H. destruct H as [r Hr]. exists [], r. exact Hr.
      * destruct (IH H) as (a & b & ->). exists (c :: a), b. reflexivity.
  - intros (a & b & ->). induction a as [|c a IH].
    + simpl app. destruct (sub ++ b) as [|x l] eqn:E.
      * rewrite Contains_nil. destruct sub; [reflexivity|discriminate E].
      * rewrite Contains_cons, <- E, HasPrefix_app. reflexivity.
    + change ((c :: a) ++ sub ++ b) with (c :: (a ++ sub ++ b)).
      rewrite Contains_cons, IH. apply orb_true_r.
Qed.

(** On ASCII text [ToLower] is the byte map, whatever the case table. *)
Lemma ToLower_ascii (U : Unicode) (s : gostring) :
  forallb isASCIIByte s = true -> ToLower s = map lowerByte s.
Proof.
  intros H. unfold ToLower. rewrite H.
  destruct (existsb isUpperByte s) eqn:E; [reflexivity|].
  clear H. induction s as [|c s IH]; [reflexivity|].
  simpl in E. apply orb_false_iff in E. destruct E as [Ec Es].
  simpl. unfold lowerByte at 1. rewrite Ec. f_equal. apply IH. exact Es.
Qed.

(** *** White space and [TrimSpace] *)

(** Induction following the one-, two- or three-byte steps of the trimming
    loops. *)
Lemma rune_steps_ind (P : gostring -> Prop) :
  P [] ->
  (forall c1 r1,
      P r1 ->
      (forall c2 r2, r1 = c2 :: r2 -> P r2) ->
      (forall c2 c3 r3, r1 = c2 :: c3 :: r3 -> P r3) ->
      P (c1 :: r1)) ->
  forall s, P s.
Proof.
  intros Hnil Hstep s.
  assert (H : P s /\ (forall c2 r2, s = c2 :: r2 -> P r2)
              /\ (forall c2 c3 r3, s = c2 :: c3 :: r3 -> P r3)).
  { induction s as [|c s IH].
    - repeat split; [exact Hnil | discriminate | discriminate].
    - destruct IH as (H1 & H2 & H3). repeat split.
      + apply Hstep; assumption.
      + intros c2 r2 E. injection E as _ <-. exact H1.
      + intros c2 c3 r3 E. injection E as _ E. exact (H2 _ _ E). }
  exact (proj1 H).
Qed.

Lemma TrimLeftSpace_no_leading (s : gostring) :
  leadingSpaceWidth (TrimLeftSpace s) = 0.
Proof.
  induction s as [|c1 r1 IH1 IH2 IH3] using rune_steps_ind; [reflexivity|].
  cbn [TrimLeftSpace]. destruct (asciiSpace c1) eqn:E1; [exact IH1|].
  destruct r1 as [|c2 r2]; [cbn; rewrite E1; reflexivity|].
  destruct (space2 c1 c2) eqn:E2; [exact (IH2 _ _ eq_refl)|].
  destruct r2 as [|c3 r3]; [cbn; rewrite E1, E2; reflexivity|].
  destruct (space3 c1 c2 c3) eqn:E3; [exact (IH3 _ _ _ eq_refl)|].
  cbn. rewrite E1, E2, E3. reflexivity.
Qed.

Lemma TrimRightSpaceRev_no_trailing (r : gostring) :
  trailingSpaceWidthRev (TrimRightSpaceRev r) = 0.
Proof.
  induction r as [|c1 r1 IH1 IH2 IH3] using rune_steps_ind; [reflexivity|].
  cbn [TrimRightSpaceRev]. destruct (asciiSpace c1) eqn:E1; [exact IH1|].
  destruct r1 as [|c2 r2]; [cbn; rewrite E1; reflexivity|].
  destruct (space2 c2 c1) eqn:E2; [exact (IH2 _ _ eq_refl)|].
  destruct r2 as [|c3 r3]; [cbn; rewrite E1, E2; reflexivity|].
  destruct (space3 c3 c2 c1) eqn:E3; [exact (IH3 _ _ _ eq_refl)|].
  cbn. rewrite E1, E2, E3. reflexivity.
Qed.

(** Trimming on the right leaves a prefix. *)
Lemma TrimRightSpaceRev_suffix (r : gostring) :
  exists a, r = a ++ TrimRightSpaceRev r.
Proof.
  induction r as [|c1 r1 IH1 IH2 IH3] using rune_steps_ind; [exists []; reflexivity|].
  cbn [TrimRightSpaceRev]. destruct (asciiSpace c1) eqn:E1.
  { destruct IH1 as [a Ha]. exists (c1 :: a). simpl. f_equal. exact Ha. }
  destruct r1 as [|c2 r2]; [exists []; reflexivity|].
  destruct (space2 c2 c1) eqn:E2.
  { destruct (IH2 _ _ eq_refl) as [a Ha]. exists (c1 :: c2 :: a).
    simpl. do 2 f_equal. exact Ha. }
  destruct r2 as [|c3 r3]; [exists []; reflexivity|].
  destruct (space3 c3 c2 c1) eqn:E3.
  { destruct (IH3 _ _ _ eq_refl) as [a Ha]. exists (c1 :: c2 :: c3 :: a).
    simpl. do 3 f_equal. exact Ha. }
  exists []. reflexivity.
Qed.

Lemma TrimRightSpace_prefix (s : gostring) :
  exists b, s = TrimRightSpace s ++ b.
Proof.
  destruct (TrimRightSpaceRev_suffix (rev s)) as [a Ha].
  exists (rev a). unfold TrimRightSpace.
  rewrite <- rev_app_distr, <- Ha. symmetry. apply rev_involutive.
Qed.

(** A text that starts with white space still does when it is extended. *)
Lemma leadingSpaceWidth_prefix (p x : gostring) :
  leadingSpaceWidth (p ++ x) = 0 -> leadingSpaceWidth p = 0.
Proof.
  destruct p as [|c1 [|c2 [|c3 r]]]; cbn; try reflexivity;
    destruct (asciiSpace c1); try discriminate; try reflexivity;
    destruct (space2 c1 c2); try discriminate; try reflexivity;
    destruct (space3 c1 c2 c3); try discriminate; reflexivity.
Qed.

Lemma TrimSpace_no_leading (s : gostring) : hasLeadingSpace (TrimSpace s) = false.
Proof.
  unfold hasLeadingSpace, TrimSpace.
  destruct (TrimRightSpace_prefix (TrimLeftSpace s)) as [b Hb].
  pose proof (TrimLeftSpace_no_leading s) as H. rewrite Hb in H.
  apply leadingSpaceWidth_prefix in H. rewrite H. reflexivity.
Qed.

Lemma TrimSpace_no_trailing (s : gostring) : hasTrailingSpace (TrimSpace s) = false.
Proof.
  unfold hasTrailingSpace, TrimSpace, TrimRightSpace.
  rewrite rev_involutive, TrimRightSpaceRev_no_trailing. reflexivity.
Qed.

Lemma TrimLeftSpace_fixed (s : gostring) :
  leadingSpaceWidth s = 0 -> TrimLeftSpace s = s.
Proof.
  destruct s as [|c1 [|c2 [|c3 r]]]; cbn; try reflexivity;
    destruct (asciiSpace c1); try discriminate; try reflexivity;
    destruct (space2 c1 c2); try discriminate; try reflexivity;
    destruct (space3 c1 c2 c3); try discriminate; reflexivity.
Qed.

Lemma TrimRightSpaceRev_fixed (r : gostring) :
  trailingSpaceWidthRev r = 0 -> TrimRightSpaceRev r = r.
Proof.
  destruct r as [|c1 [|c2 [|c3 r]]]; cbn; try reflexivity;
    destruct (asciiSpace c1); try discriminate; try reflexivity;
    destruct (space2 c2 c1); try discriminate; try reflexivity;
    destruct (space3 c3 c2 c1); try discriminate; reflexivity.
Qed.

(** A text without white space at either end is its own trimming. *)
Lemma TrimSpace_fixed (s : gostring) :
  hasLeadingSpace s = false -> hasTrailingSpace s = false -> TrimSpace s = s.
Proof.
  unfold hasLeadingSpace, hasTrailingSpace, TrimSpace, TrimRightSpace.
  intros Hl Hr.
  apply negb_false_iff, Nat.eqb_eq in Hl.
  apply negb_false_iff, Nat.eqb_eq in Hr.
  rewrite (TrimLeftSpace_fixed _ Hl), (TrimRightSpaceRev_fixed _ Hr).
  apply rev_involutive.
Qed.

Lemma TrimSpace_idempotent (s : gostring) : TrimSpace (TrimSpace s) = TrimSpace s.
Proof.
  apply TrimSpace_fixed; [apply TrimSpace_no_leading | apply TrimSpace_no_trailing].
Qed.

(** *** Bytes that trimming never removes *)

Ltac bytes_lia :=
  repeat match goal with
         | |- context [(?a =? ?b)%N] => destruct (N.eqb_spec a b)
         | |- context [(?a <=? ?b)%N] => destruct (N.leb_spec a b)
         | |- context [(?a <? ?b)%N] => destruct (N.ltb_spec a b)
         | H : context [(?a <? ?b)%N] |- _ => destruct (N.ltb_spec a b)
         end;
  simpl in *; try reflexivity; try discriminate; try lia.

Lemma solid_ascii (c : ascii) : solid c = true -> (byteval c < 128)%N.
Proof.
  unfold solid, isASCIIByte, RuneSelf. intros H.
  apply andb_true_iff in H. destruct H as [H _]. apply N.ltb_lt. exact H.
Qed.

Lemma solid_not_space (c : ascii) : solid c = true -> asciiSpace c = false.
Proof.
  unfold solid. intros H. apply andb_true_iff in H. destruct H as [_ H].
  apply negb_true_iff. exact H.
Qed.

Lemma solid_space2_l (c x : ascii) : solid c = true -> space2 c x = false.
Proof. intros H. apply solid_ascii in H. unfold space2. bytes_lia. Qed.

Lemma solid_space2_r (c x : ascii) : solid c = true -> space2 x c = false.
Proof. intros H. apply solid_ascii in H. unfold space2. bytes_lia. Qed.

Lemma solid_space3_1 (c x y : ascii) : solid c = true -> space3 c x y = false.
Proof. intros H. apply solid_ascii in H. unfold space3. cbv zeta. bytes_lia. Qed.

Lemma solid_space3_2 (c x y : ascii) : solid c = true -> space3 x c y = false.
Proof. intros H. apply solid_ascii in H. unfold space3. cbv zeta. bytes_lia. Qed.

Lemma solid_space3_3 (c x y : ascii) : solid c = true -> space3 x y c = false.
Proof. intros H. apply solid_ascii in H. unfold space3. cbv zeta. bytes_lia. Qed.

Lemma isQuote_solid (q : ascii) : isQuote q = true -> solid q = true.
Proof.
  unfold isQuote. intros H.
  repeat (apply orb_true_iff in H; destruct H as [H|H]);
    apply Ascii.eqb_eq in H; subst q; reflexivity.
Qed.

(** Trimming on the left stops at a solid byte at the latest. *)
Lemma TrimLeftSpace_keeps (c : ascii) (r a : gostring) :
  solid c = true -> exists a', TrimLeftSpace (a ++ c :: r) = a' ++ c :: r.
Proof.
  intros Hc.
  pose proof (solid_not_space _ Hc) as Hs.
  induction a as [|c1 r1 IH1 IH2 IH3] using rune_steps_ind.
  - exists []. apply TrimLeftSpace_fixed. cbn. rewrite Hs.
    destruct r as [|c2 [|c3 r3]]; [reflexivity| |];
      rewrite (solid_space2_l c c2 Hc); [reflexivity|].
    rewrite (solid_space3_1 c c2 c3 Hc). reflexivity.
  - change ((c1 :: r1) ++ c :: r) with (c1 :: (r1 ++ c :: r)).
    cbn [TrimLeftSpace]. destruct (asciiSpace c1) eqn:E1; [exact IH1|].
    destruct r1 as [|c2 r2].
    + cbn [app]. rewrite (solid_space2_r c c1 Hc).
      destruct r as [|c3 r3]; [exists [c1]; reflexivity|].
      rewrite (solid_space3_2 c c1 c3 Hc). exists [c1]. reflexivity.
    + cbn [app].
      destruct (space2 c1 c2) eqn:E2; [exact (IH2 _ _ eq_refl)|].
      destruct r2 as [|c3 r3].
      * cbn [app]. rewrite (solid_space3_3 c c1 c2 Hc). exists [c1; c2]. reflexivity.
      * cbn [app].
        destruct (space3 c1 c2 c3) eqn:E3; [exact (IH3 _ _ _ eq_refl)|].
        exists (c1 :: c2 :: c3 :: r3). reflexivity.
Qed.

Lemma TrimRightSpaceRev_keeps (c : ascii) (r a : gostring) :
  solid c = true -> exists a', TrimRightSpaceRev (a ++ c :: r) = a' ++ c :: r.
Proof.
  intros Hc.
  pose proof (solid_not_space _ Hc) as Hs.
  induction a as [|c1 r1 IH1 IH2 IH3] using rune_steps_ind.
  - exists []. apply TrimRightSpaceRev_fixed. cbn. rewrite Hs.
    destruct r as [|c2 [|c3 r3]]; [reflexivity| |];
      rewrite (solid_space2_r c c2 Hc); [reflexivity|].
    rewrite (solid_space3_3 c c3 c2 Hc). reflexivity.
  - change ((c1 :: r1) ++ c :: r) with (c1 :: (r1 ++ c :: r)).
    cbn [TrimRightSpaceRev]. destruct (asciiSpace c1) eqn:E1; [exact IH1|].
    destruct r1 as [|c2 r2].
    + cbn [app]. rewrite (solid_space2_l c c1 Hc).
      destruct r as [|c3 r3]; [exists [c1]; reflexivity|].
      rewrite (solid_space3_2 c c3 c1 Hc). exists [c1]. reflexivity.
    + cbn [app].
      destruct (space2 c2 c1) eqn:E2; [exact (IH2 _ _ eq_refl)|].
      destruct r2 as [|c3 r3].
      * cbn [app]. rewrite (solid_space3_1 c c2 c1 Hc). exists [c1; c2]. reflexivity.
      * cbn [app].
        destruct (space3 c3 c2 c1) eqn:E3; [exact (IH3 _ _ _ eq_refl)|].
        exists (c1 :: c2 :: c3 :: r3). reflexivity.
Qed.

(** A stretch of text that starts and ends with a solid byte survives
    [TrimSpace] whole. *)
Lemma TrimSpace_keeps (c1 c2 : ascii) (a mid b : gostring) :
  solid c1 = true -> solid c2 = true ->
  exists a' b', TrimSpace (a ++ c1 :: mid ++ c2 :: b) = a' ++ c1 :: mid ++ c2 :: b'.
Proof.
  intros H1 H2. unfold TrimSpace, TrimRightSpace.
  destruct (TrimLeftSpace_keeps c1 (mid ++ c2 :: b) a H1) as [a' ->].
  assert (E : a' ++ c1 :: mid ++ c2 :: b = (a' ++ c1 :: mid) ++ c2 :: b)
    by (rewrite <- app_assoc; reflexivity).
  rewrite E, (rev_app_distr (a' ++ c1 :: mid) (c2 :: b)).
  change (rev (c2 :: b)) with (rev b ++ [c2]).
  rewrite <- app_assoc. cbn [app].
  destruct (TrimRightSpaceRev_keeps c2 (rev (a' ++ c1 :: mid)) (rev b) H2)
    as [b'' ->].
  exists a', (rev b'').
  rewrite rev_app_distr.
  change (rev (c2 :: rev (a' ++ c1 :: mid)))
    with (rev (rev (a' ++ c1 :: mid)) ++ [c2]).
  rewrite rev_involutive, <- !app_assoc. reflexivity.
Qed.

(** ** The statement splitter *)

Lemma scanFrom_app (a b : gostring) :
  forall prev st,
    scanFrom prev (a ++ b) st = scanFrom (lastByte prev a) b (scanFrom prev a st).
Proof.
  induction a as [|c a IH]; intros prev st; [reflexivity|].
  simpl. apply IH.
Qed.

Lemma last_cons_default (l : gostring) :
  forall a d d', last (a :: l) d = last (a :: l) d'.
Proof.
  induction l as [|b l IH]; intros a d d'; [reflexivity|].
  change (last (b :: l) d = last (b :: l) d'). apply IH.
Qed.

Lemma lastByte_last (body : gostring) :
  forall p, lastByte (Some p) body = Some (last body p).
Proof.
  induction body as [|c body IH]; intros p; [reflexivity|].
  change (lastByte (Some p) (c :: body)) with (lastByte (Some c) body).
  rewrite IH. destruct body as [|a body]; [reflexivity|].
  f_equal. change (last (c :: a :: body) p) with (last (a :: body) p).
  apply last_cons_default.
Qed.

Lemma unterminated_app (q : ascii) (a b : gostring) :
  forall p, unterminated q p (a ++ b) = true -> unterminated q p a = true.
Proof.
  induction a as [|c a IH]; intros p H; [reflexivity|].
  simpl in *. apply andb_true_iff in H. destruct H as [H1 H2].
  rewrite H1. exact (IH _ H2).
Qed.

(** Inside a literal the loop copies bytes and changes nothing else. *)
Lemma scanFrom_in_literal (body : gostring) :
  forall p st,
    inString st = true ->
    unterminated (stringChar st) p body = true ->
    scanFrom (Some p) body st
    = {| statements := statements st;
         current := current st ++ body;
         inString := true;
         stringChar := stringChar st |}.
Proof.
  induction body as [|c body IH]; intros p st Hin Hun.
  - simpl. rewrite app_nil_r. destruct st; simpl in *. subst. reflexivity.
  - simpl in Hun. apply andb_true_iff in Hun. destruct Hun as [Hc Hrest].
    apply negb_true_iff in Hc. unfold terminates in Hc.
    simpl scanFrom. unfold scanStep at 1. rewrite Hin.
    unfold notEscaped. rewrite Hc.
    rewrite IH; simpl; [|reflexivity|exact Hrest].
    rewrite <- app_assoc. reflexivity.
Qed.

(** Outside a literal, a quote opens one. *)
Lemma scanStep_open (prev : option ascii) (q : ascii) (st : scanState) :
  inString st = false -> isQuote q = true ->
  scanStep prev q st
  = {| statements := statements st; current := current st ++ [q];
       inString := true; stringChar := q |}.
Proof. intros Hin Hq. unfold scanStep. rewrite Hin, Hq. reflexivity. Qed.

(** A whole literal is copied, and the loop is outside again after it. *)
Lemma scanFrom_literal (q : ascii) (body rest : gostring) :
  forall prev st,
    inString st = false -> isQuote q = true -> literalBody q body = true ->
    scanFrom prev (q :: body ++ q :: rest) st
    = scanFrom (Some q) rest
        {| statements := statements st;
           current := current st ++ q :: body ++ [q];
           inString := false;
           stringChar := q |}.
Proof.
  intros prev st Hin Hq Hlit.
  unfold literalBody in Hlit. apply andb_true_iff in Hlit.
  destruct Hlit as [Hun Hlast]. apply negb_true_iff in Hlast.
  simpl scanFrom. rewrite (scanStep_open prev q st Hin Hq).
  rewrite scanFrom_app, scanFrom_in_literal; [|reflexivity|exact Hun].
  rewrite lastByte_last. simpl scanFrom. f_equal.
  unfold scanStep. simpl. rewrite Ascii.eqb_refl, Hlast. simpl.
  f_equal. rewrite <- !app_assoc. reflexivity.
Qed.

Lemma scanStep_plain_outside (prev : option ascii) (c : ascii) (st : scanState) :
  inString st = false -> isQuote c = false ->
  inString (scanStep prev c st) = false.
Proof.
  intros Hin Hq. unfold scanStep. rewrite Hin, Hq.
  destruct (Ascii.eqb c semicolon); reflexivity.
Qed.

(** After a well-quoted text the loop is outside any literal. *)
Lemma scanFrom_WellQuoted (pre : gostring) :
  WellQuoted pre ->
  forall prev st, inString st = false -> inString (scanFrom prev pre st) = false.
Proof.
  induction 1 as [|c rest Hc _ IH|q body rest Hq Hlit _ IH]; intros prev st Hin.
  - exact Hin.
  - simpl. apply IH. apply scanStep_plain_outside; assumption.
  - rewrite scanFrom_literal by assumption. apply IH. reflexivity.
Qed.

(** The loop's state inside a literal that opened after a well-quoted
    prefix. *)
Lemma scan_open_literal (pre : gostring) (q : ascii) (body : gostring) :
  WellQuoted pre -> isQuote q = true -> unterminated q q body = true ->
  scan (pre ++ q :: body)
  = {| statements := statements (scan pre);
       current := current (scan pre) ++ q :: body;
       inString := true;
       stringChar := q |}.
Proof.
  intros Hpre Hq Hun. unfold scan at 1. rewrite scanFrom_app.
  fold (scan pre).
  assert (Hout : inString (scan pre) = false)
    by (apply scanFrom_WellQuoted; [exact Hpre | reflexivity]).
  simpl scanFrom. rewrite (scanStep_open _ q _ Hout Hq).
  rewrite scanFrom_in_literal; [|reflexivity|exact Hun].
  simpl. rewrite <- app_assoc. reflexivity.
Qed.

Lemma firstn_snoc (l : gostring) :
  forall k x, nth_error l k = Some x -> firstn (S k) l = firstn k l ++ [x].
Proof.
  induction l as [|c l IH]; intros [|k] x H; try discriminate.
  - injection H as ->. reflexivity.
  - simpl in H. change (c :: firstn (S k) l = c :: firstn k l ++ [x]).
    f_equal. apply IH. exact H.
Qed.

Lemma unterminated_firstn (q p : ascii) (body : gostring) (k : nat) :
  unterminated q p body = true -> unterminated q p (firstn k body) = true.
Proof.
  intros H. rewrite <- (firstn_skipn k body) in H.
  exact (unterminated_app q _ _ p H).
Qed.

(** The text read before byte [i] of a literal's body, and the byte itself. *)
Lemma literal_position (pre : gostring) (q : ascii) (body rest : gostring) (i : nat) :
  List.length pre < i <= List.length pre + List.length body ->
  exists k,
    firstn i (pre ++ q :: body ++ rest) = pre ++ q :: firstn k body
    /\ firstn (S i) (pre ++ q :: body ++ rest) = pre ++ q :: firstn (S k) body
    /\ nth_error (pre ++ q :: body ++ rest) i = nth_error body k
    /\ k < List.length body.
Proof.
  intros Hi. exists (i - List.length pre - 1).
  set (k := i - List.length pre - 1).
  assert (Ei : i = List.length pre + S k) by (unfold k; lia).
  assert (Hk : k < List.length body) by (unfold k; lia).
  assert (Hcut : forall n, n <= List.length body ->
                           firstn n (body ++ rest) = firstn n body).
  { intros n Hn. rewrite firstn_app.
    replace (n - List.length body) with 0 by lia.
    simpl. apply app_nil_r. }
  repeat split.
  - rewrite Ei, firstn_app_2. simpl. rewrite Hcut by lia. reflexivity.
  - rewrite Ei. change (S (List.length pre + S k)) with (S (List.length pre + S k)).
    replace (S (List.length pre + S k)) with (List.length pre + S (S k)) by lia.
    rewrite firstn_app_2.
    change (firstn (S (S k)) (q :: body ++ rest))
      with (q :: firstn (S k) (body ++ rest)).
    rewrite Hcut by lia. reflexivity.
  - rewrite Ei, nth_error_app2 by lia.
    replace (List.length pre + S k - List.length pre) with (S k) by lia.
    simpl. apply nth_error_app1. exact Hk.
  - exact Hk.
Qed.

(** A semicolon inside a literal: the loop copies it into the statement it is
    building and emits nothing. *)
Lemma semicolon_in_literal_copied (script : gostring) (i : nat) :
  InLiteral script i ->
  nth_error script i = Some semicolon ->
  statements (scan (firstn (S i) script)) = statements (scan (firstn i script))
  /\ current (scan (firstn (S i) script))
     = current (scan (firstn i script)) ++ [semicolon]
  /\ inString (scan (firstn (S i) script)) = true.
Proof.
  intros (pre & q & body & rest & -> & Hpre & Hq & Hun & Hi) Hnth.
  destruct (literal_position pre q body rest i Hi) as (k & E1 & E2 & E3 & Hk).
  rewrite E3 in Hnth. rewrite E1, E2, (firstn_snoc body k semicolon Hnth).
  rewrite !scan_open_literal; try assumption.
  - simpl. repeat split.
    rewrite <- app_assoc. reflexivity.
  - apply unterminated_firstn. exact Hun.
  - rewrite <- (firstn_snoc body k semicolon Hnth). apply unterminated_firstn. exact Hun.
Qed.

(** *** A literal reaches the output whole *)

Lemma Infix_snoc (lit s : gostring) (c : ascii) :
  Infix lit s -> Infix lit (s ++ [c]).
Proof.
  intros (a & b & ->). exists a, (b ++ [c]). rewrite <- !app_assoc. reflexivity.
Qed.

Lemma TrimSpace_keeps_literal (q : ascii) (body s : gostring) :
  isQuote q = true -> Infix (q :: body ++ [q]) s ->
  Infix (q :: body ++ [q]) (TrimSpace s) /\ isEmpty (TrimSpace s) = false.
Proof.
  intros Hq (a & b & ->). apply isQuote_solid in Hq.
  replace (a ++ (q :: body ++ [q]) ++ b) with (a ++ q :: body ++ q :: b)
    by (simpl; rewrite <- app_assoc; reflexivity).
  destruct (TrimSpace_keeps q q a body b Hq Hq) as (a' & b' & ->). split.
  - exists a', b'. simpl. rewrite <- app_assoc. reflexivity.
  - destruct a'; reflexivity.
Qed.

Lemma scanStep_carries (q : ascii) (body : gostring) (prev : option ascii)
      (c : ascii) (st : scanState) :
  isQuote q = true ->
  carries (q :: body ++ [q]) st -> carries (q :: body ++ [q]) (scanStep prev c st).
Proof.
  intros Hq [(stmt & Hin & Hinf)|Hcur]; unfold scanStep, carries.
  - left. exists stmt. split; [|exact Hinf].
    destruct (inString st); [exact Hin|].
    destruct (isQuote c); [exact Hin|].
    destruct (Ascii.eqb c semicolon); [|exact Hin].
    simpl. destruct (isEmpty (TrimSpace (current st))); [exact Hin|].
    apply in_or_app. left. exact Hin.
  - destruct (inString st); [right; simpl; apply Infix_snoc; exact Hcur|].
    destruct (isQuote c); [right; simpl; apply Infix_snoc; exact Hcur|].
    destruct (Ascii.eqb c semicolon); [|right; simpl; apply Infix_snoc; exact Hcur].
    left. simpl.
    destruct (TrimSpace_keeps_literal q body (current st) Hq Hcur) as [Hkeep Hne].
    rewrite Hne. exists (TrimSpace (current st)). split; [|exact Hkeep].
    apply in_or_app. right. left. reflexivity.
Qed.

Lemma scanFrom_carries (q : ascii) (body rest : gostring) :
  isQuote q = true ->
  forall prev st,
    carries (q :: body ++ [q]) st ->
    carries (q :: body ++ [q]) (scanFrom prev rest st).
Proof.
  intros Hq. induction rest as [|c rest IH]; intros prev st H; [exact H|].
  simpl. apply IH. apply scanStep_carries; assumption.
Qed.

Lemma scanFinish_carries (q : ascii) (body : gostring) (st : scanState) :
  isQuote q = true ->
  carries (q :: body ++ [q]) st ->
  exists stmt, In stmt (scanFinish st) /\ Infix (q :: body ++ [q]) stmt.
Proof.
  intros Hq [(stmt & Hin & Hinf)|Hcur]; unfold scanFinish.
  - exists stmt. split; [|exact Hinf].
    destruct (isEmpty (TrimSpace (current st))); [exact Hin|].
    apply in_or_app. left. exact Hin.
  - destruct (TrimSpace_keeps_literal q body (current st) Hq Hcur) as [Hkeep Hne].
    rewrite Hne. exists (TrimSpace (current st)). split; [|exact Hkeep].
    apply in_or_app. right. left. reflexivity.
Qed.

(** A complete literal that follows a well-quoted text is found, byte for
    byte, inside one of the statements returned. *)
Lemma literal_kept_whole (pre : gostring) (q : ascii) (body rest : gostring) :
  WellQuoted pre -> isQuote q = true -> literalBody q body = true ->
  exists stmt,
    In stmt (splitStatements (pre ++ q :: body ++ q :: rest))
    /\ Infix (q :: body ++ [q]) stmt.
Proof.
  intros Hpre Hq Hlit. unfold splitStatements, scan.
  rewrite scanFrom_app. fold (scan pre).
  rewrite scanFrom_literal;
    [|apply scanFrom_WellQuoted; [exact Hpre|reflexivity]|exact Hq|exact Hlit].
  apply scanFinish_carries; [exact Hq|].
  apply scanFrom_carries; [exact Hq|].
  right. simpl. exists (current (scan pre)), []. rewrite app_nil_r. reflexivity.
Qed.

(** *** What the splitter returns *)

Lemma TrimSpace_Trimmed (s : gostring) :
  isEmpty (TrimSpace s) = false -> Trimmed (TrimSpace s).
Proof.
  intros H. repeat split.
  - intros E. rewrite E in H. discriminate.
  - apply TrimSpace_no_leading.
  - apply TrimSpace_no_trailing.
Qed.

Lemma scanStep_Trimmed (prev : option ascii) (c : ascii) (st : scanState) :
  Forall Trimmed (statements st) ->
  Forall Trimmed (statements (scanStep prev c st)).
Proof.
  intros H. unfold scanStep.
  destruct (inString st); [exact H|].
  destruct (isQuote c); [exact H|].
  destruct (Ascii.eqb c semicolon); [|exact H].
  simpl. destruct (isEmpty (TrimSpace (current st))) eqn:E; [exact H|].
  apply Forall_app. split; [exact H|].
  constructor; [|constructor]. apply TrimSpace_Trimmed. exact E.
Qed.

Lemma scanFrom_Trimmed (rest : gostring) :
  forall prev st,
    Forall Trimmed (statements st) ->
    Forall Trimmed (statements (scanFrom prev rest st)).
Proof.
  induction rest as [|c rest IH]; intros prev st H; [exact H|].
  simpl. apply IH. apply scanStep_Trimmed. exact H.
Qed.

Lemma splitStatements_Trimmed (script : gostring) :
  Forall Trimmed (splitStatements script).
Proof.
  unfold splitStatements, scanFinish.
  assert (H : Forall Trimmed (statements (scan script)))
    by (apply scanFrom_Trimmed; constructor).
  destruct (isEmpty (TrimSpace (current (scan script)))) eqn:E; [exact H|].
  apply Forall_app. split; [exact H|].
  constructor; [|constructor]. apply TrimSpace_Trimmed. exact E.
Qed.

Lemma scanStep_shifted (earlier : list gostring) (prev prev' : option ascii)
      (c : ascii) (st st' : scanState) :
  shifted earlier st st' ->
  inString st = false \/ prev = prev' ->
  shifted earlier (scanStep prev c st) (scanStep prev' c st').
Proof.
  destruct st as [ss cur ins sc], st' as [ss' cur' ins' sc'].
  unfold shifted, scanStep. simpl.
  intros (-> & -> & -> & Hsc) Hprev.
  destruct ins'; simpl.
  - rewrite (Hsc eq_refl). destruct Hprev as [Hf| ->]; [discriminate|].
    repeat split; auto.
  - destruct (isQuote c); simpl; [repeat split; auto|].
    destruct (Ascii.eqb c semicolon); simpl; [|repeat split; auto; discriminate].
    repeat split; try discriminate.
    destruct (isEmpty (TrimSpace cur')); [reflexivity|symmetry; apply app_assoc].
Qed.

Lemma scanFrom_shifted (earlier : list gostring) (rest : gostring) :
  forall prev prev' st st',
    shifted earlier st st' ->
    inString st = false \/ prev = prev' ->
    shifted earlier (scanFrom prev rest st) (scanFrom prev' rest st').
Proof.
  induction rest as [|c rest IH]; intros prev prev' st st' H Hp; [exact H|].
  simpl. apply IH; [|right; reflexivity].
  apply scanStep_shifted; assumption.
Qed.

Lemma scanFinish_shifted (earlier : list gostring) (st st' : scanState) :
  shifted earlier st st' -> scanFinish st = earlier ++ scanFinish st'.
Proof.
  intros (Hs & Hc & _). unfold scanFinish. rewrite Hs, Hc.
  destruct (isEmpty (TrimSpace (current st'))); [reflexivity|].
  symmetry. apply app_assoc.
Qed.

(** A semicolon after a well-quoted text separates: what precedes it and
    what follows it are split independently, in this order. *)
Lemma splitStatements_semicolon (head tail : gostring) :
  WellQuoted head ->
  splitStatements (head ++ semicolon :: tail)
  = splitStatements head ++ splitStatements tail.
Proof.
  intros Hhead. unfold splitStatements at 1 3. unfold scan at 1 2.
  rewrite scanFrom_app. fold (scan head). simpl scanFrom.
  apply scanFinish_shifted. apply scanFrom_shifted; [|left].
  - assert (Hout : inString (scan head) = false)
      by (apply scanFrom_WellQuoted; [exact Hhead|reflexivity]).
    unfold shifted, scanStep, splitStatements, scanFinish. rewrite Hout. simpl.
    repeat split; try discriminate.
    destruct (isEmpty (TrimSpace (current (scan head))));
      rewrite app_nil_r; reflexivity.
  - unfold scanStep.
    fold (scan head). rewrite (scanFrom_WellQuoted head Hhead None scanInit eq_refl : inString (scan head) = false). reflexivity.
Qed.

(** Without a semicolon the loop only copies. *)
Lemma scanFrom_no_semicolon (tail : gostring) :
  ~ In semicolon tail ->
  forall prev st,
    statements (scanFrom prev tail st) = statements st
    /\ current (scanFrom prev tail st) = current st ++ tail.
Proof.
  induction tail as [|c tail IH]; intros Hno prev st.
  - simpl. rewrite app_nil_r. split; reflexivity.
  - assert (Hc : Ascii.eqb c semicolon = false).
    { apply Ascii.eqb_neq. intros ->. apply Hno. left. reflexivity. }
    assert (Hno' : ~ In semicolon tail) by (intros H; apply Hno; right; exact H).
    simpl scanFrom.
    destruct (IH Hno' (Some c) (scanStep prev c st)) as [-> ->].
    unfold scanStep. rewrite Hc.
    destruct (inString st); simpl; [|destruct (isQuote c); simpl];
      rewrite <- app_assoc; split; reflexivity.
Qed.

Lemma splitStatements_no_semicolon (tail : gostring) :
  ~ In semicolon tail ->
  isEmpty (TrimSpace tail) = false ->
  splitStatements tail = [TrimSpace tail].
Proof.
  intros Hno Hne. unfold splitStatements, scanFinish.
  destruct (scanFrom_no_semicolon tail Hno None scanInit) as [Hs Hc].
  unfold scan. rewrite Hs, Hc. simpl. rewrite Hne. reflexivity.
Qed.

(** C3.  [splitStatements] never treats a semicolon inside a quoted literal
    (single-quoted, double-quoted or backtick-quoted, a quote preceded by a
    backslash not ending the literal) as a separator.  First, the script
    [SELECT 'a;b'; SELECT 2] yields exactly [SELECT 'a;b'] and [SELECT 2].
    Second, at a semicolon inside a literal the loop emits no statement and
    copies the semicolon into the statement it is building.  Third, a
    complete literal is found byte for byte inside one returned statement. *)
Theorem splitStatements_respects_literals :
  splitStatements (str "SELECT 'a;b'; SELECT 2")
  = [str "SELECT 'a;b'"; str "SELECT 2"]
  /\ (forall (script : gostring) (i : nat),
         InLiteral script i ->
         nth_error script i = Some semicolon ->
         statements (scan (firstn (S i) script))
         = statements (scan (firstn i script))
         /\ current (scan (firstn (S i) script))
            = current (scan (firstn i script)) ++ [semicolon]
         /\ inString (scan (firstn (S i) script)) = true)
  /\ (forall (pre : gostring) (q : ascii) (body rest : gostring),
         WellQuoted pre -> isQuote q = true -> literalBody q body = true ->
         exists stmt,
           In stmt (splitStatements (pre ++ q :: body ++ q :: rest))
           /\ Infix (q :: body ++ [q]) stmt).
Proof.
  split; [vm_compute; reflexivity|]. split.
  - exact semicolon_in_literal_copied.
  - exact literal_kept_whole.
Qed.

Ltac well_quoted_plain :=
  cbv [str list_ascii_of_string];
  repeat (apply WellQuoted_plain; [reflexivity|]); apply WellQuoted_nil.

(** The semicolon at byte 9 of [SELECT 'a;b'; SELECT 2] lies in the literal
    that opens at byte 7. *)
Lemma splitStatements_respects_literals_witness :
  let script := str "SELECT 'a;b'; SELECT 2" in
  statements (scan (firstn 10 script)) = statements (scan (firstn 9 script))
  /\ current (scan (firstn 10 script))
     = current (scan (firstn 9 script)) ++ [semicolon]
  /\ inString (scan (firstn 10 script)) = true.
Proof.
  apply (proj1 (proj2 splitStatements_respects_literals)).
  - exists (str "SELECT "), squote, (str "a;b"), (str "'; SELECT 2").
    split; [reflexivity|]. split; [well_quoted_plain|].
    split; [reflexivity|]. split; [reflexivity|]. simpl. lia.
  - reflexivity.
Defined.

(** C4.  [splitStatements] returns trimmed, non-empty statements, in the
    order of the script: no element is empty or has white space at either
    end; a semicolon outside any literal splits the script into what the two
    sides yield, in that order; and a last statement without a semicolon
    after it is the last element returned. *)
Theorem splitStatements_trimmed_ordered :
  (forall script : gostring, Forall Trimmed (splitStatements script))
  /\ (forall head tail : gostring,
         WellQuoted head ->
         splitStatements (head ++ semicolon :: tail)
         = splitStatements head ++ splitStatements tail)
  /\ (forall tail : gostring,
         ~ In semicolon tail -> isEmpty (TrimSpace tail) = false ->
         splitStatements tail = [TrimSpace tail])
  /\ (forall head tail : gostring,
         WellQuoted head ->
         ~ In semicolon tail -> isEmpty (TrimSpace tail) = false ->
         splitStatements (head ++ semicolon :: tail)
         = splitStatements head ++ [TrimSpace tail]).
Proof.
  split; [exact splitStatements_Trimmed|].
  split; [exact splitStatements_semicolon|].
  split; [exact splitStatements_no_semicolon|].
  intros head tail Hhead Hno Hne.
  rewrite (splitStatements_semicolon head tail Hhead).
  rewrite (splitStatements_no_semicolon tail Hno Hne). reflexivity.
Qed.

(** [SELECT 1; SELECT 2] has no semicolon after its last statement, which is
    returned last. *)
Lemma splitStatements_trimmed_ordered_witness :
  splitStatements (str "SELECT 1" ++ semicolon :: str " SELECT 2")
  = splitStatements (str "SELECT 1") ++ [TrimSpace (str " SELECT 2")].
Proof.
  apply (proj2 (proj2 (proj2 splitStatements_trimmed_ordered))).
  - well_quoted_plain.
  - vm_compute. intros H. repeat (destruct H as [H|H]; [discriminate H|]). exact H.
  - reflexivity.
Defined.

(** ** Error classification *)

(** C2, as the code has it.  [isRetryableError] returns true exactly for the
    errors whose message, lowered, contains "driver: bad connection",
    "invalid connection", "broken pipe" or "connection reset"; it returns
    false for every other error, a nil error and one that only says
    "connection refused" included. *)
Theorem isRetryableError_classification :
  forall (U : Unicode) (err : option error),
    isRetryableError err = true
    <-> exists e : error,
        err = Some e
        /\ (Contains (ToLower (Error e)) (str "driver: bad connection") = true
            \/ Contains (ToLower (Error e)) (str "invalid connection") = true
            \/ Contains (ToLower (Error e)) (str "broken pipe") = true
            \/ Contains (ToLower (Error e)) (str "connection reset") = true).
Proof.
  intros U [e|]; unfold isRetryableError; split.
  - intros H. exists e. split; [reflexivity|].
    destruct (Contains (ToLower (Error e)) (str "driver: bad connection"));
      [left; reflexivity|].
    destruct (Contains (ToLower (Error e)) (str "invalid connection"));
      [right; left; reflexivity|].
    destruct (Contains (ToLower (Error e)) (str "broken pipe"));
      [right; right; left; reflexivity|].
    destruct (Contains (ToLower (Error e)) (str "connection reset"));
      [right; right; right; reflexivity|discriminate H].
  - intros (e' & E & H). injection E as <-.
    destruct H as [H|[H|[H|H]]]; rewrite H;
      repeat match goal with |- (if ?b then true else _) = true => destruct b end;
      reflexivity.
  - discriminate.
  - intros (e' & E & _). discriminate E.
Qed.

(** C2, as stated, fails: the message "bad connection" contains "bad
    connection" and is not classified retryable, because the code looks for
    the driver's full text "driver: bad connection". *)
Lemma bad_connection_not_retryable :
  exists e : error,
    (forall U : Unicode, Contains (ToLower (Error e)) (str "bad connection") = true)
    /\ (forall U : Unicode, isRetryableError (Some e) = false).
Proof.
  exists (errorString (str "bad connection")).
  split; intros U; vm_compute; reflexivity.
Qed.

(** The errors the specification names, classified. *)
Example connection_refused_permanent (U : Unicode) :
  isRetryableError (Some (errorString (str "dial tcp 127.0.0.1:3306: connect: connection refused")))
  = false.
Proof. vm_compute. reflexivity. Qed.

Example broken_pipe_retryable (U : Unicode) :
  isRetryableError (Some (errorString (str "write tcp: Broken Pipe"))) = true.
Proof. vm_compute. reflexivity. Qed.

(** ** The retry wrapper *)

Lemma classified_counting (U : Unicode) (St : Type)
      (op : St -> option error * St) (s : St) (n : nat) :
  classified (counting op) (s, n)
  = (if isSome (fst (op s)) && isRetryableError (fst (op s)) then fst (op s)
     else if isSome (fst (op s)) then Permanent (fst (op s)) else None,
     (snd (op s), S n)).
Proof.
  unfold classified, counting. simpl. destruct (op s) as [err s1]. simpl.
  destruct (isSome err && isRetryableError err); [reflexivity|].
  destruct (isSome err); reflexivity.
Qed.

(** Every run invokes the operation at least once, and at most once more
    than the clock has entries. *)
Lemma Retry_invocations (U : Unicode) (St : Type) (op : St -> option error * St)
      (clock : list attempt) :
  forall (s : St) (n : nat),
    S n <= snd (snd (Retry (classified (counting op)) clock (s, n)))
    /\ snd (snd (Retry (classified (counting op)) clock (s, n)))
       <= n + S (List.length clock).
Proof.
  induction clock as [|a later IH]; intros s n.
  - simpl. rewrite classified_counting.
    destruct (if isSome (fst (op s)) && isRetryableError (fst (op s))
              then fst (op s)
              else if isSome (fst (op s)) then Permanent (fst (op s)) else None)
      as [e|]; [|simpl; lia].
    destruct (AsPermanent e); simpl; lia.
  - simpl. rewrite classified_counting.
    destruct (if isSome (fst (op s)) && isRetryableError (fst (op s))
              then fst (op s)
              else if isSome (fst (op s)) then Permanent (fst (op s)) else None)
      as [e|]; [|simpl; lia].
    destruct (AsPermanent e); [simpl; lia|].
    destruct (NextBackOff a).
    + destruct (ctxErrAtNext a); [simpl; lia|].
      destruct (ctxErrAtStop a); simpl; lia.
    + destruct (ctxErrWaiting a); [simpl; lia|].
      destruct (IH (snd (op s)) (S n)) as [H1 H2]. split; lia.
Qed.

(** A retryable error that does not carry the permanent marker reaches the
    backoff policy: what the loop does next is read off the attempt. *)
Lemma withRetry_retryable_step (U : Unicode) (St : Type) (a : attempt)
      (later : list attempt) (op : St -> option error * St) (s s1 : St)
      (e : error) (n : nat) :
  op s = (Some e, s1) ->
  isRetryableError (Some e) = true ->
  AsPermanent e = None ->
  withRetry (a :: later) (counting op) (s, n)
  = match NextBackOff a with
    | Stop =>
        match ctxErrAtNext a with
        | Some cerr => (Some cerr, (s1, S n))
        | None =>
            match ctxErrAtStop a with
            | Some cerr => (Some cerr, (s1, S n))
            | None => (Some e, (s1, S n))
            end
        end
    | Next _ =>
        match ctxErrWaiting a with
        | Some cerr => (Some cerr, (s1, S n))
        | None => withRetry later (counting op) (s1, S n)
        end
    end.
Proof.
  intros Hop Hretry Hplain. unfold withRetry. cbn [Retry].
  rewrite classified_counting, Hop. cbn [fst snd isSome andb].
  rewrite Hretry, Hplain. reflexivity.
Qed.

(** An interval is granted only within the ceiling. *)
Lemma NextBackOff_Next (a : attempt) (d : N) :
  NextBackOff a = Next d ->
  (elapsed a + interval a <= serverRetryMaxElapsed)%N.
Proof.
  unfold NextBackOff. destruct (ctxErrAtNext a); [discriminate|].
  destruct (serverRetryMaxElapsed <? elapsed a + interval a)%N eqn:E.
  - cbn. discriminate.
  - intros _. apply N.ltb_ge. exact E.
Qed.

(** One more interval of at least [lo] fits before the ceiling only if the
    time left allows it. *)
Lemma one_more_interval (lo since el iv : N) :
  (0 < lo)%N -> (since <= el)%N -> (lo <= iv)%N ->
  (el + iv <= serverRetryMaxElapsed)%N ->
  S (N.to_nat ((serverRetryMaxElapsed - (el + iv)) / lo))
  <= N.to_nat ((serverRetryMaxElapsed - since) / lo).
Proof.
  intros Hlo Hsince Hiv Hceil.
  set (q := ((serverRetryMaxElapsed - (el + iv)) / lo)%N).
  assert (Hq : (lo * q <= serverRetryMaxElapsed - (el + iv))%N)
    by (apply N.Div0.mul_div_le).
  assert (Hb : (q + 1 <= (serverRetryMaxElapsed - since) / lo)%N).
  { apply N.div_le_lower_bound; [lia|]. rewrite N.mul_add_distr_l, N.mul_1_r.
    revert Hq. generalize (lo * q)%N. intros p Hq. lia. }
  revert Hb. generalize ((serverRetryMaxElapsed - since) / lo)%N.
  intros k Hb. lia.
Qed.

(** On a clock that runs forward, with intervals of at least [lo], the loop
    invokes the operation at most once more than intervals of [lo] fit in
    what is left of the ceiling, however long the clock is. *)
Lemma Retry_ceiling (U : Unicode) (St : Type) (op : St -> option error * St)
      (lo : N) (clock : list attempt) :
  (0 < lo)%N ->
  forall (since : N) (s : St) (n : nat),
    runsForward since clock = true ->
    intervalsAtLeast lo clock = true ->
    snd (snd (Retry (classified (counting op)) clock (s, n)))
    <= n + S (N.to_nat ((serverRetryMaxElapsed - since) / lo)).
Proof.
  intros Hlo. induction clock as [|a later IH]; intros since s n Hrun Hiv.
  - destruct (Retry_invocations U St op [] s n) as [_ H].
    cbn [List.length] in H.
    generalize (N.to_nat ((serverRetryMaxElapsed - since) / lo)). intros k. lia.
  - cbn [runsForward intervalsAtLeast forallb] in Hrun, Hiv.
    apply andb_true_iff in Hrun. destruct Hrun as [Hsince Hrun].
    apply andb_true_iff in Hiv. destruct Hiv as [Ha Hiv].
    apply N.leb_le in Hsince, Ha.
    cbn [Retry]. rewrite classified_counting.
    destruct (NextBackOff a) as [|d] eqn:En.
    + generalize (N.to_nat ((serverRetryMaxElapsed - since) / lo)). intros k.
      destruct (if isSome (fst (op s)) && isRetryableError (fst (op s))
                then fst (op s)
                else if isSome (fst (op s)) then Permanent (fst (op s)) else None)
        as [e|]; [|simpl; lia].
      destruct (AsPermanent e); [simpl; lia|].
      destruct (ctxErrAtNext a); [simpl; lia|].
      destruct (ctxErrAtStop a); simpl; lia.
    + pose proof (NextBackOff_Next a d En) as Hceil.
      pose proof (IH (elapsed a + interval a)%N (snd (op s)) (S n) Hrun Hiv) as H.
      pose proof (one_more_interval lo since (elapsed a) (interval a)
                    Hlo Hsince Ha Hceil) as Hone.
      revert H Hone.
      generalize (N.to_nat ((serverRetryMaxElapsed - since) / lo)).
      generalize (N.to_nat ((serverRetryMaxElapsed - (elapsed a + interval a)) / lo)).
      intros k' k H Hone.
      destruct (if isSome (fst (op s)) && isRetryableError (fst (op s))
                then fst (op s)
                else if isSome (fst (op s)) then Permanent (fst (op s)) else None)
        as [e|]; [|simpl; lia].
      destruct (AsPermanent e); [simpl; lia|].
      destruct (ctxErrWaiting a); [simpl; lia|]. lia.
Qed.

(** C5, as the code has it.  An operation whose error is classified
    permanent is invoked exactly once and its error is returned.  An
    operation whose error is classified retryable is invoked again when the
    backoff grants an interval: the context is not done when the attempt
    fails nor during the wait, and the elapsed time plus the interval stays
    within the ceiling of 30 seconds.  Otherwise there is no retry: a context
    done when the attempt fails or during the wait gives the context's
    error, and a passed ceiling gives the context's error if it is done by
    then and the operation's last error if not.  The ceiling bounds the
    invocations: on a clock that runs forward, with intervals of at least
    [lo] milliseconds, the operation is invoked at most once more than
    intervals of [lo] fit in 30 seconds, however many attempts the clock
    would answer. *)
Theorem withRetry_permanent_once_retryable_again :
  (forall (U : Unicode) (St : Type) (clock : list attempt)
          (op : St -> option error * St) (s s1 : St) (e : error) (n : nat),
      op s = (Some e, s1) ->
      isRetryableError (Some e) = false ->
      withRetry clock (counting op) (s, n) = (Some e, (s1, S n)))
  /\ (forall (U : Unicode) (St : Type) (a : attempt) (later : list attempt)
             (op : St -> option error * St) (s s1 : St) (e : error) (n : nat),
         op s = (Some e, s1) ->
         isRetryableError (Some e) = true ->
         AsPermanent e = None ->
         ctxErrAtNext a = None ->
         (elapsed a + interval a <= serverRetryMaxElapsed)%N ->
         ctxErrWaiting a = None ->
         withRetry (a :: later) (counting op) (s, n)
         = withRetry later (counting op) (s1, S n)
         /\ S (S n) <= snd (snd (withRetry (a :: later) (counting op) (s, n))))
  /\ (forall (U : Unicode) (St : Type) (a : attempt) (later : list attempt)
             (op : St -> option error * St) (s s1 : St) (e : error) (n : nat),
         op s = (Some e, s1) ->
         isRetryableError (Some e) = true ->
         AsPermanent e = None ->
         (forall cerr,
             ctxErrAtNext a = Some cerr ->
             withRetry (a :: later) (counting op) (s, n)
             = (Some cerr, (s1, S n)))
         /\ (ctxErrAtNext a = None ->
             (serverRetryMaxElapsed < elapsed a + interval a)%N ->
             withRetry (a :: later) (counting op) (s, n)
             = (Some (match ctxErrAtStop a with
                      | Some cerr => cerr
                      | None => e
                      end), (s1, S n)))
         /\ (forall cerr,
                ctxErrAtNext a = None ->
                (elapsed a + interval a <= serverRetryMaxElapsed)%N ->
                ctxErrWaiting a = Some cerr ->
                withRetry (a :: later) (counting op) (s, n)
                = (Some cerr, (s1, S n))))
  /\ (forall (U : Unicode) (St : Type) (lo : N) (clock : list attempt)
             (op : St -> option error * St) (s : St),
         (0 < lo)%N ->
         runsForward 0 clock = true ->
         intervalsAtLeast lo clock = true ->
         snd (snd (withRetry clock (counting op) (s, 0)))
         <= S (N.to_nat (serverRetryMaxElapsed / lo))).
Proof.
  split; [|split; [|split]].
  - intros U St clock op s s1 e n Hop Hperm. unfold withRetry.
    destruct clock as [|a later]; simpl; rewrite classified_counting, Hop;
      cbn [fst snd isSome andb]; rewrite Hperm; reflexivity.
  - intros U St a later op s s1 e n Hop Hretry Hplain Hctx Hceil Hwait.
    assert (E : withRetry (a :: later) (counting op) (s, n)
                = withRetry later (counting op) (s1, S n)).
    { rewrite (withRetry_retryable_step U St a later op s s1 e n Hop Hretry Hplain).
      unfold NextBackOff. rewrite Hctx.
      replace (serverRetryMaxElapsed <? elapsed a + interval a)%N with false
        by (symmetry; apply N.ltb_ge; exact Hceil).
      rewrite andb_false_r, Hwait. reflexivity. }
    split; [exact E|]. rewrite E. unfold withRetry.
    destruct (Retry_invocations U St op later s1 (S n)) as [H _]. exact H.
  - intros U St a later op s s1 e n Hop Hretry Hplain.
    rewrite (withRetry_retryable_step U St a later op s s1 e n Hop Hretry Hplain).
    unfold NextBackOff. split; [|split].
    + intros cerr Hc. rewrite Hc. reflexivity.
    + intros Hn Hceil. rewrite Hn.
      replace (serverRetryMaxElapsed <? elapsed a + interval a)%N with true
        by (symmetry; apply N.ltb_lt; exact Hceil).
      cbn [negb andb N.eqb serverRetryMaxElapsed].
      destruct (ctxErrAtStop a); reflexivity.
    + intros cerr Hn Hceil Hw. rewrite Hn.
      replace (serverRetryMaxElapsed <? elapsed a + interval a)%N with false
        by (symmetry; apply N.ltb_ge; exact Hceil).
      rewrite andb_false_r, Hw. reflexivity.
  - intros U St lo clock op s Hlo Hrun Hiv. unfold withRetry.
    pose proof (Retry_ceiling U St op lo clock Hlo 0%N s 0 Hrun Hiv) as H.
    rewrite N.sub_0_r in H. exact H.
Qed.

(** A refused connection is returned after one invocation; a broken pipe is
    tried again when the clock grants an interval, and is not when the
    context is cancelled during the wait; on a clock that runs forward with
    intervals of at least a quarter of a second, a broken pipe is tried at
    most 121 times. *)
Lemma withRetry_permanent_once_retryable_again_witness :
  @withRetry plainText (unit * nat) [grantedAttempt] (counting refusedOp) (tt, 0)
  = (Some (errorString (str "dial tcp 127.0.0.1:3306: connect: connection refused")),
     (tt, 1))
  /\ 2 <= snd (snd (@withRetry plainText (unit * nat) [grantedAttempt]
                                (counting brokenPipeOp) (tt, 0)))
  /\ @withRetry plainText (unit * nat) [interruptedAttempt]
                (counting brokenPipeOp) (tt, 0)
     = (Some Canceled, (tt, 1))
  /\ snd (snd (@withRetry plainText (unit * nat) forwardClock
                          (counting brokenPipeOp) (tt, 0)))
     <= S (N.to_nat (serverRetryMaxElapsed / 250)).
Proof.
  split; [|split; [|split]].
  - apply (proj1 withRetry_permanent_once_retryable_again plainText unit
                 [grantedAttempt] refusedOp tt tt); reflexivity.
  - apply (proj1 (proj2 withRetry_permanent_once_retryable_again) plainText unit
                 grantedAttempt [] brokenPipeOp tt tt
                 (errorString (str "write tcp 127.0.0.1:3306: write: broken pipe")));
      try reflexivity.
    vm_compute. discriminate.
  - apply (proj2 (proj2 (proj1 (proj2 (proj2 withRetry_permanent_once_retryable_again))
                   plainText unit interruptedAttempt [] brokenPipeOp tt tt
                   (errorString (str "write tcp 127.0.0.1:3306: write: broken pipe"))
                   0 eq_refl eq_refl eq_refl))); try reflexivity.
    vm_compute. discriminate.
  - apply (proj2 (proj2 (proj2 withRetry_permanent_once_retryable_again))
                 plainText unit 250%N forwardClock brokenPipeOp tt);
      reflexivity.
Defined.

(** C5, as stated, fails: an operation that fails with a broken pipe, a
    retryable error, is not retried when the caller's context is already
    cancelled; it is invoked once and the context's error is returned. *)
Lemma broken_pipe_not_retried_when_cancelled :
  (forall U : Unicode, isRetryableError (fst (brokenPipeOp tt)) = true)
  /\ (forall U : Unicode,
         withRetry [cancelledAttempt] (counting brokenPipeOp) (tt, 0)
         = (Some Canceled, (tt, 1))).
Proof. split; intros U; vm_compute; reflexivity. Qed.

(** ** Closing a store *)

(** What [Close] returns, read off the pool's answer. *)
Lemma Close_result (s : MariaDBStore) (w : World) (tr : list call) :
  Close s w tr
  = match db s with
    | None =>
        ({| db := None; dbName := dbName s; closed := true;
            connStr := connStr s; readOnly := readOnly s |}, None, tr)
    | Some d =>
        ({| db := None; dbName := dbName s; closed := true;
            connStr := connStr s; readOnly := readOnly s |},
         match answer w tr (CallClose d) with
         | None => None
         | Some ce => if IsCanceled ce then None else Some (joinError [ce])
         end,
         tr ++ [CallClose d])
    end.
Proof.
  unfold Close, bind, perform, ret. simpl. destruct (db s) as [d|]; [|reflexivity].
  destruct (answer w tr (CallClose d)) as [ce|]; [|reflexivity].
  destruct (IsCanceled ce); reflexivity.
Qed.

(** After [Close] the pool reference is nil, and [UnderlyingConn]
    dereferences it: the runtime panics before any call is made. *)
Lemma UnderlyingConn_after_Close_panics :
  forall (s : MariaDBStore) (w : World) (tr : list call),
    let s' := fst (fst (Close s w tr)) in
    forall (w2 : World) (tr2 : list call),
      UnderlyingConn s' w2 tr2
      = (Panicked (str "invalid memory address or nil pointer dereference"), tr2).
Proof.
  intros s w tr. rewrite Close_result.
  destruct (db s); simpl; intros w2 tr2; reflexivity.
Qed.

(** C1, as the code has it.  On a store on which [Close] has been called,
    [IsClosed] reports true and the pool reference is cleared, so
    [UnderlyingDB] returns nil; [Path] still names the database; and the
    store never reconnects: whatever is called on it afterwards, [Close] or
    [UnderlyingConn], no call reaches the server. *)
Theorem Close_clears_pool_no_reconnect :
  forall (s : MariaDBStore) (w : World) (tr : list call),
    let s' := fst (fst (Close s w tr)) in
    IsClosed s' = true
    /\ UnderlyingDB s' = None
    /\ Path s' = Path s
    /\ (forall (w2 : World) (tr2 : list call),
           snd (Close s' w2 tr2) = tr2
           /\ snd (UnderlyingConn s' w2 tr2) = tr2).
Proof.
  intros s w tr. rewrite Close_result.
  destruct (db s); cbn [fst snd];
    (split; [reflexivity|]; split; [reflexivity|]; split; [reflexivity|];
     intros w2 tr2; rewrite Close_result; split; reflexivity).
Qed.

(** C1, as stated, fails: on a closed store [UnderlyingDB] returns nil and
    no error, and [UnderlyingConn] returns no error either. *)
Lemma closed_store_returns_no_closed_error :
  let s' := fst (fst (Close openStore quietWorld [])) in
  UnderlyingDB s' = None
  /\ fst (UnderlyingConn s' quietWorld [CallClose PoolDB])
     = Panicked (str "invalid memory address or nil pointer dereference")
  /\ (forall err : option error,
         fst (UnderlyingConn s' quietWorld [CallClose PoolDB]) <> Returned err).
Proof.
  split; [reflexivity|]. split; [reflexivity|].
  intros err H. discriminate H.
Qed.

(** C7.  A second [Close] returns no error, makes no call and leaves the
    store as the first one left it. *)
Theorem Close_twice :
  forall (s : MariaDBStore) (w : World) (tr : list call),
    let s' := fst (fst (Close s w tr)) in
    let tr' := snd (Close s w tr) in
    Close s' w tr' = (s', None, tr').
Proof.
  intros s w tr. rewrite (Close_result s).
  destruct (db s); simpl; rewrite Close_result; reflexivity.
Qed.

(** C10.  [Close] always sets the closed flag and clears the pool reference.
    It returns nil when there is no pool, when the pool closes without
    error, and when the pool's error is [context.Canceled]; any other error
    of the pool is returned, joined. *)
Theorem Close_discards_Canceled :
  forall (s : MariaDBStore) (w : World) (tr : list call),
    let s' := fst (fst (Close s w tr)) in
    let err := snd (fst (Close s w tr)) in
    IsClosed s' = true
    /\ UnderlyingDB s' = None
    /\ err = match db s with
             | None => None
             | Some d =>
                 match answer w tr (CallClose d) with
                 | None => None
                 | Some ce =>
                     if IsCanceled ce then None else Join [None; Some ce]
                 end
             end
    /\ (forall d : sqlDB,
           db s = Some d -> answer w tr (CallClose d) = Some Canceled ->
           err = None)
    /\ (forall (d : sqlDB) (ce : error),
           db s = Some d -> answer w tr (CallClose d) = Some ce ->
           IsCanceled ce = false ->
           err = Some (joinError [ce]) /\ Error (joinError [ce]) = Error ce).
Proof.
  intros s w tr. rewrite Close_result.
  destruct (db s) as [d|]; simpl.
  - split; [reflexivity|]. split; [reflexivity|]. split; [reflexivity|]. split.
    + intros d0 E0 H0. injection E0 as <-. rewrite H0. reflexivity.
    + intros d0 ce0 E0 H0 Hc0. injection E0 as <-. rewrite H0, Hc0.
      split; reflexivity.
  - split; [reflexivity|]. split; [reflexivity|]. split; [reflexivity|].
    split; intros; discriminate.
Qed.

(** A pool that fails to close with [context.Canceled]: [Close] returns
    nil. *)
Lemma Close_discards_Canceled_witness :
  snd (fst (Close openStore cancelledCloseWorld [])) = None.
Proof.
  exact (proj1 (proj2 (proj2 (proj2
           (Close_discards_Canceled openStore cancelledCloseWorld []))))
           PoolDB eq_refl eq_refl).
Defined.

(** ** Opening a store *)

Lemma defaulted_withReadOnly (g : gostring -> gostring) (cfg : Config) (b : bool) :
  defaulted g (withReadOnly cfg b) = withReadOnly (defaulted g cfg) b.
Proof. reflexivity. Qed.

Lemma openServerConnection_withReadOnly (U : Unicode) (cfg : Config) (b : bool) :
  openServerConnection (withReadOnly cfg b) = openServerConnection cfg.
Proof. reflexivity. Qed.

(** [New], read as one case analysis on the server's answers: the defaults
    are applied first, then the connection is opened and pinged, then the
    schema is evolved unless the store is read-only. *)
Lemma New_shape (U : Unicode) (SS : SchemaScripts) (cfg : Config)
      (w : World) (tr : list call) :
  New cfg w tr
  = let cfg' := defaulted (Getenv w) cfg in
    match openServerConnection cfg' w tr with
    | (Err e, tr1) => ((cfg', Err e), tr1)
    | (Ok (d, connStr), tr1) =>
        match answer w tr1 (CallPing d) with
        | Some e =>
            ((cfg', Err (Errorf "failed to ping MariaDB database: " e [])),
             (tr1 ++ [CallPing d]) ++ [CallClose d])
        | None =>
            let store := {| db := Some d; dbName := Database cfg';
                            closed := false; connStr := connStr;
                            readOnly := ReadOnly cfg' |} in
            if negb (ReadOnly cfg') then
              match initSchemaOnDB d w (tr1 ++ [CallPing d]) with
              | (Some e, tr2) =>
                  ((cfg', Err (Errorf "failed to initialize schema: " e [])), tr2)
              | (None, tr2) => ((cfg', Ok store), tr2)
              end
            else ((cfg', Ok store), tr1 ++ [CallPing d])
        end
    end.
Proof.
  destruct cfg as [host port user password database ro].
  unfold New, defaulted, bind, osGetenv, ret, perform.
  cbn [Host Port User Password Database ReadOnly].
  destruct (isEmpty database); cbn [Host Port User Password Database ReadOnly];
    destruct (isEmpty host); cbn [Host Port User Password Database ReadOnly];
    destruct (port =? 0)%Z; cbn [Host Port User Password Database ReadOnly];
    destruct (isEmpty user); cbn [Host Port User Password Database ReadOnly];
    destruct (isEmpty password); cbn [Host Port User Password Database ReadOnly];
    match goal with
    | |- context [openServerConnection ?c w tr] =>
        destruct (openServerConnection c w tr) as [[[d cs]|e] tr1]
    end;
    try reflexivity;
    destruct (answer w tr1 (CallPing d)); try reflexivity;
    destruct ro; cbn [negb]; try reflexivity;
    match goal with
    | |- context [initSchemaOnDB ?d w ?t] =>
        destruct (initSchemaOnDB d w t) as [[e|] tr2]
    end; reflexivity.
Qed.

(** C9.  [New] writes the defaults into the caller's [Config]: an empty
    database, host, port or user becomes "beads", "127.0.0.1", 3306 or
    "root", an empty password becomes the value of BEADS_MARIADB_PASSWORD;
    the other fields are kept.  This holds whatever [New] returns, an error
    included. *)
Theorem New_writes_defaults :
  forall (U : Unicode) (SS : SchemaScripts) (cfg : Config)
         (w : World) (tr : list call),
    let cfg' := fst (fst (New cfg w tr)) in
    Database cfg' = (if isEmpty (Database cfg) then str "beads" else Database cfg)
    /\ Host cfg' = (if isEmpty (Host cfg) then str "127.0.0.1" else Host cfg)
    /\ Port cfg' = (if (Port cfg =? 0)%Z then 3306%Z else Port cfg)
    /\ User cfg' = (if isEmpty (User cfg) then str "root" else User cfg)
    /\ Password cfg'
       = (if isEmpty (Password cfg)
          then Getenv w (str "BEADS_MARIADB_PASSWORD") else Password cfg)
    /\ ReadOnly cfg' = ReadOnly cfg.
Proof.
  intros U SS cfg w tr.
  assert (E : fst (fst (New cfg w tr)) = defaulted (Getenv w) cfg).
  { rewrite New_shape. cbv zeta.
    destruct (openServerConnection (defaulted (Getenv w) cfg) w tr)
      as [[[d cs]|e] tr1]; [|reflexivity].
    destruct (answer w tr1 (CallPing d)); [reflexivity|].
    destruct (negb (ReadOnly (defaulted (Getenv w) cfg))); [|reflexivity].
    destruct (initSchemaOnDB d w (tr1 ++ [CallPing d])) as [[e|] tr2]; reflexivity. }
  cbv zeta. rewrite E. repeat split; reflexivity.
Qed.

(** *** The calls a computation makes *)

Lemma emits_ret {A : Type} (P : call -> bool) (a : A) : emits P (ret a).
Proof. intros w tr. exists []. simpl. rewrite app_nil_r. split; reflexivity. Qed.

Lemma emits_bind {A B : Type} (P : call -> bool) (m : M A) (k : A -> M B) :
  emits P m -> (forall a, emits P (k a)) -> emits P (bind m k).
Proof.
  intros Hm Hk w tr. unfold bind.
  destruct (Hm w tr) as (cs1 & E1 & P1).
  destruct (m w tr) as [a tr1]. simpl in E1. subst tr1.
  destruct (Hk a w (tr ++ cs1)) as (cs2 & E2 & P2).
  exists (cs1 ++ cs2). rewrite E2, app_assoc, forallb_app, P1, P2.
  split; reflexivity.
Qed.

Lemma emits_perform (P : call -> bool) (c : call) :
  P c = true -> emits P (perform c).
Proof. intros H w tr. exists [c]. simpl. rewrite H. split; reflexivity. Qed.

Lemma emits_queryCount (P : call -> bool) (d : sqlDB) (query : gostring) :
  P (CallQueryRow d query) = true -> emits P (queryCount d query).
Proof. intros H w tr. exists [CallQueryRow d query]. simpl. rewrite H. split; reflexivity. Qed.

Lemma emits_osGetenv (P : call -> bool) (name : gostring) : emits P (osGetenv name).
Proof. intros w tr. exists []. simpl. rewrite app_nil_r. split; reflexivity. Qed.

Ltac emits_step :=
  first
    [ apply emits_ret
    | apply emits_perform; reflexivity
    | apply emits_queryCount; reflexivity
    | apply emits_osGetenv
    | apply emits_bind; [|intros ?]
    | match goal with
      | |- emits _ (match ?x with _ => _ end) => destruct x
      | |- emits _ (if ?b then _ else _) => destruct b
      end ].

Ltac emits_all := repeat emits_step.

Lemma openServerConnection_emits (U : Unicode) (cfg : Config) :
  emits notSchemaCall (openServerConnection cfg).
Proof. unfold openServerConnection. emits_all. Qed.

Lemma yields_ret {A : Type} (Q : A -> Prop) (a : A) : Q a -> yields Q (ret a).
Proof. intros H w tr. exact H. Qed.

Lemma yields_bind {A B : Type} (Q : B -> Prop) (m : M A) (k : A -> M B) :
  (forall a, yields Q (k a)) -> yields Q (bind m k).
Proof.
  intros Hk w tr. unfold bind. destruct (m w tr) as [a tr1]. apply Hk.
Qed.

Ltac yields_step :=
  first
    [ apply yields_ret
    | apply yields_bind; intros ?
    | match goal with
      | |- yields _ (match ?x with _ => _ end) => destruct x
      | |- yields _ (if ?b then _ else _) => destruct b
      end ].

Lemma yields_bind_with {A B : Type} (R : A -> Prop) (Q : B -> Prop)
      (m : M A) (k : A -> M B) :
  yields R m -> (forall a, R a -> yields Q (k a)) -> yields Q (bind m k).
Proof.
  intros Hm Hk w tr. unfold bind. pose proof (Hm w tr) as Ha.
  destruct (m w tr) as [a tr1]. apply Hk. exact Ha.
Qed.

(** The pool [openServerConnection] returns is the one it opened first. *)
Lemma openServerConnection_pool (U : Unicode) (cfg : Config) :
  yields (fun r => forall d c, r = Ok (d, c) -> d = PoolDB)
         (openServerConnection cfg).
Proof.
  unfold openServerConnection.
  apply yields_bind; intros [e|]; [apply yields_ret; discriminate|].
  apply yields_bind; intros [e|].
  { apply yields_bind; intros _. apply yields_ret. discriminate. }
  apply yields_bind; intros err.
  apply yields_bind_with
    with (R := fun r : result (sqlDB * gostring) =>
                 forall d c, r = Ok (d, c) -> d = PoolDB).
  - repeat yields_step;
      intros d0 c0 E; try discriminate E; injection E as <- _; reflexivity.
  - intros r Hr. apply yields_bind; intros _. apply yields_ret. exact Hr.
Qed.

Lemma execSchema_emits (stmts : list gostring) :
  emits isSchemaCall (execSchema PoolDB stmts).
Proof.
  induction stmts as [|stmt rest IH]; simpl; [apply emits_ret|].
  destruct (isEmpty (TrimSpace stmt)); [exact IH|].
  destruct (isOnlyComments (TrimSpace stmt)); [exact IH|].
  emits_all. exact IH.
Qed.

Lemma execDefaultConfig_emits (stmts : list gostring) :
  emits isSchemaCall (execDefaultConfig PoolDB stmts).
Proof.
  induction stmts as [|stmt rest IH]; simpl; [apply emits_ret|].
  destruct (isEmpty (TrimSpace stmt)); [exact IH|].
  destruct (isOnlyComments (TrimSpace stmt)); [exact IH|].
  emits_all. exact IH.
Qed.

Lemma execIndexMigrations_emits (U : Unicode) (migrations : list gostring) :
  emits isSchemaCall (execIndexMigrations PoolDB migrations).
Proof.
  induction migrations as [|m rest IH]; simpl; [apply emits_ret|].
  apply emits_bind; [apply emits_perform; reflexivity|].
  intros [e|]; [|exact IH].
  match goal with |- emits _ (if ?b then _ else _) => destruct b end;
    [apply emits_ret|exact IH].
Qed.

Lemma RunMigrations_emits (U : Unicode) :
  emits isSchemaCall (RunMigrations PoolDB).
Proof.
  unfold RunMigrations, migrationsList, runMigrationList, Func,
    migrateWispTypeColumn, migrateSpecIDColumn.
  emits_all.
Qed.

Lemma initSchemaOnDB_emits (U : Unicode) (SS : SchemaScripts) :
  emits isSchemaCall (initSchemaOnDB PoolDB).
Proof.
  unfold initSchemaOnDB.
  apply emits_bind; [apply execSchema_emits|]. intros [e|]; [apply emits_ret|].
  apply emits_bind; [apply execDefaultConfig_emits|]. intros [e|]; [apply emits_ret|].
  apply emits_bind; [apply execIndexMigrations_emits|]. intros [e|]; [apply emits_ret|].
  apply emits_bind; [apply emits_perform; reflexivity|]. intros err.
  match goal with |- emits _ (match ?x with _ => _ end) => destruct x end;
    [apply emits_ret|].
  apply emits_bind; [apply emits_perform; reflexivity|]. intros [e|]; [apply emits_ret|].
  apply emits_bind; [apply emits_perform; reflexivity|]. intros [e|]; [apply emits_ret|].
  apply emits_bind; [apply RunMigrations_emits|]. intros [e|]; apply emits_ret.
Qed.

(** C8.  With the read-only flag set, [New] makes no call of schema
    evolution: no statement and no catalog query reaches the pool.  The calls
    it makes are those the same configuration makes without the flag before
    it starts evolving the schema (connection, database creation, ping), and
    apart from the flag the two runs agree on the configuration written back
    and on the store returned; an error of the read-only run is the error of
    the other run. *)
Theorem New_read_only_skips_schema :
  forall (U : Unicode) (SS : SchemaScripts) (cfg : Config) (w : World),
    ReadOnly cfg = true ->
    forallb notSchemaCall (trace (New cfg) w) = true
    /\ (exists evolution : list call,
           trace (New (withReadOnly cfg false)) w
           = trace (New cfg) w ++ evolution
           /\ forallb isSchemaCall evolution = true)
    /\ fst (value (New cfg) w)
       = withReadOnly (fst (value (New (withReadOnly cfg false)) w)) true
    /\ (forall e : error,
           snd (value (New cfg) w) = Err e ->
           snd (value (New (withReadOnly cfg false)) w) = Err e)
    /\ (forall store : MariaDBStore,
           snd (value (New (withReadOnly cfg false)) w) = Ok store ->
           snd (value (New cfg) w)
           = Ok {| db := db store; dbName := dbName store;
                   closed := closed store; connStr := connStr store;
                   readOnly := true |}).
Proof.
  intros U SS cfg w Hro. unfold trace, value.
  rewrite !New_shape. cbv zeta.
  rewrite defaulted_withReadOnly, openServerConnection_withReadOnly.
  assert (Hro' : ReadOnly (defaulted (Getenv w) cfg) = true) by exact Hro.
  assert (Hcfg : defaulted (Getenv w) cfg
                 = withReadOnly (withReadOnly (defaulted (Getenv w) cfg) false) true).
  { unfold withReadOnly, defaulted.
    cbn [Host Port User Password Database ReadOnly]. rewrite Hro. reflexivity. }
  set (cfg' := defaulted (Getenv w) cfg) in *.
  destruct (openServerConnection_emits U cfg' w []) as (cs & Ecs & Pcs).
  pose proof (openServerConnection_pool U cfg' w []) as Hpool.
  destruct (openServerConnection cfg' w []) as [[[d c]|e] tr1];
    simpl in Ecs, Hpool; subst tr1.
  - rewrite (Hpool d c eq_refl).
    destruct (answer w cs (CallPing PoolDB)) as [e|].
    + cbn [fst snd]. split.
      { rewrite !forallb_app, Pcs. reflexivity. }
      split; [exists []; rewrite app_nil_r; split; reflexivity|].
      split; [exact Hcfg|].
      split; [intros e' E; exact E|intros store E; discriminate E].
    + rewrite Hro'. cbn [negb ReadOnly withReadOnly].
      destruct (initSchemaOnDB_emits U SS w (cs ++ [CallPing PoolDB]))
        as (ev & Eev & Pev).
      destruct (initSchemaOnDB PoolDB w (cs ++ [CallPing PoolDB])) as [[e|] tr2];
        simpl in Eev; subst tr2; cbn [fst snd].
      * split; [rewrite forallb_app, Pcs; reflexivity|].
        split; [exists ev; split; [reflexivity|exact Pev]|].
        split; [exact Hcfg|].
        split; [intros e' E; discriminate E|intros store E; discriminate E].
      * split; [rewrite forallb_app, Pcs; reflexivity|].
        split; [exists ev; split; [reflexivity|exact Pev]|].
        split; [exact Hcfg|].
        split; [intros e' E; discriminate E|].
        intros store E. injection E as <-. reflexivity.
  - cbn [fst snd]. split; [exact Pcs|].
    split; [exists []; rewrite app_nil_r; split; reflexivity|].
    split; [exact Hcfg|].
    split; [intros e' E; exact E|intros store E; discriminate E].
Qed.

(** The connection of a read-only store on a quiet server: no statement
    reaches the pool. *)
Lemma New_read_only_skips_schema_witness :
  forallb notSchemaCall (trace (@New plainText sampleScripts readOnlyConfig) quietWorld)
  = true.
Proof.
  exact (proj1 (New_read_only_skips_schema plainText sampleScripts
                  readOnlyConfig quietWorld eq_refl)).
Defined.

(** ** The script loops *)

Lemma execSchema_calls (d : sqlDB) (stmts : list gostring) :
  forall (w : World) (tr : list call),
    exists n : nat,
      snd (execSchema d stmts w tr)
      = tr ++ firstn n (map (CallExec d) (submitted (nonEmpty (map TrimSpace stmts))))
      /\ (fst (execSchema d stmts w tr) = None ->
          snd (execSchema d stmts w tr)
          = tr ++ map (CallExec d) (submitted (nonEmpty (map TrimSpace stmts)))).
Proof.
  induction stmts as [|stmt rest IH]; intros w tr.
  - exists 0. simpl. rewrite app_nil_r. split; reflexivity.
  - cbn [execSchema map]. unfold nonEmpty, submitted. cbn [filter].
    fold (nonEmpty (map TrimSpace rest)).
    destruct (isEmpty (TrimSpace stmt)) eqn:Ee; cbn [negb].
    { fold (submitted (nonEmpty (map TrimSpace rest))). apply IH. }
    cbn [filter].
    destruct (isOnlyComments (TrimSpace stmt)) eqn:Ec; cbn [negb].
    { fold (submitted (nonEmpty (map TrimSpace rest))). apply IH. }
    fold (submitted (nonEmpty (map TrimSpace rest))).
    unfold bind, perform.
    destruct (answer w tr (CallExec d (TrimSpace stmt))) as [e|].
    + exists 1. simpl. split; [reflexivity|discriminate].
    + destruct (IH w (tr ++ [CallExec d (TrimSpace stmt)])) as (n & Hn & Hall).
      exists (S n). cbn [map firstn]. split.
      * rewrite Hn, <- app_assoc. reflexivity.
      * intros Hnone. rewrite (Hall Hnone), <- app_assoc. reflexivity.
Qed.

Lemma execDefaultConfig_calls (d : sqlDB) (stmts : list gostring) :
  forall (w : World) (tr : list call),
    exists n : nat,
      snd (execDefaultConfig d stmts w tr)
      = tr ++ firstn n (map (CallExec d) (submitted (nonEmpty (map TrimSpace stmts))))
      /\ (fst (execDefaultConfig d stmts w tr) = None ->
          snd (execDefaultConfig d stmts w tr)
          = tr ++ map (CallExec d) (submitted (nonEmpty (map TrimSpace stmts)))).
Proof.
  induction stmts as [|stmt rest IH]; intros w tr.
  - exists 0. simpl. rewrite app_nil_r. split; reflexivity.
  - cbn [execDefaultConfig map]. unfold nonEmpty, submitted. cbn [filter].
    fold (nonEmpty (map TrimSpace rest)).
    destruct (isEmpty (TrimSpace stmt)) eqn:Ee; cbn [negb].
    { fold (submitted (nonEmpty (map TrimSpace rest))). apply IH. }
    cbn [filter].
    destruct (isOnlyComments (TrimSpace stmt)) eqn:Ec; cbn [negb].
    { fold (submitted (nonEmpty (map TrimSpace rest))). apply IH. }
    fold (submitted (nonEmpty (map TrimSpace rest))).
    unfold bind, perform.
    destruct (answer w tr (CallExec d (TrimSpace stmt))) as [e|].
    + exists 1. simpl. split; [reflexivity|discriminate].
    + destruct (IH w (tr ++ [CallExec d (TrimSpace stmt)])) as (n & Hn & Hall).
      exists (S n). cbn [map firstn]. split.
      * rewrite Hn, <- app_assoc. reflexivity.
      * intros Hnone. rewrite (Hall Hnone), <- app_assoc. reflexivity.
Qed.

(** How a script loop ends.  With nil, when the server accepted every
    statement to submit.  With an error, when it refused one: those before it
    were accepted, it is the last call made, and the error wraps the server's
    answer to it as [wrap] says. *)
Lemma scriptLoop_outcome (d : sqlDB) (wrap : error -> gostring -> error)
      (loop : list gostring -> M (option error)) :
  (forall w tr, loop [] w tr = (None, tr)) ->
  (forall stmt rest w tr,
      loop (stmt :: rest) w tr
      = if isEmpty (TrimSpace stmt) then loop rest w tr
        else if isOnlyComments (TrimSpace stmt) then loop rest w tr
        else match answer w tr (CallExec d (TrimSpace stmt)) with
             | Some e => (Some (wrap e (TrimSpace stmt)),
                          tr ++ [CallExec d (TrimSpace stmt)])
             | None => loop rest w (tr ++ [CallExec d (TrimSpace stmt)])
             end) ->
  forall (stmts : list gostring) (w : World) (tr : list call),
    match fst (loop stmts w tr) with
    | None => accepted d w tr (submitted (nonEmpty (map TrimSpace stmts))) = true
    | Some e =>
        exists (done : list gostring) (stmt : gostring) (rest : list gostring)
               (cause : error),
          submitted (nonEmpty (map TrimSpace stmts)) = done ++ stmt :: rest
          /\ accepted d w tr done = true
          /\ answer w (tr ++ map (CallExec d) done) (CallExec d stmt) = Some cause
          /\ snd (loop stmts w tr) = tr ++ map (CallExec d) (done ++ [stmt])
          /\ e = wrap cause stmt
    end.
Proof.
  intros Hnil Hcons stmts.
  induction stmts as [|stmt rest IH]; intros w tr.
  - rewrite Hnil. reflexivity.
  - rewrite Hcons. cbn [map]. unfold nonEmpty, submitted. cbn [filter].
    fold (nonEmpty (map TrimSpace rest)).
    destruct (isEmpty (TrimSpace stmt)) eqn:Ee; cbn [negb].
    { fold (submitted (nonEmpty (map TrimSpace rest))). apply IH. }
    cbn [filter].
    destruct (isOnlyComments (TrimSpace stmt)) eqn:Ec; cbn [negb].
    { fold (submitted (nonEmpty (map TrimSpace rest))). apply IH. }
    fold (submitted (nonEmpty (map TrimSpace rest))).
    destruct (answer w tr (CallExec d (TrimSpace stmt))) as [cause|] eqn:Ea.
    + cbn [fst snd].
      exists [], (TrimSpace stmt), (submitted (nonEmpty (map TrimSpace rest))), cause.
      cbn [app map accepted]. rewrite app_nil_r.
      repeat split. exact Ea.
    + specialize (IH w (tr ++ [CallExec d (TrimSpace stmt)])).
      destruct (fst (loop rest w (tr ++ [CallExec d (TrimSpace stmt)]))) as [e|].
      * destruct IH as (done & s & rest' & cause & Htodo & Hacc & Hans & Htr & He).
        exists (TrimSpace stmt :: done), s, rest', cause.
        cbn [app map accepted]. rewrite Ea, Htodo, Hacc.
        rewrite <- app_assoc in Hans, Htr. cbn [app] in Hans, Htr.
        repeat split; assumption.
      * cbn [accepted]. rewrite Ea, IH. reflexivity.
Qed.

Lemma execSchema_outcome (d : sqlDB) (stmts : list gostring)
      (w : World) (tr : list call) :
  match fst (execSchema d stmts w tr) with
  | None => accepted d w tr (submitted (nonEmpty (map TrimSpace stmts))) = true
  | Some e =>
      exists (done : list gostring) (stmt : gostring) (rest : list gostring)
             (cause : error),
        submitted (nonEmpty (map TrimSpace stmts)) = done ++ stmt :: rest
        /\ accepted d w tr done = true
        /\ answer w (tr ++ map (CallExec d) done) (CallExec d stmt) = Some cause
        /\ snd (execSchema d stmts w tr) = tr ++ map (CallExec d) (done ++ [stmt])
        /\ e = Errorf "failed to create schema: " cause
                 ([newline] ++ str "Statement: " ++ truncateForError stmt)
  end.
Proof.
  apply (scriptLoop_outcome d
           (fun cause stmt =>
              Errorf "failed to create schema: " cause
                ([newline] ++ str "Statement: " ++ truncateForError stmt))
           (execSchema d)).
  - reflexivity.
  - intros stmt rest w' tr'. cbn [execSchema].
    destruct (isEmpty (TrimSpace stmt)); [reflexivity|].
    destruct (isOnlyComments (TrimSpace stmt)); [reflexivity|].
    unfold bind, perform.
    destruct (answer w' tr' (CallExec d (TrimSpace stmt))); reflexivity.
Qed.

Lemma execDefaultConfig_outcome (d : sqlDB) (stmts : list gostring)
      (w : World) (tr : list call) :
  match fst (execDefaultConfig d stmts w tr) with
  | None => accepted d w tr (submitted (nonEmpty (map TrimSpace stmts))) = true
  | Some e =>
      exists (done : list gostring) (stmt : gostring) (rest : list gostring)
             (cause : error),
        submitted (nonEmpty (map TrimSpace stmts)) = done ++ stmt :: rest
        /\ accepted d w tr done = true
        /\ answer w (tr ++ map (CallExec d) done) (CallExec d stmt) = Some cause
        /\ snd (execDefaultConfig d stmts w tr)
           = tr ++ map (CallExec d) (done ++ [stmt])
        /\ e = Errorf "failed to insert default config: " cause []
  end.
Proof.
  apply (scriptLoop_outcome d
           (fun cause _ => Errorf "failed to insert default config: " cause [])
           (execDefaultConfig d)).
  - reflexivity.
  - intros stmt rest w' tr'. cbn [execDefaultConfig].
    destruct (isEmpty (TrimSpace stmt)); [reflexivity|].
    destruct (isOnlyComments (TrimSpace stmt)); [reflexivity|].
    unfold bind, perform.
    destruct (answer w' tr' (CallExec d (TrimSpace stmt))); reflexivity.
Qed.

(** ** Errors of schema evolution *)

Lemma passed_app (U : Unicode) (SS : SchemaScripts) (d : sqlDB) (w : World)
      (a b : list failedStep) :
  forall tr : list call,
    passed d w tr (a ++ b)
    = passed d w tr a && passed d w (tr ++ map (failingCall d) a) b.
Proof.
  induction a as [|step a IH]; intros tr.
  - simpl. rewrite app_nil_r. reflexivity.
  - cbn [app passed map]. rewrite IH, <- app_assoc, andb_assoc. reflexivity.
Qed.

Lemma failsAs_ret_None (U : Unicode) (SS : SchemaScripts) (d : sqlDB)
      (P : failedStep -> Prop) (wrap : failedStep -> error -> error) :
  failsAs d P wrap (ret None).
Proof.
  intros w tr. exists []. simpl. rewrite app_nil_r.
  split; [reflexivity|]. split; [constructor|reflexivity].
Qed.

Lemma failsAs_weaken (U : Unicode) (SS : SchemaScripts) (d : sqlDB)
      (P P' : failedStep -> Prop) (wrap : failedStep -> error -> error)
      (m : M (option error)) :
  (forall step, P step -> P' step) ->
  failsAs d P wrap m -> failsAs d P' wrap m.
Proof.
  intros Hsub Hm w tr. destruct (Hm w tr) as (steps & Htr & Hall & Hres).
  exists steps. split; [exact Htr|]. split; [|exact Hres].
  apply (Forall_impl P' Hsub). exact Hall.
Qed.

(** What follows a sequence of steps that passed. *)
Lemma failsAs_after (U : Unicode) (SS : SchemaScripts) (d : sqlDB)
      (P : failedStep -> Prop) (wrap : failedStep -> error -> error)
      (rest : M (option error)) (w : World) (tr : list call)
      (done : list failedStep) :
  Forall P done ->
  passed d w tr done = true ->
  failsAs d P wrap rest ->
  exists steps : list failedStep,
    snd (rest w (tr ++ map (failingCall d) done)) = tr ++ map (failingCall d) steps
    /\ Forall P steps
    /\ match fst (rest w (tr ++ map (failingCall d) done)) with
       | None => passed d w tr steps = true
       | Some e =>
           exists (before : list failedStep) (step : failedStep) (cause : error),
             steps = before ++ [step]
             /\ passed d w tr before = true
             /\ answer w (tr ++ map (failingCall d) before) (failingCall d step)
                = Some cause
             /\ tolerated step cause = false
             /\ e = wrap step cause
       end.
Proof.
  intros Hdone Hpassed Hrest.
  destruct (Hrest w (tr ++ map (failingCall d) done)) as (steps & Htr & Hall & Hres).
  exists (done ++ steps). split; [rewrite Htr, map_app, app_assoc; reflexivity|].
  split; [apply Forall_app; split; assumption|].
  destruct (fst (rest w (tr ++ map (failingCall d) done))) as [e|].
  - destruct Hres as (before & step & cause & -> & Hb & Ha & Ht & He).
    exists (done ++ before), step, cause.
    split; [rewrite app_assoc; reflexivity|].
    split; [rewrite passed_app, Hpassed, Hb; reflexivity|].
    split; [rewrite map_app, app_assoc; exact Ha|].
    split; assumption.
  - rewrite passed_app, Hpassed, Hres. reflexivity.
Qed.

(** A stage followed by the rest: an error of the stage is returned as [g]
    wraps it, and nothing follows. *)
Lemma failsAs_bind (U : Unicode) (SS : SchemaScripts) (d : sqlDB)
      (P1 P : failedStep -> Prop) (wrap1 wrap2 : failedStep -> error -> error)
      (g : error -> error) (m : M (option error))
      (k : option error -> M (option error)) :
  failsAs d P1 wrap1 m ->
  (forall e, k (Some e) = ret (Some (g e))) ->
  (forall step cause, P1 step -> wrap2 step cause = g (wrap1 step cause)) ->
  (forall step, P1 step -> P step) ->
  failsAs d P wrap2 (k None) ->
  failsAs d P wrap2 (bind m k).
Proof.
  intros Hm Hk Hg Hsub Hrest w tr. unfold bind.
  destruct (Hm w tr) as (steps & Htr & Hall & Hres).
  destruct (m w tr) as [[e1|] tr1]; cbn [fst snd] in *.
  - rewrite Hk. cbn [ret fst snd]. exists steps.
    split; [exact Htr|]. split; [apply (Forall_impl P Hsub); exact Hall|].
    destruct Hres as (before & step & cause & -> & Hb & Ha & Ht & ->).
    exists before, step, cause. repeat split; try assumption.
    symmetry. apply Hg. apply Forall_app in Hall. destruct Hall as [_ Hlast].
    inversion Hlast. assumption.
  - subst tr1.
    apply (failsAs_after U SS d P wrap2 (k None) w tr steps);
      [apply (Forall_impl P Hsub); exact Hall|exact Hres|exact Hrest].
Qed.

(** One call followed by the rest: an answer the step does not tolerate is
    returned wrapped, and nothing follows. *)
Lemma failsAs_call (U : Unicode) (SS : SchemaScripts) (d : sqlDB)
      (P : failedStep -> Prop) (wrap : failedStep -> error -> error)
      (step : failedStep) (k : option error -> M (option error))
      (rest : M (option error)) :
  P step ->
  (forall cause, k (Some cause)
                 = if tolerated step cause then rest
                   else ret (Some (wrap step cause))) ->
  k None = rest ->
  failsAs d P wrap rest ->
  failsAs d P wrap (bind (perform (failingCall d step)) k).
Proof.
  intros Hp Hsome Hnone Hrest w tr. unfold bind, perform.
  assert (Hgo : passed d w tr [step] = true ->
                exists steps : list failedStep,
                  snd (rest w (tr ++ [failingCall d step]))
                  = tr ++ map (failingCall d) steps
                  /\ Forall P steps
                  /\ match fst (rest w (tr ++ [failingCall d step])) with
                     | None => passed d w tr steps = true
                     | Some e =>
                         exists before step' cause,
                           steps = before ++ [step']
                           /\ passed d w tr before = true
                           /\ answer w (tr ++ map (failingCall d) before)
                                     (failingCall d step') = Some cause
                           /\ tolerated step' cause = false
                           /\ e = wrap step' cause
                     end).
  { intros Hpassed.
    apply (failsAs_after U SS d P wrap rest w tr [step]);
      [constructor; [exact Hp|constructor]|exact Hpassed|exact Hrest]. }
  destruct (answer w tr (failingCall d step)) as [cause|] eqn:Ea.
  - rewrite Hsome. destruct (tolerated step cause) eqn:Et.
    + apply Hgo. cbn [passed]. rewrite Ea, Et. reflexivity.
    + cbn [ret fst snd]. exists [step].
      split; [reflexivity|]. split; [constructor; [exact Hp|constructor]|].
      exists [], step, cause. cbn [app map passed]. rewrite app_nil_r.
      repeat split; assumption.
  - rewrite Hnone. apply Hgo. cbn [passed]. rewrite Ea. reflexivity.
Qed.

(** The same for a catalog query, which tolerates no error. *)
Lemma failsAs_query (U : Unicode) (SS : SchemaScripts) (d : sqlDB)
      (P : failedStep -> Prop) (wrap : failedStep -> error -> error)
      (step : failedStep) (query : gostring)
      (k : option error * Z -> M (option error)) :
  P step ->
  failingCall d step = CallQueryRow d query ->
  (forall cause, tolerated step cause = false) ->
  (forall cause n, k (Some cause, n) = ret (Some (wrap step cause))) ->
  (forall n, failsAs d P wrap (k (None, n))) ->
  failsAs d P wrap (bind (queryCount d query) k).
Proof.
  intros Hp Hcall Htol Hsome Hrest w tr. unfold bind, queryCount.
  rewrite <- Hcall.
  destruct (answer w tr (failingCall d step)) as [cause|] eqn:Ea.
  - rewrite Hsome. cbn [ret fst snd]. exists [step].
    split; [reflexivity|]. split; [constructor; [exact Hp|constructor]|].
    exists [], step, cause. cbn [app map passed]. rewrite app_nil_r.
    repeat split; [exact Ea|apply Htol].
  - apply (failsAs_after U SS d P wrap
             (k (None, scanned w tr (failingCall d step))) w tr [step]);
      [constructor; [exact Hp|constructor]| |apply Hrest].
    cbn [passed]. rewrite Ea. reflexivity.
Qed.

Lemma migrateWispTypeColumn_fails (U : Unicode) (SS : SchemaScripts) (d : sqlDB) :
  failsAs d (stepOfMigration (str "wisp_type_column")) stepActionError
          (migrateWispTypeColumn d).
Proof.
  unfold migrateWispTypeColumn.
  apply (failsAs_query U SS d _ _ (NamedMigration CheckWispType) wispTypeQuery);
    try reflexivity.
  intros n. destruct (0 <? n)%Z; [apply failsAs_ret_None|].
  apply (failsAs_call U SS d _ _ (NamedMigration AddWispType) _ (ret None));
    try reflexivity; [|apply failsAs_ret_None].
  intros cause. cbn [tolerated].
  destruct (Contains (ToLower (Error cause)) (str "duplicate column")); reflexivity.
Qed.

Lemma migrateSpecIDColumn_fails (U : Unicode) (SS : SchemaScripts) (d : sqlDB) :
  failsAs d (stepOfMigration (str "spec_id_column")) stepActionError
          (migrateSpecIDColumn d).
Proof.
  unfold migrateSpecIDColumn.
  apply (failsAs_query U SS d _ _ (NamedMigration CheckSpecID) specIDQuery);
    try reflexivity.
  intros n. destruct (0 <? n)%Z; [apply failsAs_ret_None|].
  apply (failsAs_call U SS d _ _ (NamedMigration AddSpecID) _
           (bind (perform (failingCall d (NamedMigration IndexSpecID)))
                 (fun err =>
                    match err with
                    | Some e =>
                        if negb (Contains (ToLower (Error e)) (str "duplicate"))
                           && negb (Contains (ToLower (Error e)) (str "already exists"))
                        then ret (Some (Errorf "creating spec_id index: " e []))
                        else ret None
                    | None => ret None
                    end)));
    try reflexivity.
  - intros cause. cbn [tolerated].
    destruct (Contains (ToLower (Error cause)) (str "duplicate column")); reflexivity.
  - apply (failsAs_call U SS d _ _ (NamedMigration IndexSpecID) _ (ret None));
      try reflexivity; [|apply failsAs_ret_None].
    intros cause. cbn [tolerated].
    destruct (Contains (ToLower (Error cause)) (str "duplicate"));
      destruct (Contains (ToLower (Error cause)) (str "already exists"));
      reflexivity.
Qed.

Lemma RunMigrations_fails (U : Unicode) (SS : SchemaScripts) (d : sqlDB) :
  failsAs d stepOfRegistered stepMigrationError (RunMigrations d).
Proof.
  assert (Hin : forall name step,
             In name ListMigrations -> stepOfMigration name step ->
             stepOfRegistered step).
  { intros name [| | | | | |action] Hname Hstep; try (exfalso; exact Hstep).
    cbn [stepOfMigration] in Hstep. cbn [stepOfRegistered].
    rewrite Hstep. exact Hname. }
  assert (Hwrap : forall name step cause,
             stepOfMigration name step ->
             stepMigrationError step cause
             = wrapError (str "mariadb migration " ++ quoted name
                          ++ str " failed: " ++ Error (stepActionError step cause))
                         (stepActionError step cause)).
  { intros name [| | | | | |action] cause Hstep; try (exfalso; exact Hstep).
    cbn [stepOfMigration] in Hstep. rewrite <- Hstep. reflexivity. }
  unfold RunMigrations, migrationsList. cbn [runMigrationList Name Func].
  apply (failsAs_bind U SS d (stepOfMigration (str "wisp_type_column")) _
           stepActionError _
           (fun e => wrapError (str "mariadb migration "
                                ++ quoted (str "wisp_type_column")
                                ++ str " failed: " ++ Error e) e)).
  - apply migrateWispTypeColumn_fails.
  - reflexivity.
  - intros step cause. apply Hwrap.
  - intros step. apply Hin. left. reflexivity.
  - apply (failsAs_bind U SS d (stepOfMigration (str "spec_id_column")) _
             stepActionError _
             (fun e => wrapError (str "mariadb migration "
                                  ++ quoted (str "spec_id_column")
                                  ++ str " failed: " ++ Error e) e)).
    + apply migrateSpecIDColumn_fails.
    + reflexivity.
    + intros step cause. apply Hwrap.
    + intros step. apply Hin. right. left. reflexivity.
    + apply failsAs_ret_None.
Qed.

(** The statements a script loop was let through are steps that passed. *)
Lemma accepted_passed (U : Unicode) (SS : SchemaScripts) (d : sqlDB) (w : World)
      (mk : gostring -> failedStep) :
  (forall stmt, failingCall d (mk stmt) = CallExec d stmt) ->
  (forall stmt e, tolerated (mk stmt) e = false) ->
  forall (done : list gostring) (tr : list call),
    accepted d w tr done = true -> passed d w tr (map mk done) = true.
Proof.
  intros Hcall Htol done. induction done as [|stmt rest IH]; intros tr H.
  - reflexivity.
  - cbn [accepted] in H. apply andb_true_iff in H. destruct H as [Hs Hrest].
    cbn [map passed]. rewrite Hcall.
    destruct (answer w tr (CallExec d stmt)); [discriminate Hs|].
    apply IH. exact Hrest.
Qed.

Lemma map_failingCall (SS : SchemaScripts) (d : sqlDB) (mk : gostring -> failedStep) :
  (forall stmt, failingCall d (mk stmt) = CallExec d stmt) ->
  forall l : list gostring,
    map (failingCall d) (map mk l) = map (CallExec d) l.
Proof.
  intros Hcall l. rewrite map_map. apply map_ext. exact Hcall.
Qed.

Lemma execSchema_fails (U : Unicode) (SS : SchemaScripts) (d : sqlDB)
      (stmts : list gostring) :
  failsAs d (fun step => exists stmt,
                 step = BaselineStatement stmt
                 /\ In stmt (submitted (nonEmpty (map TrimSpace stmts))))
          stepError (execSchema d stmts).
Proof.
  intros w tr.
  pose proof (execSchema_outcome d stmts w tr) as H.
  destruct (execSchema_calls d stmts w tr) as (_ & _ & Hall).
  destruct (fst (execSchema d stmts w tr)) as [e|].
  - destruct H as (done & stmt & rest & cause & Htodo & Hacc & Hans & Htr & ->).
    exists (map BaselineStatement (done ++ [stmt])). split.
    { rewrite (map_failingCall SS d BaselineStatement (fun _ => eq_refl)).
      exact Htr. }
    split.
    { apply Forall_forall. intros step Hin. apply in_map_iff in Hin.
      destruct Hin as (s & <- & Hs). exists s. split; [reflexivity|].
      rewrite Htodo. apply in_app_or in Hs. apply in_or_app.
      destruct Hs as [Hs|[<-|[]]]; [left; exact Hs|right; left; reflexivity]. }
    exists (map BaselineStatement done), (BaselineStatement stmt), cause.
    split; [rewrite map_app; reflexivity|].
    split; [apply (accepted_passed U SS d w BaselineStatement);
            [reflexivity|reflexivity|exact Hacc]|].
    rewrite (map_failingCall SS d BaselineStatement (fun _ => eq_refl)).
    repeat split. exact Hans.
  - exists (map BaselineStatement (submitted (nonEmpty (map TrimSpace stmts)))).
    split.
    { rewrite (map_failingCall SS d BaselineStatement (fun _ => eq_refl)).
      apply Hall. reflexivity. }
    split.
    { apply Forall_forall. intros step Hin. apply in_map_iff in Hin.
      destruct Hin as (s & <- & Hs). exists s. split; [reflexivity|exact Hs]. }
    apply (accepted_passed U SS d w BaselineStatement);
      [reflexivity|reflexivity|exact H].
Qed.

Lemma execDefaultConfig_fails (U : Unicode) (SS : SchemaScripts) (d : sqlDB)
      (stmts : list gostring) :
  failsAs d (fun step => exists stmt,
                 step = DefaultConfigStatement stmt
                 /\ In stmt (submitted (nonEmpty (map TrimSpace stmts))))
          stepError (execDefaultConfig d stmts).
Proof.
  intros w tr.
  pose proof (execDefaultConfig_outcome d stmts w tr) as H.
  destruct (execDefaultConfig_calls d stmts w tr) as (_ & _ & Hall).
  destruct (fst (execDefaultConfig d stmts w tr)) as [e|].
  - destruct H as (done & stmt & rest & cause & Htodo & Hacc & Hans & Htr & ->).
    exists (map DefaultConfigStatement (done ++ [stmt])). split.
    { rewrite (map_failingCall SS d DefaultConfigStatement (fun _ => eq_refl)).
      exact Htr. }
    split.
    { apply Forall_forall. intros step Hin. apply in_map_iff in Hin.
      destruct Hin as (s & <- & Hs). exists s. split; [reflexivity|].
      rewrite Htodo. apply in_app_or in Hs. apply in_or_app.
      destruct Hs as [Hs|[<-|[]]]; [left; exact Hs|right; left; reflexivity]. }
    exists (map DefaultConfigStatement done), (DefaultConfigStatement stmt), cause.
    split; [rewrite map_app; reflexivity|].
    split; [apply (accepted_passed U SS d w DefaultConfigStatement);
            [reflexivity|reflexivity|exact Hacc]|].
    rewrite (map_failingCall SS d DefaultConfigStatement (fun _ => eq_refl)).
    repeat split. exact Hans.
  - exists (map DefaultConfigStatement (submitted (nonEmpty (map TrimSpace stmts)))).
    split.
    { rewrite (map_failingCall SS d DefaultConfigStatement (fun _ => eq_refl)).
      apply Hall. reflexivity. }
    split.
    { apply Forall_forall. intros step Hin. apply in_map_iff in Hin.
      destruct Hin as (s & <- & Hs). exists s. split; [reflexivity|exact Hs]. }
    apply (accepted_passed U SS d w DefaultConfigStatement);
      [reflexivity|reflexivity|exact H].
Qed.

Lemma execIndexMigrations_fails (U : Unicode) (SS : SchemaScripts) (d : sqlDB)
      (migrations : list gostring) :
  failsAs d (fun step => exists migration,
                 step = IndexMigration migration /\ In migration migrations)
          stepError (execIndexMigrations d migrations).
Proof.
  induction migrations as [|m rest IH]; [apply failsAs_ret_None|].
  cbn [execIndexMigrations].
  apply (failsAs_call U SS d _ _ (IndexMigration m) _ (execIndexMigrations d rest)).
  - exists m. split; [reflexivity|left; reflexivity].
  - intros cause. cbn [tolerated].
    destruct (Contains (ToLower (Error cause)) (str "duplicate"));
      destruct (Contains (ToLower (Error cause)) (str "already exists"));
      reflexivity.
  - reflexivity.
  - apply (failsAs_weaken U SS d
             (fun step => exists migration,
                  step = IndexMigration migration /\ In migration rest));
      [|exact IH].
    intros step (migration & -> & Hin). exists migration.
    split; [reflexivity|right; exact Hin].
Qed.

Lemma initSchemaOnDB_fails (U : Unicode) (SS : SchemaScripts) (d : sqlDB) :
  failsAs d stepOfEvolution stepError (initSchemaOnDB d).
Proof.
  unfold initSchemaOnDB.
  apply (failsAs_bind U SS d _ _ stepError _ (fun e => e)
           _ _ (execSchema_fails U SS d (splitStatements schema)));
    [reflexivity|reflexivity| |].
  { intros step (stmt & -> & Hin). exact Hin. }
  apply (failsAs_bind U SS d _ _ stepError _ (fun e => e)
           _ _ (execDefaultConfig_fails U SS d (splitStatements defaultConfig)));
    [reflexivity|reflexivity| |].
  { intros step (stmt & -> & Hin). exact Hin. }
  apply (failsAs_bind U SS d _ _ stepError _ (fun e => e)
           _ _ (execIndexMigrations_fails U SS d indexMigrations));
    [reflexivity|reflexivity| |].
  { intros step (migration & -> & Hin). exact Hin. }
  match goal with
  | |- failsAs _ _ _ (bind _ (fun err => match _ with
                                          | Some failure => _
                                          | None => ?rest
                                          end)) =>
      apply (failsAs_call U SS d _ _ DropForeignKey _ rest)
  end.
  - exact I.
  - intros cause. cbn [tolerated].
    destruct (Contains (ToLower (Error cause)) (str "can't drop"));
      destruct (Contains (ToLower (Error cause)) (str "doesn't exist"));
      destruct (Contains (ToLower (Error cause)) (str "check that it exists"));
      destruct (Contains (ToLower (Error cause)) (str "was not found"));
      reflexivity.
  - reflexivity.
  - match goal with
    | |- failsAs _ _ _ (bind _ (fun err => match err with
                                            | Some e => _
                                            | None => ?rest
                                            end)) =>
        apply (failsAs_call U SS d _ _ ReadyIssuesView _ rest)
    end; [exact I|reflexivity|reflexivity|].
    match goal with
    | |- failsAs _ _ _ (bind _ (fun err => match err with
                                            | Some e => _
                                            | None => ?rest
                                            end)) =>
        apply (failsAs_call U SS d _ _ BlockedIssuesView _ rest)
    end; [exact I|reflexivity|reflexivity|].
    apply (failsAs_bind U SS d _ _ stepMigrationError _
             (fun e => Errorf "failed to run mariadb migrations: " e [])
             _ _ (RunMigrations_fails U SS d)).
    + reflexivity.
    + intros [| | | | | |action] cause Hstep; try (exfalso; exact Hstep).
      reflexivity.
    + intros [| | | | | |action] Hstep; try (exfalso; exact Hstep).
      exact Hstep.
    + apply failsAs_ret_None.
Qed.

Lemma Error_stepError (step : failedStep) (cause : error) :
  Error (stepError step cause) = failureText step (Error cause).
Proof.
  destruct step as [stmt|stmt|migration| | | |action];
    unfold stepError, failureText, migrationError, actionError, Errorf;
    cbn [Error]; rewrite ?app_nil_r, <- ?app_assoc; reflexivity.
Qed.

Lemma wrapped_stepError (step : failedStep) (cause : error) :
  In cause (wrapped (stepError step cause)).
Proof.
  destruct step as [stmt|stmt|migration| | | |action];
    unfold stepError, migrationError, actionError, Errorf; cbn [wrapped];
    try (left; reflexivity).
  right. right. left. reflexivity.
Qed.

(** C6, as the code has it.  When schema evolution returns an error it has
    stopped at its first failure: the calls it made are those of a sequence
    of its steps, the server let every step but the last pass (it answered
    with no error, or with one the step takes for its work being done
    already), and it answered the call of the last step with an error that
    step does not tolerate.  The error returned wraps that answer, the
    underlying error, behind the fixed text of the step.  A failure of the
    baseline script carries the statement of that last call, truncated, and
    a failure of a named migration the registered name of the migration the
    call belongs to; the other steps carry their fixed text only. *)
Theorem initSchemaOnDB_error_names_step :
  forall (U : Unicode) (SS : SchemaScripts) (d : sqlDB)
         (w : World) (tr : list call) (e : error),
    fst (initSchemaOnDB d w tr) = Some e ->
    exists (before : list failedStep) (step : failedStep) (cause : error),
      snd (initSchemaOnDB d w tr) = tr ++ map (failingCall d) (before ++ [step])
      /\ Forall stepOfEvolution (before ++ [step])
      /\ passed d w tr before = true
      /\ answer w (tr ++ map (failingCall d) before) (failingCall d step)
         = Some cause
      /\ tolerated step cause = false
      /\ e = stepError step cause
      /\ In cause (wrapped e)
      /\ Error e = failureText step (Error cause).
Proof.
  intros U SS d w tr e H.
  destruct (initSchemaOnDB_fails U SS d w tr) as (steps & Htr & Hall & Hres).
  rewrite H in Hres.
  destruct Hres as (before & step & cause & -> & Hb & Ha & Ht & ->).
  exists before, step, cause.
  split; [exact Htr|]. split; [exact Hall|]. split; [exact Hb|].
  split; [exact Ha|]. split; [exact Ht|]. split; [reflexivity|].
  split; [apply wrapped_stepError|apply Error_stepError].
Qed.

(** On a server whose user may not create indexes, schema evolution stops at
    the index migration: the error is the server's answer behind the text of
    that step. *)
Lemma initSchemaOnDB_error_names_step_witness :
  exists (before : list failedStep) (step : failedStep) (cause : error),
    snd (@initSchemaOnDB plainText sampleScripts PoolDB indexDeniedWorld [])
    = [] ++ map (@failingCall sampleScripts PoolDB) (before ++ [step])
    /\ Forall (@stepOfEvolution plainText sampleScripts) (before ++ [step])
    /\ @passed plainText sampleScripts PoolDB indexDeniedWorld [] before = true
    /\ answer indexDeniedWorld
              ([] ++ map (@failingCall sampleScripts PoolDB) before)
              (@failingCall sampleScripts PoolDB step)
       = Some cause
    /\ @tolerated plainText step cause = false
    /\ Errorf "failed to apply index migration: " indexDenied []
       = stepError step cause
    /\ In cause (wrapped (Errorf "failed to apply index migration: " indexDenied []))
    /\ Error (Errorf "failed to apply index migration: " indexDenied [])
       = failureText step (Error cause).
Proof.
  apply (initSchemaOnDB_error_names_step plainText sampleScripts PoolDB
           indexDeniedWorld []).
  vm_compute. reflexivity.
Defined.

(** C6, as stated, fails: the error of a failed index migration contains
    neither the offending statement, truncated, nor the name of any
    migration; it is not one of the conditions the code takes for success
    either, since the code returns it. *)
Lemma index_migration_error_names_no_statement :
  exists e : error,
    fst (@initSchemaOnDB plainText sampleScripts PoolDB indexDeniedWorld []) = Some e
    /\ Error e
       = str "failed to apply index migration: " ++ Error indexDenied
    /\ Contains (Error e)
                (truncateForError
                   (str "CREATE INDEX idx_issues_issue_type ON issues(issue_type)"))
       = false
    /\ forallb (fun name => negb (Contains (Error e) name))
               (@ListMigrations plainText) = true.
Proof.
  exists (Errorf "failed to apply index migration: " indexDenied []).
  split; [vm_compute; reflexivity|].
  split; [vm_compute; reflexivity|].
  split; vm_compute; reflexivity.
Qed.

(* ================================================================== *)
(** * Part III: further properties of the code *)
(* ================================================================== *)

(** ** [truncateForError] *)

(** A text of at most 100 bytes is left alone; a longer one is cut to its
    first 100 bytes followed by three dots, 103 bytes in all.  Either way the
    first 100 bytes are those of the text. *)
Theorem truncateForError_bounds :
  forall s : gostring,
    List.length (truncateForError s) <= 103
    /\ firstn 100 (truncateForError s) = firstn 100 s
    /\ (List.length s <= 100 -> truncateForError s = s)
    /\ (100 < List.length s ->
        truncateForError s = firstn 100 s ++ str "..."
        /\ List.length (truncateForError s) = 103).
Proof.
  intros s. unfold truncateForError.
  destruct (100 <? List.length s) eqn:E.
  - apply Nat.ltb_lt in E.
    assert (L : List.length (firstn 100 s) = 100)
      by (rewrite length_firstn; lia).
    split; [rewrite length_app, L; simpl; lia|].
    split.
    { rewrite firstn_app, L. replace (100 - 100) with 0 by lia.
      rewrite firstn_firstn. simpl. rewrite app_nil_r. reflexivity. }
    split; [intros H; lia|].
    intros _. split; [reflexivity|]. rewrite length_app, L. reflexivity.
  - apply Nat.ltb_ge in E.
    split; [lia|]. split; [reflexivity|].
    split; [reflexivity|]. intros H. lia.
Qed.

(** A statement of 250 bytes is cut to 103. *)
Lemma truncateForError_bounds_witness :
  List.length (truncateForError (repeat "a"%char 250)) = 103.
Proof.
  apply (proj2 (proj2 (proj2 (truncateForError_bounds (repeat "a"%char 250))))).
  simpl. lia.
Defined.

(** ** [isOnlyComments] *)

Lemma SplitLines_not_nil (s : gostring) : SplitLines s <> [].
Proof.
  destruct s as [|c r]; simpl; [discriminate|].
  destruct (Ascii.eqb c newline); [discriminate|].
  destruct (SplitLines r); discriminate.
Qed.

Lemma SplitLines_app (a b : gostring) :
  SplitLines (a ++ newline :: b) = SplitLines a ++ SplitLines b.
Proof.
  induction a as [|c a IH].
  - reflexivity.
  - change ((c :: a) ++ newline :: b) with (c :: (a ++ newline :: b)).
    cbn [SplitLines]. rewrite IH.
    destruct (Ascii.eqb c newline); [reflexivity|].
    pose proof (SplitLines_not_nil a) as Hne.
    destruct (SplitLines a) as [|l ls]; [contradiction|reflexivity].
Qed.

Lemma SplitLines_one (l : gostring) :
  ~ In newline l -> SplitLines l = [l].
Proof.
  induction l as [|c l IH]; intros Hno; [reflexivity|].
  cbn [SplitLines].
  assert (Hc : Ascii.eqb c newline = false).
  { apply Ascii.eqb_neq. intros ->. apply Hno. left. reflexivity. }
  rewrite Hc, IH; [reflexivity|].
  intros H. apply Hno. right. exact H.
Qed.

Lemma onlyCommentLines_app (l1 l2 : list gostring) :
  onlyCommentLines (l1 ++ l2) = onlyCommentLines l1 && onlyCommentLines l2.
Proof.
  induction l1 as [|line rest IH]; [reflexivity|].
  change ((line :: rest) ++ l2) with (line :: (rest ++ l2)).
  cbn [onlyCommentLines]. rewrite IH.
  destruct (isEmpty (TrimSpace line) || HasPrefix (TrimSpace line) (str "--"));
    reflexivity.
Qed.

(** A statement is only comments exactly when each of its lines, trimmed, is
    empty or starts with two dashes: the test of a text is the conjunction
    of the tests of its lines, and a line that holds anything before a
    comment, or no comment at all, fails it. *)
Theorem isOnlyComments_by_line :
  (forall a b : gostring,
      isOnlyComments (a ++ newline :: b) = isOnlyComments a && isOnlyComments b)
  /\ (forall l : gostring,
         ~ In newline l ->
         isOnlyComments l
         = isEmpty (TrimSpace l) || HasPrefix (TrimSpace l) (str "--")).
Proof.
  split.
  - intros a b. unfold isOnlyComments.
    rewrite SplitLines_app. apply onlyCommentLines_app.
  - intros l Hno. unfold isOnlyComments. rewrite (SplitLines_one l Hno).
    cbn [onlyCommentLines].
    destruct (isEmpty (TrimSpace l) || HasPrefix (TrimSpace l) (str "--"));
      reflexivity.
Qed.

(** A comment line followed by a statement is not only comments; two comment
    lines are. *)
Lemma isOnlyComments_by_line_witness :
  isOnlyComments (str "-- seed" ++ newline :: str "INSERT INTO config VALUES (1)")
  = isOnlyComments (str "-- seed")
    && isOnlyComments (str "INSERT INTO config VALUES (1)")
  /\ isOnlyComments (str "SELECT 1 -- one")
     = isEmpty (TrimSpace (str "SELECT 1 -- one"))
       || HasPrefix (TrimSpace (str "SELECT 1 -- one")) (str "--").
Proof.
  split.
  - apply (proj1 isOnlyComments_by_line).
  - apply (proj2 isOnlyComments_by_line).
    vm_compute. intros H.
    repeat (destruct H as [H|H]; [discriminate H|]). exact H.
Defined.
(** ** More on [splitStatements] *)

Lemma scanStep_statements_count (prev : option ascii) (c : ascii) (st : scanState) :
  List.length (statements (scanStep prev c st))
  <= List.length (statements st) + (if Ascii.eqb c semicolon then 1 else 0).
Proof.
  unfold scanStep.
  destruct (inString st); [simpl; lia|].
  destruct (isQuote c); [simpl; lia|].
  destruct (Ascii.eqb c semicolon); [|simpl; lia].
  simpl. destruct (isEmpty (TrimSpace (current st))); [lia|].
  rewrite length_app. simpl. lia.
Qed.

Lemma count_occ_semicolon_cons (c : ascii) (rest : gostring) :
  count_occ ascii_dec (c :: rest) semicolon
  = (if Ascii.eqb c semicolon then 1 else 0) + count_occ ascii_dec rest semicolon.
Proof.
  simpl. destruct (ascii_dec c semicolon) as [->|Hne].
  - rewrite Ascii.eqb_refl. reflexivity.
  - apply Ascii.eqb_neq in Hne. rewrite Hne. reflexivity.
Qed.

Lemma scanFrom_statements_count (rest : gostring) :
  forall prev st,
    List.length (statements (scanFrom prev rest st))
    <= List.length (statements st) + count_occ ascii_dec rest semicolon.
Proof.
  induction rest as [|c rest IH]; intros prev st; [simpl; lia|].
  cbn [scanFrom]. rewrite count_occ_semicolon_cons.
  pose proof (IH (Some c) (scanStep prev c st)) as H1.
  pose proof (scanStep_statements_count prev c st) as H2. lia.
Qed.

(** A script with [n] semicolons yields at most [n + 1] statements. *)
Theorem splitStatements_count :
  forall script : gostring,
    List.length (splitStatements script)
    <= S (count_occ ascii_dec script semicolon).
Proof.
  intros script. unfold splitStatements, scanFinish.
  pose proof (scanFrom_statements_count script None scanInit) as H.
  fold (scan script) in H. simpl in H.
  destruct (isEmpty (TrimSpace (current (scan script)))); [lia|].
  rewrite length_app. simpl. lia.
Qed.

Lemma TrimLeftSpace_suffix (s : gostring) :
  exists a, s = a ++ TrimLeftSpace s.
Proof.
  induction s as [|c1 r1 IH1 IH2 IH3] using rune_steps_ind; [exists []; reflexivity|].
  cbn [TrimLeftSpace]. destruct (asciiSpace c1) eqn:E1.
  { destruct IH1 as [a Ha]. exists (c1 :: a). simpl. f_equal. exact Ha. }
  destruct r1 as [|c2 r2]; [exists []; reflexivity|].
  destruct (space2 c1 c2) eqn:E2.
  { destruct (IH2 _ _ eq_refl) as [a Ha]. exists (c1 :: c2 :: a).
    simpl. do 2 f_equal. exact Ha. }
  destruct r2 as [|c3 r3]; [exists []; reflexivity|].
  destruct (space3 c1 c2 c3) eqn:E3.
  { destruct (IH3 _ _ _ eq_refl) as [a Ha]. exists (c1 :: c2 :: c3 :: a).
    simpl. do 3 f_equal. exact Ha. }
  exists []. reflexivity.
Qed.

(** Trimming only removes bytes at the two ends. *)
Lemma TrimSpace_Infix (s : gostring) : Infix (TrimSpace s) s.
Proof.
  unfold TrimSpace.
  destruct (TrimLeftSpace_suffix s) as [a Ha].
  destruct (TrimRightSpace_prefix (TrimLeftSpace s)) as [b Hb].
  exists a, b. rewrite <- Hb. exact Ha.
Qed.

Lemma Infix_app_l (sub s a : gostring) : Infix sub s -> Infix sub (a ++ s).
Proof.
  intros (x & y & ->). exists (a ++ x), y. rewrite <- app_assoc. reflexivity.
Qed.

Lemma scanStep_cutFrom (done : gostring) (prev : option ascii) (c : ascii)
      (st : scanState) :
  cutFrom done st -> cutFrom (done ++ [c]) (scanStep prev c st).
Proof.
  intros [Hst [a Ha]].
  assert (Hold : forall stmt, In stmt (statements st) -> Infix stmt (done ++ [c]))
    by (intros stmt Hin; apply Infix_snoc, Hst, Hin).
  assert (Hgrow : exists a', done ++ [c] = a' ++ current st ++ [c])
    by (exists a; rewrite Ha, <- app_assoc; reflexivity).
  unfold scanStep, cutFrom.
  destruct (inString st); [split; assumption|].
  destruct (isQuote c); [split; assumption|].
  destruct (Ascii.eqb c semicolon); [|split; assumption].
  simpl. split; [|exists (done ++ [c]); rewrite app_nil_r; reflexivity].
  destruct (isEmpty (TrimSpace (current st))); [exact Hold|].
  intros stmt Hin. apply in_app_or in Hin. destruct Hin as [Hin|[<-|[]]].
  - exact (Hold stmt Hin).
  - apply Infix_snoc. rewrite Ha. apply Infix_app_l, TrimSpace_Infix.
Qed.

Lemma scanFrom_cutFrom (rest : gostring) :
  forall done prev st,
    cutFrom done st -> cutFrom (done ++ rest) (scanFrom prev rest st).
Proof.
  induction rest as [|c rest IH]; intros done prev st H.
  - rewrite app_nil_r. exact H.
  - cbn [scanFrom].
    replace (done ++ c :: rest) with ((done ++ [c]) ++ rest)
      by (rewrite <- app_assoc; reflexivity).
    apply IH. apply scanStep_cutFrom. exact H.
Qed.

(** Every statement returned is a part of the script, byte for byte: the
    splitter drops separators and white space and alters nothing. *)
Theorem splitStatements_parts_of_script :
  forall (script stmt : gostring),
    In stmt (splitStatements script) -> Infix stmt script.
Proof.
  intros script stmt Hin.
  assert (H : cutFrom script (scan script)).
  { apply (scanFrom_cutFrom script [] None scanInit).
    split; [intros s []|exists []; reflexivity]. }
  destruct H as [Hst [a Ha]].
  unfold splitStatements, scanFinish in Hin.
  destruct (isEmpty (TrimSpace (current (scan script)))); [exact (Hst _ Hin)|].
  apply in_app_or in Hin. destruct Hin as [Hin|[<-|[]]]; [exact (Hst _ Hin)|].
  rewrite Ha at 2. apply Infix_app_l, TrimSpace_Infix.
Qed.

(** The second statement of [SELECT 1; SELECT 2] is a part of the script. *)
Lemma splitStatements_parts_of_script_witness :
  Infix (str "SELECT 2") (str "SELECT 1; SELECT 2").
Proof.
  apply splitStatements_parts_of_script.
  vm_compute. right. left. reflexivity.
Defined.

Lemma SplitOn_not_nil (sep : ascii) (s : gostring) : SplitOn sep s <> [].
Proof.
  destruct s as [|c r]; simpl; [discriminate|].
  destruct (Ascii.eqb c sep); [discriminate|].
  destruct (SplitOn sep r); discriminate.
Qed.

Lemma nonEmpty_app (l1 l2 : list gostring) :
  nonEmpty (l1 ++ l2) = nonEmpty l1 ++ nonEmpty l2.
Proof. apply filter_app. Qed.

Lemma scanFinish_quoteFree (rest : gostring) :
  quoteFree rest = true ->
  forall prev st,
    inString st = false ->
    scanFinish (scanFrom prev rest st)
    = statements st
      ++ nonEmpty (map TrimSpace (continued (current st) (SplitOn semicolon rest))).
Proof.
  induction rest as [|c rest IH]; intros Hq prev st Hin.
  - simpl. rewrite app_nil_r. unfold scanFinish, nonEmpty. simpl.
    destruct (isEmpty (TrimSpace (current st))); simpl;
      [rewrite app_nil_r|]; reflexivity.
  - simpl in Hq. apply andb_true_iff in Hq. destruct Hq as [Hc Hq].
    apply negb_true_iff in Hc.
    cbn [scanFrom SplitOn]. unfold scanStep. rewrite Hin, Hc.
    destruct (Ascii.eqb c semicolon) eqn:Es.
    + rewrite (IH Hq); [|reflexivity]. cbn [statements current].
      pose proof (SplitOn_not_nil semicolon rest) as Hne.
      destruct (SplitOn semicolon rest) as [|l ls]; [contradiction|].
      cbn [continued app map]. rewrite app_nil_r.
      unfold nonEmpty at 2. cbn [filter].
      destruct (isEmpty (TrimSpace (current st))); cbn [negb];
        [reflexivity|].
      rewrite <- app_assoc. reflexivity.
    + rewrite (IH Hq); [|reflexivity]. cbn [statements current].
      pose proof (SplitOn_not_nil semicolon rest) as Hne.
      destruct (SplitOn semicolon rest) as [|l ls]; [contradiction|].
      cbn [continued]. rewrite <- app_assoc. reflexivity.
Qed.

(** On a script without quotes, [splitStatements] is [strings.Split] on the
    semicolon, each piece trimmed and the empty ones dropped. *)
Theorem splitStatements_quoteFree :
  forall script : gostring,
    quoteFree script = true ->
    splitStatements script
    = nonEmpty (map TrimSpace (SplitOn semicolon script)).
Proof.
  intros script Hq. unfold splitStatements, scan.
  rewrite (scanFinish_quoteFree script Hq None scanInit eq_refl).
  cbn [statements current scanInit app].
  pose proof (SplitOn_not_nil semicolon script) as Hne.
  destruct (SplitOn semicolon script) as [|l ls]; [contradiction|reflexivity].
Qed.

(** Empty statements between semicolons are dropped. *)
Lemma splitStatements_quoteFree_witness :
  splitStatements (str " CREATE TABLE t (a INT);; ;  DROP TABLE t ; ")
  = nonEmpty (map TrimSpace
                  (SplitOn semicolon (str " CREATE TABLE t (a INT);; ;  DROP TABLE t ; "))).
Proof. apply splitStatements_quoteFree. reflexivity. Defined.

Lemma TrimSpace_keeps_byte (c : ascii) (a b : gostring) :
  solid c = true -> exists a' b', TrimSpace (a ++ c :: b) = a' ++ c :: b'.
Proof.
  intros Hc. unfold TrimSpace, TrimRightSpace.
  destruct (TrimLeftSpace_keeps c b a Hc) as [a' ->].
  rewrite rev_app_distr. change (rev (c :: b)) with (rev b ++ [c]).
  rewrite <- app_assoc. cbn [app].
  destruct (TrimRightSpaceRev_keeps c (rev a') (rev b) Hc) as [b'' ->].
  exists a', (rev b'').
  rewrite rev_app_distr. change (rev (c :: rev a')) with (rev (rev a') ++ [c]).
  rewrite rev_involutive, <- app_assoc. reflexivity.
Qed.

(** A literal that never closes takes the rest of the script with it: from
    its opening quote to the end of input nothing is split, semicolons
    included, and what was being built is returned as one last statement. *)
Theorem splitStatements_unterminated_literal :
  forall (pre : gostring) (q : ascii) (body : gostring),
    WellQuoted pre -> isQuote q = true -> unterminated q q body = true ->
    splitStatements (pre ++ q :: body)
    = statements (scan pre) ++ [TrimSpace (current (scan pre) ++ q :: body)].
Proof.
  intros pre q body Hpre Hq Hun. unfold splitStatements, scanFinish.
  rewrite (scan_open_literal pre q body Hpre Hq Hun). cbn [statements current].
  destruct (TrimSpace_keeps_byte q (current (scan pre)) body (isQuote_solid q Hq))
    as (a' & b' & ->).
  destruct a'; reflexivity.
Qed.

(** The quote of [SELECT 'a; SELECT 2] never closes: one statement. *)
Lemma splitStatements_unterminated_literal_witness :
  splitStatements (str "SELECT 1; SELECT " ++ squote :: str "a; SELECT 2")
  = statements (scan (str "SELECT 1; SELECT "))
    ++ [TrimSpace (current (scan (str "SELECT 1; SELECT ")) ++ squote :: str "a; SELECT 2")].
Proof.
  apply splitStatements_unterminated_literal.
  - well_quoted_plain.
  - reflexivity.
  - reflexivity.
Defined.


(** ** Schema evolution on a server that answers well *)

Lemma Trimmed_fixed (stmt : gostring) :
  Trimmed stmt -> TrimSpace stmt = stmt /\ isEmpty stmt = false.
Proof.
  intros (Hne & Hl & Hr). split; [apply TrimSpace_fixed; assumption|].
  destruct stmt; [contradiction|reflexivity].
Qed.

(** The baseline loop, when every statement it submits succeeds. *)
Lemma execSchema_succeeds (d : sqlDB) (stmts : list gostring) :
  Forall Trimmed stmts ->
  forall (w : World) (tr : list call),
    (forall tr' stmt, In stmt stmts -> answer w tr' (CallExec d stmt) = None) ->
    execSchema d stmts w tr = (None, tr ++ map (CallExec d) (submitted stmts)).
Proof.
  induction 1 as [|stmt rest Hstmt _ IH]; intros w tr Hok.
  - simpl. unfold ret. rewrite app_nil_r. reflexivity.
  - destruct (Trimmed_fixed stmt Hstmt) as [Hfix Hne].
    assert (Hrest : forall tr' s, In s rest -> answer w tr' (CallExec d s) = None)
      by (intros tr' s Hs; apply Hok; right; exact Hs).
    cbn [execSchema]. rewrite Hfix, Hne. unfold submitted. cbn [filter].
    destruct (isOnlyComments stmt); cbn [negb].
    + apply IH. exact Hrest.
    + unfold bind, perform. rewrite (Hok tr stmt (or_introl eq_refl)).
      rewrite (IH w (tr ++ [CallExec d stmt]) Hrest).
      cbn [map]. rewrite <- app_assoc. reflexivity.
Qed.

(** The seed loop, when every statement it submits succeeds. *)
Lemma execDefaultConfig_succeeds (d : sqlDB) (stmts : list gostring) :
  Forall Trimmed stmts ->
  forall (w : World) (tr : list call),
    (forall tr' stmt, In stmt stmts -> answer w tr' (CallExec d stmt) = None) ->
    execDefaultConfig d stmts w tr
    = (None, tr ++ map (CallExec d) (submitted stmts)).
Proof.
  induction 1 as [|stmt rest Hstmt _ IH]; intros w tr Hok.
  - simpl. unfold ret. rewrite app_nil_r. reflexivity.
  - destruct (Trimmed_fixed stmt Hstmt) as [Hfix Hne].
    assert (Hrest : forall tr' s, In s rest -> answer w tr' (CallExec d s) = None)
      by (intros tr' s Hs; apply Hok; right; exact Hs).
    cbn [execDefaultConfig]. rewrite Hfix, Hne. unfold submitted. cbn [filter].
    destruct (isOnlyComments stmt); cbn [negb].
    + apply IH. exact Hrest.
    + unfold bind, perform. rewrite (Hok tr stmt (or_introl eq_refl)).
      rewrite (IH w (tr ++ [CallExec d stmt]) Hrest).
      cbn [map]. rewrite <- app_assoc. reflexivity.
Qed.

(** The named migrations on a database that has neither column. *)
Lemma RunMigrations_fresh (U : Unicode) (d : sqlDB) (w : World) (tr : list call) :
  (forall tr' c, answer w tr' c = None) ->
  (forall tr' c, (scanned w tr' c <= 0)%Z) ->
  RunMigrations d w tr = (None, tr ++ migrationCalls d).
Proof.
  intros Hok Hzero.
  assert (Hcount : forall tr' c, (0 <? scanned w tr' c)%Z = false)
    by (intros tr' c; apply Z.ltb_ge; apply Hzero).
  unfold RunMigrations, migrationsList, runMigrationList, Func,
    migrateWispTypeColumn, migrateSpecIDColumn, bind, queryCount, perform, ret.
  repeat (rewrite ?Hok, ?Hcount; cbv beta iota).
  unfold migrationCalls. rewrite <- !app_assoc. reflexivity.
Qed.

Lemma execIndexMigrations_tolerant (U : Unicode) (d : sqlDB)
      (migrations : list gostring) :
  forall (w : World) (tr : list call),
    (forall tr' stmt e,
        In stmt migrations -> answer w tr' (CallExec d stmt) = Some e ->
        indexExists e = true) ->
    execIndexMigrations d migrations w tr
    = (None, tr ++ map (CallExec d) migrations).
Proof.
  induction migrations as [|m rest IH]; intros w tr Hok.
  - simpl. unfold ret. rewrite app_nil_r. reflexivity.
  - assert (Hrest : forall tr' stmt e,
               In stmt rest -> answer w tr' (CallExec d stmt) = Some e ->
               indexExists e = true)
      by (intros tr' stmt e Hin; apply Hok; right; exact Hin).
    cbn [execIndexMigrations]. unfold bind, perform.
    destruct (answer w tr (CallExec d m)) as [e|] eqn:Ea.
    + pose proof (Hok tr m e (or_introl eq_refl) Ea) as He.
      unfold indexExists in He. apply orb_true_iff in He.
      replace (negb (Contains (ToLower (Error e)) (str "duplicate"))
               && negb (Contains (ToLower (Error e)) (str "already exists")))
        with false
        by (destruct He as [-> | ->]; [reflexivity|rewrite andb_false_r; reflexivity]).
      rewrite (IH w _ Hrest). cbn [map]. rewrite <- app_assoc. reflexivity.
    + rewrite (IH w _ Hrest). cbn [map]. rewrite <- app_assoc. reflexivity.
Qed.

(** The named migrations on a database that has both columns: two catalog
    queries, no change. *)
Lemma RunMigrations_present (U : Unicode) (d : sqlDB) (w : World) (tr : list call) :
  (forall tr' q, answer w tr' (CallQueryRow d q) = None) ->
  (forall tr' q, (0 < scanned w tr' (CallQueryRow d q))%Z) ->
  RunMigrations d w tr
  = (None, tr ++ [CallQueryRow d wispTypeQuery; CallQueryRow d specIDQuery]).
Proof.
  intros Hok Hpos.
  assert (Hcount : forall tr' q, (0 <? scanned w tr' (CallQueryRow d q))%Z = true)
    by (intros tr' q; apply Z.ltb_lt; apply Hpos).
  unfold RunMigrations, migrationsList, runMigrationList, Func,
    migrateWispTypeColumn, migrateSpecIDColumn, bind, queryCount, perform, ret.
  repeat (rewrite ?Hok, ?Hcount; cbv beta iota).
  rewrite <- !app_assoc. reflexivity.
Qed.

(** On a new database, where every call succeeds and the catalog counts no
    column, schema evolution returns nil after these calls, in this order:
    the statements of the baseline script that are not only comments, those
    of the default configuration, the index migrations, the removal of the
    foreign key, the two views, and the calls of the two named migrations. *)
Theorem initSchemaOnDB_new_database :
  forall (U : Unicode) (SS : SchemaScripts) (d : sqlDB)
         (w : World) (tr : list call),
    (forall tr' c, answer w tr' c = None) ->
    (forall tr' c, (scanned w tr' c <= 0)%Z) ->
    initSchemaOnDB d w tr
    = (None,
       tr ++ map (CallExec d) (submitted (splitStatements schema))
          ++ map (CallExec d) (submitted (splitStatements defaultConfig))
          ++ map (CallExec d) indexMigrations
          ++ [CallExec d dropForeignKey;
              CallExec d readyIssuesView;
              CallExec d blockedIssuesView]
          ++ migrationCalls d).
Proof.
  intros U SS d w tr Hok Hzero. unfold initSchemaOnDB.
  unfold bind at 1.
  rewrite (execSchema_succeeds d _ (splitStatements_Trimmed schema) w tr)
    by (intros; apply Hok).
  unfold bind at 1.
  rewrite (execDefaultConfig_succeeds d _ (splitStatements_Trimmed defaultConfig) w)
    by (intros; apply Hok).
  unfold bind at 1.
  rewrite (execIndexMigrations_tolerant U d indexMigrations w)
    by (intros tr' stmt e _ He; rewrite Hok in He; discriminate He).
  unfold bind at 1, perform at 1. rewrite Hok.
  unfold bind at 1, perform at 1. rewrite Hok.
  unfold bind at 1, perform at 1. rewrite Hok.
  unfold bind at 1. rewrite (RunMigrations_fresh U d w _ Hok Hzero).
  unfold ret. rewrite <- !app_assoc. reflexivity.
Qed.

(** The sample scripts on a quiet server. *)
Lemma initSchemaOnDB_new_database_witness :
  fst (@initSchemaOnDB plainText sampleScripts PoolDB quietWorld []) = None.
Proof.
  rewrite (initSchemaOnDB_new_database plainText sampleScripts PoolDB quietWorld []).
  - reflexivity.
  - intros tr' c. reflexivity.
  - intros tr' c. simpl. lia.
Defined.

(** On a database whose schema is already current, schema evolution returns
    nil and changes nothing: when the statements of the scripts and the views
    succeed, the index migrations fail only with "duplicate" or "already
    exists", the removal of the foreign key fails only with one of the texts
    the code takes for an absent key, and the catalog counts both columns,
    the named migrations issue their two queries and no ALTER TABLE. *)
Theorem initSchemaOnDB_current_database :
  forall (U : Unicode) (SS : SchemaScripts) (d : sqlDB)
         (w : World) (tr : list call),
    (forall tr' stmt,
        In stmt (splitStatements schema)
        \/ In stmt (splitStatements defaultConfig)
        \/ stmt = readyIssuesView \/ stmt = blockedIssuesView ->
        answer w tr' (CallExec d stmt) = None) ->
    (forall tr' stmt e,
        In stmt indexMigrations -> answer w tr' (CallExec d stmt) = Some e ->
        indexExists e = true) ->
    (forall tr' e,
        answer w tr' (CallExec d dropForeignKey) = Some e -> keyAbsent e = true) ->
    (forall tr' q, answer w tr' (CallQueryRow d q) = None) ->
    (forall tr' q, (0 < scanned w tr' (CallQueryRow d q))%Z) ->
    initSchemaOnDB d w tr
    = (None,
       tr ++ map (CallExec d) (submitted (splitStatements schema))
          ++ map (CallExec d) (submitted (splitStatements defaultConfig))
          ++ map (CallExec d) indexMigrations
          ++ [CallExec d dropForeignKey;
              CallExec d readyIssuesView;
              CallExec d blockedIssuesView;
              CallQueryRow d wispTypeQuery;
              CallQueryRow d specIDQuery]).
Proof.
  intros U SS d w tr Hscripts Hindex Hfk Hquery Hcols. unfold initSchemaOnDB.
  unfold bind at 1.
  rewrite (execSchema_succeeds d _ (splitStatements_Trimmed schema) w tr)
    by (intros tr' stmt Hin; apply Hscripts; left; exact Hin).
  unfold bind at 1.
  rewrite (execDefaultConfig_succeeds d _ (splitStatements_Trimmed defaultConfig) w)
    by (intros tr' stmt Hin; apply Hscripts; right; left; exact Hin).
  unfold bind at 1.
  rewrite (execIndexMigrations_tolerant U d indexMigrations w _ Hindex).
  unfold bind at 1, perform at 1.
  match goal with
  | |- context [answer w ?t (CallExec d dropForeignKey)] =>
      pose proof (Hfk t) as Hfk';
      destruct (answer w t (CallExec d dropForeignKey)) as [e|]
  end.
  - specialize (Hfk' e eq_refl). unfold keyAbsent in Hfk'.
    cbv zeta.
    destruct (Contains (ToLower (Error e)) (str "can't drop"));
      destruct (Contains (ToLower (Error e)) (str "doesn't exist"));
      destruct (Contains (ToLower (Error e)) (str "check that it exists"));
      destruct (Contains (ToLower (Error e)) (str "was not found"));
      try discriminate Hfk'; cbn [negb andb];
      (unfold bind at 1, perform at 1;
       rewrite (Hscripts _ readyIssuesView) by (right; right; left; reflexivity);
       unfold bind at 1, perform at 1;
       rewrite (Hscripts _ blockedIssuesView) by (right; right; right; reflexivity);
       unfold bind at 1; rewrite (RunMigrations_present U d w _ Hquery Hcols);
       unfold ret; rewrite <- !app_assoc; reflexivity).
  - unfold bind at 1, perform at 1.
    rewrite (Hscripts _ readyIssuesView) by (right; right; left; reflexivity).
    unfold bind at 1, perform at 1.
    rewrite (Hscripts _ blockedIssuesView) by (right; right; right; reflexivity).
    unfold bind at 1. rewrite (RunMigrations_present U d w _ Hquery Hcols).
    unfold ret. rewrite <- !app_assoc. reflexivity.
Qed.

(** The sample scripts on a server whose schema is current. *)
Lemma initSchemaOnDB_current_database_witness :
  fst (@initSchemaOnDB plainText sampleScripts PoolDB migratedWorld []) = None.
Proof.
  rewrite (initSchemaOnDB_current_database plainText sampleScripts PoolDB
             migratedWorld []).
  - reflexivity.
  - intros tr' stmt H. vm_compute in H.
    repeat (destruct H as [H|H]); try contradiction; subst stmt; reflexivity.
  - intros tr' stmt e Hin Ha. destruct Hin as [<-|[]].
    vm_compute in Ha. injection Ha as <-. reflexivity.
  - intros tr' e Ha. vm_compute in Ha. injection Ha as <-. reflexivity.
  - intros tr' q. reflexivity.
  - intros tr' q. simpl. lia.
Defined.

Lemma Contains_shorter (s p x : gostring) :
  Contains s (p ++ x) = true -> Contains s p = true.
Proof.
  intros H. apply Contains_Infix in H. destruct H as (a & b & ->).
  apply Contains_Infix. exists a, (x ++ b). rewrite <- app_assoc. reflexivity.
Qed.

(** The named migrations tolerate a column added behind their back: when the
    catalog counts no column and every statement that fails does so with a
    "duplicate column" error, both migrations run to their end and
    [RunMigrations] returns nil. *)
Theorem RunMigrations_duplicate_column :
  forall (U : Unicode) (d : sqlDB) (w : World) (tr : list call),
    (forall tr' q, answer w tr' (CallQueryRow d q) = None) ->
    (forall tr' q, (scanned w tr' (CallQueryRow d q) <= 0)%Z) ->
    (forall tr' stmt e,
        answer w tr' (CallExec d stmt) = Some e ->
        Contains (ToLower (Error e)) (str "duplicate column") = true) ->
    RunMigrations d w tr = (None, tr ++ migrationCalls d).
Proof.
  intros U d w tr Hquery Hzero Hdup.
  assert (Hcount : forall tr' q, (0 <? scanned w tr' (CallQueryRow d q))%Z = false)
    by (intros tr' q; apply Z.ltb_ge; apply Hzero).
  assert (Hdup' : forall tr' stmt e,
             answer w tr' (CallExec d stmt) = Some e ->
             Contains (ToLower (Error e)) (str "duplicate") = true).
  { intros tr' stmt e Ha.
    apply (Contains_shorter _ (str "duplicate") (str " column")).
    exact (Hdup tr' stmt e Ha). }
  unfold RunMigrations, migrationsList, runMigrationList, Func,
    migrateWispTypeColumn, migrateSpecIDColumn, bind, queryCount, perform, ret.
  rewrite Hquery, Hcount.
  match goal with
  | |- context [answer w ?t (CallExec d ?s)] =>
      pose proof (Hdup t s) as H1; destruct (answer w t (CallExec d s)) as [e1|]
  end;
    [rewrite (H1 e1 eq_refl); cbn [negb]|];
    rewrite Hquery, Hcount;
    (match goal with
     | |- context [answer w ?t (CallExec d ?s)] =>
         pose proof (Hdup t s) as H2; destruct (answer w t (CallExec d s)) as [e2|]
     end;
     [rewrite (H2 e2 eq_refl); cbn [negb]|]);
    (match goal with
     | |- context [answer w ?t (CallExec d ?s)] =>
         pose proof (Hdup' t s) as H3; destruct (answer w t (CallExec d s)) as [e3|]
     end;
     [rewrite (H3 e3 eq_refl); cbn [negb andb]|]);
    unfold migrationCalls; rewrite <- !app_assoc; reflexivity.
Qed.

(** A server that finds every column a duplicate. *)
Lemma RunMigrations_duplicate_column_witness :
  fst (@RunMigrations plainText PoolDB duplicateColumnWorld []) = None.
Proof.
  rewrite (RunMigrations_duplicate_column plainText PoolDB duplicateColumnWorld []).
  - reflexivity.
  - intros tr' q. reflexivity.
  - intros tr' q. simpl. lia.
  - intros tr' stmt e Ha. simpl in Ha. injection Ha as <-. reflexivity.
Defined.

(** ** What the script loops submit *)

Lemma submitted_fixed_point (stmts : list gostring) :
  Forall (fun stmt => isEmpty stmt = false /\ isOnlyComments stmt = false)
         (submitted (nonEmpty (map TrimSpace stmts))).
Proof.
  apply Forall_forall. intros stmt Hin. unfold submitted, nonEmpty in Hin.
  apply filter_In in Hin. destruct Hin as [Hin Hc].
  apply filter_In in Hin. destruct Hin as [_ He].
  split; [apply negb_true_iff; exact He|apply negb_true_iff; exact Hc].
Qed.

(** Whatever the server answers, the two script loops of schema evolution
    submit an initial run of their statements, trimmed, in the order of the
    script, leaving out those that are empty or only comments, and they stop
    at the first failure.  A loop returns nil only when the server accepted
    every such statement, and all were submitted.  It returns an error only
    when the server refused one: the statements before it were accepted, the
    refused one is the last call made, nothing after it is submitted, and the
    error wraps the server's answer to it. *)
Theorem script_loops_submit_in_order :
  forall (d : sqlDB) (stmts : list gostring) (w : World) (tr : list call),
    let todo := submitted (nonEmpty (map TrimSpace stmts)) in
    Forall (fun stmt => isEmpty stmt = false /\ isOnlyComments stmt = false) todo
    /\ (exists n : nat,
           snd (execSchema d stmts w tr) = tr ++ firstn n (map (CallExec d) todo))
    /\ (exists n : nat,
           snd (execDefaultConfig d stmts w tr)
           = tr ++ firstn n (map (CallExec d) todo))
    /\ (fst (execSchema d stmts w tr) = None ->
        snd (execSchema d stmts w tr) = tr ++ map (CallExec d) todo)
    /\ (fst (execDefaultConfig d stmts w tr) = None ->
        snd (execDefaultConfig d stmts w tr) = tr ++ map (CallExec d) todo)
    /\ match fst (execSchema d stmts w tr) with
       | None => accepted d w tr todo = true
       | Some e =>
           exists (done : list gostring) (stmt : gostring) (rest : list gostring)
                  (cause : error),
             todo = done ++ stmt :: rest
             /\ accepted d w tr done = true
             /\ answer w (tr ++ map (CallExec d) done) (CallExec d stmt) = Some cause
             /\ snd (execSchema d stmts w tr)
                = tr ++ map (CallExec d) (done ++ [stmt])
             /\ e = Errorf "failed to create schema: " cause
                      ([newline] ++ str "Statement: " ++ truncateForError stmt)
       end
    /\ match fst (execDefaultConfig d stmts w tr) with
       | None => accepted d w tr todo = true
       | Some e =>
           exists (done : list gostring) (stmt : gostring) (rest : list gostring)
                  (cause : error),
             todo = done ++ stmt :: rest
             /\ accepted d w tr done = true
             /\ answer w (tr ++ map (CallExec d) done) (CallExec d stmt) = Some cause
             /\ snd (execDefaultConfig d stmts w tr)
                = tr ++ map (CallExec d) (done ++ [stmt])
             /\ e = Errorf "failed to insert default config: " cause []
       end.
Proof.
  intros d stmts w tr. cbv zeta.
  destruct (execSchema_calls d stmts w tr) as (n1 & H1 & A1).
  destruct (execDefaultConfig_calls d stmts w tr) as (n2 & H2 & A2).
  split; [apply submitted_fixed_point|].
  split; [exists n1; exact H1|].
  split; [exists n2; exact H2|].
  split; [assumption|]. split; [assumption|].
  split; [apply execSchema_outcome|apply execDefaultConfig_outcome].
Qed.

(** A script of two statements and a comment.  On a quiet server both
    statements are submitted and the comment is not; on a server that denies
    every statement the loop stops at the first one. *)
Lemma script_loops_submit_in_order_witness :
  snd (execSchema PoolDB
         [str "CREATE TABLE t (a INT)"; str "-- done"; str "DROP TABLE t"]
         quietWorld [])
  = [] ++ map (CallExec PoolDB)
              (submitted (nonEmpty (map TrimSpace
                 [str "CREATE TABLE t (a INT)"; str "-- done"; str "DROP TABLE t"])))
  /\ exists (done : list gostring) (stmt : gostring) (rest : list gostring)
            (cause : error),
       submitted (nonEmpty (map TrimSpace
          [str "CREATE TABLE t (a INT)"; str "-- done"; str "DROP TABLE t"]))
       = done ++ stmt :: rest
       /\ accepted PoolDB denyingWorld [] done = true
       /\ answer denyingWorld ([] ++ map (CallExec PoolDB) done)
                 (CallExec PoolDB stmt) = Some cause
       /\ snd (execSchema PoolDB
                 [str "CREATE TABLE t (a INT)"; str "-- done"; str "DROP TABLE t"]
                 denyingWorld [])
          = [] ++ map (CallExec PoolDB) (done ++ [stmt])
       /\ Errorf "failed to create schema: " indexDenied
            ([newline] ++ str "Statement: "
             ++ truncateForError (str "CREATE TABLE t (a INT)"))
          = Errorf "failed to create schema: " cause
              ([newline] ++ str "Statement: " ++ truncateForError stmt).
Proof.
  split.
  - apply (proj1 (proj2 (proj2 (proj2
             (script_loops_submit_in_order PoolDB
                [str "CREATE TABLE t (a INT)"; str "-- done"; str "DROP TABLE t"]
                quietWorld []))))).
    reflexivity.
  - exact (proj1 (proj2 (proj2 (proj2 (proj2 (proj2
             (script_loops_submit_in_order PoolDB
                [str "CREATE TABLE t (a INT)"; str "-- done"; str "DROP TABLE t"]
                denyingWorld []))))))).
Defined.


(** ** [openServerConnection], case by case *)

Lemma openServerConnection_shape (U : Unicode) (cfg : Config)
      (w : World) (tr : list call) :
  openServerConnection cfg w tr
  = match answer w tr (CallOpen (serverDSN cfg)) with
    | Some e =>
        (Err (Errorf "failed to open MariaDB server connection: " e []),
         tr ++ [CallOpen (serverDSN cfg)])
    | None =>
        let tr1 := tr ++ [CallOpen (serverDSN cfg)] in
        match answer w tr1 (CallOpen (adminDSN cfg)) with
        | Some e =>
            (Err (Errorf "failed to open init connection: " e []),
             (tr1 ++ [CallOpen (adminDSN cfg)]) ++ [CallClose PoolDB])
        | None =>
            let tr2 := tr1 ++ [CallOpen (adminDSN cfg)] in
            let tr3 := tr2 ++ [CallExec InitDB (createDatabase cfg)] in
            match answer w tr2 (CallExec InitDB (createDatabase cfg)) with
            | None => (Ok (PoolDB, serverDSN cfg), tr3 ++ [CallClose InitDB])
            | Some e =>
                let low := ToLower (Error e) in
                if negb (Contains low (str "database exists"))
                   && negb (Contains low (str "1007"))
                then
                  (Err (if Contains low (str "connection refused")
                           || Contains low (str "connect: connection refused")
                        then wrapError
                               (str "failed to connect to MariaDB server at "
                                ++ Host cfg ++ str ":" ++ itoa (Port cfg)
                                ++ str ": " ++ Error e ++ remedy) e
                        else Errorf "failed to create database: " e []),
                   (tr3 ++ [CallClose PoolDB]) ++ [CallClose InitDB])
                else (Ok (PoolDB, serverDSN cfg), tr3 ++ [CallClose InitDB])
            end
        end
    end.
Proof.
  unfold openServerConnection, bind, perform, ret, serverDSN, adminDSN,
    createDatabase.
  cbv zeta.
  destruct (answer w tr (CallOpen _)); [reflexivity|].
  destruct (answer w _ (CallOpen _)); [reflexivity|].
  destruct (answer w _ (CallExec InitDB _)) as [e|]; [|reflexivity].
  destruct (negb (Contains (ToLower (Error e)) (str "database exists"))
            && negb (Contains (ToLower (Error e)) (str "1007")));
    [|reflexivity].
  destruct (Contains (ToLower (Error e)) (str "connection refused")
            || Contains (ToLower (Error e)) (str "connect: connection refused"));
    reflexivity.
Qed.

(** A successful [openServerConnection]: the pool, its connection string and
    the four calls made. *)
Lemma openServerConnection_ok (U : Unicode) (cfg : Config) (w : World)
      (tr : list call) (d : sqlDB) (c : gostring) :
  fst (openServerConnection cfg w tr) = Ok (d, c) ->
  d = PoolDB /\ c = serverDSN cfg
  /\ snd (openServerConnection cfg w tr)
     = tr ++ [CallOpen (serverDSN cfg); CallOpen (adminDSN cfg);
              CallExec InitDB (createDatabase cfg); CallClose InitDB].
Proof.
  rewrite openServerConnection_shape.
  destruct (answer w tr (CallOpen (serverDSN cfg))); [intros H; discriminate H|].
  cbv zeta.
  destruct (answer w _ (CallOpen (adminDSN cfg))); [intros H; discriminate H|].
  destruct (answer w _ (CallExec InitDB (createDatabase cfg))) as [e|].
  - destruct (negb (Contains (ToLower (Error e)) (str "database exists"))
              && negb (Contains (ToLower (Error e)) (str "1007")));
      [intros H; discriminate H|].
    cbn [fst snd]. intros H. injection H as <- <-.
    rewrite <- !app_assoc. auto.
  - cbn [fst snd]. intros H. injection H as <- <-.
    rewrite <- !app_assoc. auto.
Qed.

(** [openServerConnection] leaves no connection behind.  When it succeeds it
    has made four calls (the pool opened, the administrative connection
    opened, the database created, the administrative connection closed) and
    returns the pool with its connection string.  When it fails, either the
    pool could not be opened and nothing else was tried, or the pool has been
    closed.  And once the administrative connection has been used, closing
    it is the last call made. *)
Theorem openServerConnection_releases :
  forall (U : Unicode) (cfg : Config) (w : World) (tr : list call),
    exists cs : list call,
      snd (openServerConnection cfg w tr) = tr ++ cs
      /\ (forall d c,
             fst (openServerConnection cfg w tr) = Ok (d, c) ->
             d = PoolDB /\ c = serverDSN cfg
             /\ cs = [CallOpen (serverDSN cfg); CallOpen (adminDSN cfg);
                      CallExec InitDB (createDatabase cfg); CallClose InitDB])
      /\ (forall e,
             fst (openServerConnection cfg w tr) = Err e ->
             cs = [CallOpen (serverDSN cfg)] \/ In (CallClose PoolDB) cs)
      /\ (In (CallExec InitDB (createDatabase cfg)) cs ->
          last cs (CallOpen []) = CallClose InitDB).
Proof.
  intros U cfg w tr. rewrite openServerConnection_shape.
  destruct (answer w tr (CallOpen (serverDSN cfg))) as [e0|].
  { exists [CallOpen (serverDSN cfg)]. cbn [fst snd].
    split; [reflexivity|]. split; [intros d c E; discriminate E|].
    split; [intros e _; left; reflexivity|].
    intros [H|[]]. discriminate H. }
  cbv zeta.
  destruct (answer w _ (CallOpen (adminDSN cfg))) as [e1|].
  { exists [CallOpen (serverDSN cfg); CallOpen (adminDSN cfg); CallClose PoolDB].
    cbn [fst snd]. split; [rewrite <- !app_assoc; reflexivity|].
    split; [intros d c E; discriminate E|].
    split; [intros e _; right; simpl; tauto|].
    intros [H|[H|[H|[]]]]; discriminate H. }
  destruct (answer w _ (CallExec InitDB (createDatabase cfg))) as [e2|].
  - destruct (negb (Contains (ToLower (Error e2)) (str "database exists"))
              && negb (Contains (ToLower (Error e2)) (str "1007"))).
    + exists [CallOpen (serverDSN cfg); CallOpen (adminDSN cfg);
              CallExec InitDB (createDatabase cfg); CallClose PoolDB;
              CallClose InitDB].
      cbn [fst snd]. split; [rewrite <- !app_assoc; reflexivity|].
      split; [intros d c E; discriminate E|].
      split; [intros e _; right; simpl; tauto|].
      intros _. reflexivity.
    + exists [CallOpen (serverDSN cfg); CallOpen (adminDSN cfg);
              CallExec InitDB (createDatabase cfg); CallClose InitDB].
      cbn [fst snd]. split; [rewrite <- !app_assoc; reflexivity|].
      split; [intros d c E; injection E as <- <-; auto|].
      split; [intros e E; discriminate E|].
      intros _. reflexivity.
  - exists [CallOpen (serverDSN cfg); CallOpen (adminDSN cfg);
            CallExec InitDB (createDatabase cfg); CallClose InitDB].
    cbn [fst snd]. split; [rewrite <- !app_assoc; reflexivity|].
    split; [intros d c E; injection E as <- <-; auto|].
    split; [intros e E; discriminate E|].
    intros _. reflexivity.
Qed.

(** On a quiet server the sample configuration is connected in four calls. *)
Lemma openServerConnection_releases_witness :
  exists cs : list call,
    snd (@openServerConnection plainText sampleConfig quietWorld []) = [] ++ cs
    /\ cs = [CallOpen (serverDSN sampleConfig); CallOpen (adminDSN sampleConfig);
             CallExec InitDB (createDatabase sampleConfig); CallClose InitDB].
Proof.
  destruct (openServerConnection_releases plainText sampleConfig quietWorld [])
    as (cs & Hcs & Hok & _).
  exists cs. split; [exact Hcs|].
  exact (proj2 (proj2 (Hok PoolDB (serverDSN sampleConfig) eq_refl))).
Defined.

Lemma Contains_longer (s x p : gostring) :
  Contains s (x ++ p) = true -> Contains s p = true.
Proof.
  intros H. apply Contains_Infix in H. destruct H as (a & b & ->).
  apply Contains_Infix. exists (a ++ x), b. rewrite <- !app_assoc. reflexivity.
Qed.

(** How [openServerConnection] reads a failure to create the database, once
    both connections are open.  An error whose lowered text contains
    "database exists" or "1007" is no failure: the pool is returned.  Any
    other error that contains "connection refused" is reported with the host,
    the port and the advice to start the server.  The rest is reported as
    "failed to create database". *)
Theorem openServerConnection_create_failure :
  forall (U : Unicode) (cfg : Config) (w : World) (tr : list call) (e : error),
    (forall tr' dsn, answer w tr' (CallOpen dsn) = None) ->
    (forall tr', answer w tr' (CallExec InitDB (createDatabase cfg)) = Some e) ->
    let low := ToLower (Error e) in
    fst (openServerConnection cfg w tr)
    = if Contains low (str "database exists") || Contains low (str "1007")
      then Ok (PoolDB, serverDSN cfg)
      else if Contains low (str "connection refused")
           then Err (wrapError
                       (str "failed to connect to MariaDB server at "
                        ++ Host cfg ++ str ":" ++ itoa (Port cfg)
                        ++ str ": " ++ Error e ++ remedy) e)
           else Err (Errorf "failed to create database: " e []).
Proof.
  intros U cfg w tr e Hopen Hexec. cbv zeta.
  rewrite openServerConnection_shape, Hopen. cbv zeta. rewrite Hopen, Hexec.
  destruct (Contains (ToLower (Error e)) (str "database exists")); [reflexivity|].
  destruct (Contains (ToLower (Error e)) (str "1007")); [reflexivity|].
  cbn [negb andb orb fst].
  destruct (Contains (ToLower (Error e)) (str "connection refused")) eqn:Er;
    [reflexivity|].
  destruct (Contains (ToLower (Error e)) (str "connect: connection refused"))
    eqn:Ec; [|reflexivity].
  apply (Contains_longer _ (str "connect: ") (str "connection refused")) in Ec.
  rewrite Ec in Er. discriminate Er.
Qed.

(** No server listens: the error names the host and the port and carries the
    advice. *)
Lemma openServerConnection_create_failure_witness :
  fst (@openServerConnection plainText sampleConfig refusedWorld [])
  = Err (wrapError
           (str "failed to connect to MariaDB server at db.example.org:3307: "
            ++ Error refusedError ++ remedy) refusedError).
Proof.
  apply (openServerConnection_create_failure plainText sampleConfig refusedWorld
           [] refusedError).
  - intros tr' dsn. reflexivity.
  - intros tr'. reflexivity.
Defined.

(** ** What [New] returns *)

Lemma initSchemaOnDB_emits_more (U : Unicode) (SS : SchemaScripts)
      (w : World) (tr : list call) :
  exists cs : list call, snd (initSchemaOnDB PoolDB w tr) = tr ++ cs.
Proof.
  destruct (initSchemaOnDB_emits U SS w tr) as (cs & E & _).
  exists cs. exact E.
Qed.

(** A store [New] returns is open on the pool, not closed, named after the
    database of the configuration ("beads" when none was given), and carries
    the connection string and the read-only flag it was opened with.  It is
    returned only after the pool answered a ping: the calls made start with
    the four calls of the connection, then the successful ping. *)
Theorem New_returns_live_store :
  forall (U : Unicode) (SS : SchemaScripts) (cfg : Config)
         (w : World) (tr : list call) (store : MariaDBStore),
    snd (fst (New cfg w tr)) = Ok store ->
    let cfg' := defaulted (Getenv w) cfg in
    let connected := [CallOpen (serverDSN cfg'); CallOpen (adminDSN cfg');
                      CallExec InitDB (createDatabase cfg'); CallClose InitDB] in
    UnderlyingDB store = Some PoolDB
    /\ IsClosed store = false
    /\ Path store = Database cfg'
    /\ connStr store = serverDSN cfg'
    /\ readOnly store = ReadOnly cfg
    /\ answer w (tr ++ connected) (CallPing PoolDB) = None
    /\ exists after : list call,
        snd (New cfg w tr) = (tr ++ connected) ++ CallPing PoolDB :: after.
Proof.
  intros U SS cfg w tr store. rewrite New_shape. cbv zeta.
  set (cfg' := defaulted (Getenv w) cfg).
  pose proof (openServerConnection_ok U cfg' w tr) as Hok.
  destruct (openServerConnection cfg' w tr) as [[[d c]|e] tr1];
    [|intros H; discriminate H].
  cbn [fst snd] in Hok. destruct (Hok d c eq_refl) as (-> & -> & ->).
  destruct (answer w (tr ++ _) (CallPing PoolDB)) as [e|] eqn:Eping;
    [intros H; discriminate H|].
  destruct (negb (ReadOnly cfg')) eqn:Ero.
  - destruct (initSchemaOnDB_emits_more U SS w
                ((tr ++ [CallOpen (serverDSN cfg'); CallOpen (adminDSN cfg');
                         CallExec InitDB (createDatabase cfg'); CallClose InitDB])
                 ++ [CallPing PoolDB])) as (ev & Eev).
    destruct (initSchemaOnDB PoolDB w _) as [[e|] tr2];
      [intros H; discriminate H|].
    cbn [fst snd] in *. intros H. injection H as <-. subst tr2.
    repeat split; try reflexivity.
    exists ev. rewrite <- !app_assoc. reflexivity.
  - cbn [fst snd]. intros H. injection H as <-.
    repeat split; try reflexivity.
    exists []. reflexivity.
Qed.


(** The sample configuration on a quiet server. *)
Lemma New_returns_live_store_witness :
  Path sampleStore = str "tracker" /\ connStr sampleStore = serverDSN sampleConfig.
Proof.
  assert (H : snd (fst (@New plainText sampleScripts sampleConfig quietWorld []))
              = Ok sampleStore) by (vm_compute; reflexivity).
  pose proof (New_returns_live_store plainText sampleScripts sampleConfig
                quietWorld [] sampleStore H) as T.
  cbv zeta in T. destruct T as (_ & _ & Hpath & Hconn & _).
  split; [exact Hpath|exact Hconn].
Defined.

(** The ways [New] fails, and the calls made in each. *)
Lemma New_failure_cases (U : Unicode) (SS : SchemaScripts) (cfg : Config)
      (w : World) (tr : list call) (e : error) :
  snd (fst (New cfg w tr)) = Err e ->
  let cfg' := defaulted (Getenv w) cfg in
  (fst (openServerConnection cfg' w tr) = Err e
   /\ snd (New cfg w tr) = snd (openServerConnection cfg' w tr))
  \/ (exists cause,
         e = Errorf "failed to ping MariaDB database: " cause []
         /\ snd (New cfg w tr)
            = tr ++ connectionCalls cfg' ++ [CallPing PoolDB; CallClose PoolDB])
  \/ (exists cause ev,
         e = Errorf "failed to initialize schema: " cause []
         /\ snd (New cfg w tr)
            = tr ++ connectionCalls cfg' ++ [CallPing PoolDB] ++ ev
         /\ forallb isSchemaCall ev = true).
Proof.
  rewrite New_shape. cbv zeta.
  set (cfg' := defaulted (Getenv w) cfg).
  pose proof (openServerConnection_ok U cfg' w tr) as Hok.
  destruct (openServerConnection cfg' w tr) as [[[d c]|e0] tr1].
  - cbn [fst snd] in Hok. destruct (Hok d c eq_refl) as (-> & -> & ->).
    destruct (answer w _ (CallPing PoolDB)) as [cause|].
    + cbn [fst snd]. intros H. injection H as <-. right. left.
      exists cause. split; [reflexivity|].
      unfold connectionCalls. rewrite <- !app_assoc. reflexivity.
    + destruct (negb (ReadOnly cfg')); [|intros H; discriminate H].
      destruct (initSchemaOnDB_emits U SS w
                  ((tr ++ connectionCalls cfg') ++ [CallPing PoolDB]))
        as (ev & Eev & Pev).
      unfold connectionCalls in Eev.
      destruct (initSchemaOnDB PoolDB w _) as [[cause|] tr2];
        [|intros H; discriminate H].
      cbn [fst snd] in *. intros H. injection H as <-. subst tr2.
      right. right. exists cause, ev. split; [reflexivity|].
      split; [unfold connectionCalls; rewrite <- !app_assoc; reflexivity|exact Pev].
  - cbn [fst snd]. intros H. injection H as <-. left. split; reflexivity.
Qed.



(** What a failed [New] does with the pool.  When the ping fails the pool is
    closed as the last call and nothing of schema evolution has run.  When
    schema initialization fails, [New] returns the error and makes no call to
    close the pool. *)
Theorem New_failure_and_the_pool :
  forall (U : Unicode) (SS : SchemaScripts) (cfg : Config)
         (w : World) (tr : list call) (e : error),
    snd (fst (New cfg w tr)) = Err e ->
    exists calls : list call,
      snd (New cfg w tr) = tr ++ calls
      /\ (HasPrefix (Error e) (str "failed to ping MariaDB database: ") = true ->
          last calls (CallOpen []) = CallClose PoolDB
          /\ forallb notSchemaCall calls = true)
      /\ (HasPrefix (Error e) (str "failed to initialize schema: ") = true ->
          ~ In (CallClose PoolDB) calls).
Proof.
  intros U SS cfg w tr e H.
  destruct (New_failure_cases U SS cfg w tr e H)
    as [[Hopen Htr]|[(cause & -> & Htr)|(cause & ev & -> & Htr & Pev)]].
  - destruct (openServerConnection_emits U (defaulted (Getenv w) cfg) w tr)
      as (cs & Ecs & _).
    exists cs. split; [rewrite Htr; exact Ecs|].
    revert Hopen. rewrite openServerConnection_shape.
    set (cfg' := defaulted (Getenv w) cfg).
    destruct (answer w tr (CallOpen (serverDSN cfg'))) as [e0|].
    { cbn [fst]. intros E. injection E as <-.
      split; intros Hp; discriminate Hp. }
    cbv zeta.
    destruct (answer w _ (CallOpen (adminDSN cfg'))) as [e1|].
    { cbn [fst]. intros E. injection E as <-.
      split; intros Hp; discriminate Hp. }
    destruct (answer w _ (CallExec InitDB (createDatabase cfg'))) as [e2|];
      [|intros E; discriminate E].
    destruct (negb (Contains (ToLower (Error e2)) (str "database exists"))
              && negb (Contains (ToLower (Error e2)) (str "1007")));
      [|intros E; discriminate E].
    destruct (Contains (ToLower (Error e2)) (str "connection refused")
              || Contains (ToLower (Error e2)) (str "connect: connection refused"));
      cbn [fst]; intros E; injection E as <-;
      split; intros Hp; discriminate Hp.
  - eexists. split; [exact Htr|]. split.
    + intros _. split; reflexivity.
    + intros Hp. discriminate Hp.
  - eexists. split; [exact Htr|]. split.
    + intros Hp. discriminate Hp.
    + intros _ Hin. unfold connectionCalls in Hin. simpl in Hin.
      destruct Hin as [Hin|[Hin|[Hin|[Hin|[Hin|Hin]]]]];
        try discriminate Hin.
      rewrite forallb_forall in Pev. specialize (Pev _ Hin). discriminate Pev.
Qed.

(** A pool that does not answer the ping is closed. *)
Lemma New_failure_and_the_pool_witness :
  exists calls : list call,
    snd (@New plainText sampleScripts sampleConfig deadPoolWorld []) = [] ++ calls
    /\ last calls (CallOpen []) = CallClose PoolDB.
Proof.
  destruct (New_failure_and_the_pool plainText sampleScripts sampleConfig
              deadPoolWorld []
              (Errorf "failed to ping MariaDB database: "
                      (errorString (str "driver: bad connection")) []))
    as (calls & Hcalls & Hping & _).
  - vm_compute. reflexivity.
  - exists calls. split; [exact Hcalls|].
    apply Hping. reflexivity.
Defined.


(** ** More on [withRetry] *)

Lemma granted_Next (a : attempt) :
  granted a = true ->
  ctxErrAtNext a = None /\ NextBackOff a = Next (interval a)
  /\ ctxErrWaiting a = None.
Proof.
  unfold granted, NextBackOff. intros H.
  apply andb_true_iff in H. destruct H as [H Hw].
  apply andb_true_iff in H. destruct H as [Hn Hc].
  destruct (ctxErrAtNext a); [discriminate Hn|].
  destruct (ctxErrWaiting a); [discriminate Hw|].
  apply N.leb_le in Hc.
  replace (serverRetryMaxElapsed <? elapsed a + interval a)%N with false
    by (symmetry; apply N.ltb_ge; exact Hc).
  rewrite andb_false_r. auto.
Qed.

Lemma classified_flaky (U : Unicode) (k : nat) (e : error) (n : nat) :
  isRetryableError (Some e) = true ->
  classified (flaky k e) n = (if n <? k then Some e else None, S n).
Proof.
  intros Hretry. unfold classified, flaky.
  destruct (n <? k); cbn [isSome andb]; [rewrite Hretry|]; reflexivity.
Qed.

Lemma withRetry_flaky_from (U : Unicode) (k : nat) (e : error) :
  isRetryableError (Some e) = true ->
  AsPermanent e = None ->
  forall (clock : list attempt) (n : nat),
    forallb granted clock = true ->
    k <= n + List.length clock ->
    snd (withRetry clock (flaky k e) n) = S (Nat.max n k)
    /\ (fst (withRetry clock (flaky k e) n) = None).
Proof.
  intros Hretry Hplain clock. unfold withRetry.
  induction clock as [|a later IH]; intros n Hgranted Hlen.
  - simpl in Hlen. cbn [Retry]. rewrite (classified_flaky U k e n Hretry).
    replace (n <? k) with false by (symmetry; apply Nat.ltb_ge; lia).
    cbn [fst snd]. split; [f_equal; lia|reflexivity].
  - cbn [forallb] in Hgranted. apply andb_true_iff in Hgranted.
    destruct Hgranted as [Ha Hlater]. cbn [List.length] in Hlen.
    cbn [Retry]. rewrite (classified_flaky U k e n Hretry).
    destruct (n <? k) eqn:En.
    + apply Nat.ltb_lt in En. rewrite Hplain.
      destruct (granted_Next a Ha) as (_ & -> & ->).
      destruct (IH (S n) Hlater ltac:(lia)) as [H1 H2].
      split; [rewrite H1; f_equal; lia|exact H2].
    + apply Nat.ltb_ge in En. cbn [fst snd]. split; [f_equal; lia|reflexivity].
Qed.

(** [withRetry] retries until the operation succeeds: an operation that
    fails [k] times with a retryable error and then succeeds is invoked
    [k + 1] times and [withRetry] returns nil, provided the backoff grants
    [k] waits.  An operation that succeeds at once is invoked once. *)
Theorem withRetry_until_success :
  forall (U : Unicode) (k : nat) (e : error) (clock : list attempt),
    isRetryableError (Some e) = true ->
    AsPermanent e = None ->
    forallb granted clock = true ->
    k <= List.length clock ->
    withRetry clock (flaky k e) 0 = (None, S k).
Proof.
  intros U k e clock Hretry Hplain Hgranted Hlen.
  destruct (withRetry_flaky_from U k e Hretry Hplain clock 0 Hgranted Hlen)
    as [H1 H2].
  destruct (withRetry clock (flaky k e) 0) as [r n]. simpl in *.
  subst r. rewrite H1. reflexivity.
Qed.

(** Two broken pipes, then success. *)
Lemma withRetry_until_success_witness :
  @withRetry plainText nat [grantedAttempt; grantedAttempt; grantedAttempt]
             (flaky 2 brokenPipe) 0
  = (None, 3).
Proof.
  apply (withRetry_until_success plainText 2 brokenPipe
           [grantedAttempt; grantedAttempt; grantedAttempt]).
  - reflexivity.
  - reflexivity.
  - reflexivity.
  - simpl. lia.
Defined.

(** When [withRetry] gives up on a retryable error.  A context that is done
    when the attempt fails, or becomes done during the wait, ends the loop
    with the context's error, not the operation's; an interval that would
    pass the ceiling of 30 seconds ends it with the operation's last error.
    In each case the operation is not invoked again. *)
Theorem withRetry_gives_up :
  forall (U : Unicode) (St : Type) (a : attempt) (later : list attempt)
         (op : St -> option error * St) (s s1 : St) (e : error),
    op s = (Some e, s1) ->
    isRetryableError (Some e) = true ->
    AsPermanent e = None ->
    (forall cerr,
        ctxErrAtNext a = Some cerr ->
        withRetry (a :: later) op s = (Some cerr, s1))
    /\ (forall cerr,
           ctxErrAtNext a = None ->
           (elapsed a + interval a <= serverRetryMaxElapsed)%N ->
           ctxErrWaiting a = Some cerr ->
           withRetry (a :: later) op s = (Some cerr, s1))
    /\ (ctxErrAtNext a = None ->
        (serverRetryMaxElapsed < elapsed a + interval a)%N ->
        ctxErrAtStop a = None ->
        withRetry (a :: later) op s = (Some e, s1)).
Proof.
  intros U St a later op s s1 e Hop Hretry Hplain.
  assert (Hfirst : classified op s = (Some e, s1)).
  { unfold classified. rewrite Hop. cbn [isSome andb]. rewrite Hretry. reflexivity. }
  unfold withRetry. cbn [Retry]. rewrite Hfirst, Hplain. unfold NextBackOff.
  split; [|split].
  - intros cerr Hc. rewrite Hc. reflexivity.
  - intros cerr Hn Hceil Hw. rewrite Hn.
    replace (serverRetryMaxElapsed <? elapsed a + interval a)%N with false
      by (symmetry; apply N.ltb_ge; exact Hceil).
    rewrite andb_false_r, Hw. reflexivity.
  - intros Hn Hceil Hs. rewrite Hn.
    replace (serverRetryMaxElapsed <? elapsed a + interval a)%N with true
      by (symmetry; apply N.ltb_lt; exact Hceil).
    cbn [negb andb N.eqb serverRetryMaxElapsed]. rewrite Hs. reflexivity.
Qed.

(** A broken pipe 29.9 seconds in, with an interval of 750 ms drawn: the
    ceiling is passed and the broken pipe is returned. *)
Lemma withRetry_gives_up_witness :
  @withRetry plainText unit [lateAttempt] brokenPipeOp tt
  = (Some brokenPipe, tt).
Proof.
  apply (proj2 (proj2 (withRetry_gives_up plainText unit lateAttempt []
                         brokenPipeOp tt tt brokenPipe
                         eq_refl eq_refl eq_refl))).
  - reflexivity.
  - vm_compute. reflexivity.
  - reflexivity.
Defined.

(** ** More on [isRetryableError] *)

Lemma Contains_app (a s b sub : gostring) :
  Contains s sub = true -> Contains (a ++ s ++ b) sub = true.
Proof.
  intros H. apply Contains_Infix in H. destruct H as (x & y & ->).
  apply Contains_Infix. exists (a ++ x), (y ++ b).
  rewrite <- !app_assoc. reflexivity.
Qed.

Lemma retryable_chain (c1 c2 c3 c4 d1 d2 d3 d4 : bool) :
  (c1 = true -> d1 = true) -> (c2 = true -> d2 = true) ->
  (c3 = true -> d3 = true) -> (c4 = true -> d4 = true) ->
  (if c1 then true else if c2 then true else if c3 then true
   else if c4 then true else false) = true ->
  (if d1 then true else if d2 then true else if d3 then true
   else if d4 then true else false) = true.
Proof.
  intros H1 H2 H3 H4 H.
  destruct c1; [rewrite (H1 eq_refl); reflexivity|].
  destruct c2; [rewrite (H2 eq_refl); destruct d1; reflexivity|].
  destruct c3; [rewrite (H3 eq_refl); destruct d1, d2; reflexivity|].
  destruct c4; [rewrite (H4 eq_refl); destruct d1, d2, d3; reflexivity|].
  discriminate H.
Qed.

(** A retryable error stays retryable when [fmt.Errorf] wraps it with %w:
    the classification reads the text, and the text of the wrapped error is
    part of the text of the wrapper.  (Stated for ASCII texts, where
    lowering is done byte by byte.) *)
Theorem isRetryableError_wrapped :
  forall (U : Unicode) (before : string) (e : error) (after : gostring),
    forallb isASCIIByte (str before) = true ->
    forallb isASCIIByte (Error e) = true ->
    forallb isASCIIByte after = true ->
    isRetryableError (Some e) = true ->
    isRetryableError (Some (Errorf before e after)) = true.
Proof.
  intros U before e after Hb He Ha H.
  unfold isRetryableError in *. cbv zeta in *.
  assert (Hall : forallb isASCIIByte (Error (Errorf before e after)) = true).
  { unfold Errorf. cbn [Error]. rewrite !forallb_app, Hb, He, Ha. reflexivity. }
  rewrite (ToLower_ascii U _ Hall). rewrite (ToLower_ascii U _ He) in H.
  unfold Errorf. cbn [Error]. rewrite !map_app.
  revert H. apply retryable_chain; apply Contains_app.
Qed.

(** A broken pipe wrapped by a caller. *)
Lemma isRetryableError_wrapped_witness :
  @isRetryableError plainText
     (Some (Errorf "failed to list issues: " brokenPipe [])) = true.
Proof.
  apply (isRetryableError_wrapped plainText "failed to list issues: "
           brokenPipe []); reflexivity.
Defined.

(** ** More on [RunMigrations] *)

(** The loop of [RunMigrations] runs the migrations in the order of the list
    and stops at the first one that fails: those before it returned nil, its
    error is wrapped with its name, and no call of a later migration is
    made. *)
Theorem runMigrationList_first_failure :
  forall (d : sqlDB) (ms : list Migration) (w : World) (tr : list call)
         (e : error),
    fst (runMigrationList ms d w tr) = Some e ->
    exists (before : list Migration) (m : Migration) (after : list Migration)
           (cause : error) (tr1 : list call),
      ms = before ++ m :: after
      /\ runMigrationList before d w tr = (None, tr1)
      /\ Func m d w tr1 = (Some cause, snd (runMigrationList ms d w tr))
      /\ Error e = str "mariadb migration " ++ quoted (Name m)
                   ++ str " failed: " ++ Error cause.
Proof.
  intros d ms. induction ms as [|m rest IH]; intros w tr e H; [discriminate H|].
  cbn [runMigrationList] in *. unfold bind in *.
  destruct (Func m d w tr) as [[cause|] tr1] eqn:Em.
  - injection H as <-. exists [], m, rest, cause, tr.
    split; [reflexivity|]. split; [reflexivity|].
    split; [exact Em|reflexivity].
  - destruct (IH w tr1 e H) as (before & m' & after & cause & tr2 & -> & Hb & Hm & Ht).
    exists (m :: before), m', after, cause, tr2.
    split; [reflexivity|]. split.
    + cbn [runMigrationList]. unfold bind. rewrite Em. exact Hb.
    + split; [exact Hm|exact Ht].
Qed.

(** A server that denies every statement: the first migration fails, is
    named, and the second is not run. *)
Lemma runMigrationList_first_failure_witness :
  exists (before : list Migration) (m : Migration) (after : list Migration)
         (cause : error) (tr1 : list call),
    @migrationsList plainText = before ++ m :: after
    /\ runMigrationList before PoolDB denyingWorld [] = (None, tr1)
    /\ Func m PoolDB denyingWorld tr1
       = (Some cause,
          snd (runMigrationList (@migrationsList plainText) PoolDB denyingWorld []))
    /\ Error wispTypeDenied
       = str "mariadb migration " ++ quoted (Name m)
         ++ str " failed: " ++ Error cause.
Proof.
  apply (runMigrationList_first_failure PoolDB (@migrationsList plainText)
           denyingWorld [] wispTypeDenied).
  vm_compute. reflexivity.
Defined.


(** ** The backend factory *)

Lemma openServerConnection_first_call (U : Unicode) (cfg : Config)
      (w : World) (tr : list call) :
  exists rest : list call,
    snd (openServerConnection cfg w tr) = tr ++ CallOpen (serverDSN cfg) :: rest.
Proof.
  rewrite openServerConnection_shape.
  destruct (answer w tr (CallOpen (serverDSN cfg))); [exists []; reflexivity|].
  cbv zeta.
  destruct (answer w _ (CallOpen (adminDSN cfg))).
  { eexists. cbn [snd]. rewrite <- !app_assoc. reflexivity. }
  destruct (answer w _ (CallExec InitDB (createDatabase cfg))) as [e|].
  - destruct (negb (Contains (ToLower (Error e)) (str "database exists"))
              && negb (Contains (ToLower (Error e)) (str "1007")));
      eexists; cbn [snd]; rewrite <- !app_assoc; reflexivity.
  - eexists. cbn [snd]. rewrite <- !app_assoc. reflexivity.
Qed.

Lemma New_ok_calls (U : Unicode) (SS : SchemaScripts) (cfg : Config)
      (w : World) (tr : list call) (store : MariaDBStore) :
  snd (fst (New cfg w tr)) = Ok store ->
  exists after : list call,
    snd (New cfg w tr)
    = tr ++ connectionCalls (defaulted (Getenv w) cfg) ++ CallPing PoolDB :: after.
Proof.
  rewrite New_shape. cbv zeta. set (cfg' := defaulted (Getenv w) cfg).
  pose proof (openServerConnection_ok U cfg' w tr) as Hok.
  destruct (openServerConnection cfg' w tr) as [[[d c]|e] tr1];
    [|intros H; discriminate H].
  cbn [fst snd] in Hok. destruct (Hok d c eq_refl) as (-> & -> & ->).
  fold (connectionCalls cfg').
  destruct (answer w _ (CallPing PoolDB)); [intros H; discriminate H|].
  destruct (negb (ReadOnly cfg')).
  - destruct (initSchemaOnDB_emits_more U SS w
                ((tr ++ connectionCalls cfg') ++ [CallPing PoolDB])) as (ev & Eev).
    destruct (initSchemaOnDB PoolDB w _) as [[e|] tr2];
      [intros H; discriminate H|].
    cbn [fst snd] in *. intros _. subst tr2. exists ev.
    rewrite <- !app_assoc. reflexivity.
  - cbn [fst snd]. intros _. exists []. rewrite <- !app_assoc. reflexivity.
Qed.

(** The first call of [New] opens the pool with the connection string of the
    configuration, defaults applied. *)
Lemma New_first_call (U : Unicode) (SS : SchemaScripts) (cfg : Config)
      (w : World) (tr : list call) :
  exists rest : list call,
    snd (New cfg w tr)
    = tr ++ CallOpen (serverDSN (defaulted (Getenv w) cfg)) :: rest.
Proof.
  destruct (snd (fst (New cfg w tr))) as [store|e] eqn:E.
  - destruct (New_ok_calls U SS cfg w tr store E) as (after & ->).
    eexists. reflexivity.
  - destruct (New_failure_cases U SS cfg w tr e E)
      as [[_ ->]|[(cause & _ & ->)|(cause & ev & _ & -> & _)]].
    + apply openServerConnection_first_call.
    + eexists. reflexivity.
    + eexists. reflexivity.
Qed.

(** The backend the factory registers passes no password to [New]: the pool
    is opened with the value of BEADS_MARIADB_PASSWORD, or without a password
    when the variable is empty, whatever the options hold.  The path it is
    given plays no part, and the result of [New], store or error, is
    returned as it is. *)
Theorem mariadbBackend_password_from_environment :
  forall (U : Unicode) (SS : SchemaScripts) (path : gostring) (opts : Options)
         (w : World) (tr : list call),
    let cfg' := defaulted (Getenv w) (optionsConfig opts) in
    Password cfg' = Getenv w (str "BEADS_MARIADB_PASSWORD")
    /\ (exists rest : list call,
           snd (mariadbBackend path opts w tr)
           = tr ++ CallOpen (serverDSN cfg') :: rest)
    /\ mariadbBackend path opts w tr
       = (snd (fst (New (optionsConfig opts) w tr)),
          snd (New (optionsConfig opts) w tr)).
Proof.
  intros U SS path opts w tr. cbv zeta.
  assert (E : mariadbBackend path opts w tr
              = (snd (fst (New (optionsConfig opts) w tr)),
                 snd (New (optionsConfig opts) w tr))).
  { unfold mariadbBackend, bind, ret. fold (optionsConfig opts).
    destruct (New (optionsConfig opts) w tr) as [[cfg1 [store|e]] tr1];
      reflexivity. }
  split; [reflexivity|]. split; [|exact E].
  rewrite E. cbn [snd]. apply New_first_call.
Qed.

(** With no option set and a password in the environment, the pool is opened
    as root on the local server, with that password. *)
Example mariadbBackend_default_dsn :
  hd_error (snd (@mariadbBackend plainText sampleScripts (str ".beads/beads.db")
                                 noOptions secretWorld []))
  = Some (CallOpen (str "root:hunter2@tcp(127.0.0.1:3306)/beads?parseTime=true")).
Proof. vm_compute. reflexivity. Qed.

(** ** The configuration written back by [New] *)

Lemma New_config (U : Unicode) (SS : SchemaScripts) (cfg : Config)
      (w : World) (tr : list call) :
  fst (fst (New cfg w tr)) = defaulted (Getenv w) cfg.
Proof.
  rewrite New_shape. cbv zeta.
  destruct (openServerConnection (defaulted (Getenv w) cfg) w tr)
    as [[[d cs]|e] tr1]; [|reflexivity].
  destruct (answer w tr1 (CallPing d)); [reflexivity|].
  destruct (negb (ReadOnly (defaulted (Getenv w) cfg))); [|reflexivity].
  destruct (initSchemaOnDB d w (tr1 ++ [CallPing d])) as [[e|] tr2]; reflexivity.
Qed.

Lemma defaulted_idempotent (g : gostring -> gostring) (cfg : Config) :
  defaulted g (defaulted g cfg) = defaulted g cfg.
Proof.
  destruct cfg as [host port user password database ro].
  unfold defaulted. cbn [Host Port User Password Database ReadOnly].
  f_equal.
  - destruct host; reflexivity.
  - destruct (port =? 0)%Z eqn:E; [reflexivity|]. rewrite E. reflexivity.
  - destruct user; reflexivity.
  - destruct password as [|c p]; [|reflexivity].
    cbn [isEmpty]. destruct (g (str "BEADS_MARIADB_PASSWORD")); reflexivity.
  - destruct database; reflexivity.
Qed.

(** The defaults are written once: a [Config] that [New] has filled in comes
    back unchanged from a second [New] in the same environment, whatever the
    two calls return. *)
Theorem New_config_stable :
  forall (U : Unicode) (SS : SchemaScripts) (cfg : Config)
         (w : World) (tr tr2 : list call),
    let written := fst (fst (New cfg w tr)) in
    fst (fst (New written w tr2)) = written.
Proof.
  intros U SS cfg w tr tr2. cbv zeta.
  rewrite !New_config. apply defaulted_idempotent.
Qed.


(** ** Splitting what the splitter returned *)

(** An iteration either appends its byte and emits nothing, or it is the
    separator branch. *)
Lemma scanStep_cases (prev : option ascii) (c : ascii) (st : scanState) :
  (current (scanStep prev c st) = current st ++ [c]
   /\ statements (scanStep prev c st) = statements st)
  \/ (current (scanStep prev c st) = []
      /\ inString st = false /\ c = semicolon).
Proof.
  unfold scanStep. destruct (inString st); [left; split; reflexivity|].
  destruct (isQuote c); [left; split; reflexivity|].
  destruct (Ascii.eqb_spec c semicolon) as [->|_]; [|left; split; reflexivity].
  right. repeat split.
Qed.

Lemma scanFrom_current_length (rest : gostring) :
  forall prev st,
    List.length (current (scanFrom prev rest st))
    <= List.length (current st) + List.length rest.
Proof.
  induction rest as [|c rest IH]; intros prev st; [simpl; lia|].
  cbn [scanFrom]. specialize (IH (Some c) (scanStep prev c st)).
  destruct (scanStep_cases prev c st) as [[E _]|[E _]]; rewrite E in IH.
  - rewrite length_app in IH. simpl in *. lia.
  - simpl in *. lia.
Qed.

(** Once the separator branch is taken, [current] no longer holds all that
    was read. *)
Lemma scanFrom_after_separator (rest : gostring) (prev : option ascii)
      (c : ascii) (st : scanState) :
  current (scanStep prev c st) = [] ->
  current (scanFrom (Some c) rest (scanStep prev c st)) <> current st ++ c :: rest.
Proof.
  intros E H.
  pose proof (scanFrom_current_length rest (Some c) (scanStep prev c st)) as L.
  rewrite H, E, length_app in L. simpl in L. lia.
Qed.

Lemma scanFrom_unsplit_statements (rest : gostring) :
  forall prev st,
    current (scanFrom prev rest st) = current st ++ rest ->
    statements (scanFrom prev rest st) = statements st.
Proof.
  induction rest as [|c rest IH]; intros prev st H; [reflexivity|].
  cbn [scanFrom] in *.
  destruct (scanStep_cases prev c st) as [[E Es]|[E _]].
  - rewrite <- Es. apply IH. rewrite H, E, <- app_assoc. reflexivity.
  - destruct (scanFrom_after_separator rest prev c st E H).
Qed.

Lemma scanFrom_unsplit_prefix (a b : gostring) :
  forall prev st,
    current (scanFrom prev (a ++ b) st) = current st ++ a ++ b ->
    current (scanFrom prev a st) = current st ++ a.
Proof.
  induction a as [|c a IH]; intros prev st H; [simpl; rewrite app_nil_r; reflexivity|].
  cbn [scanFrom app] in *.
  destruct (scanStep_cases prev c st) as [[E _]|[E _]].
  - replace (current st ++ c :: a) with (current (scanStep prev c st) ++ a)
      by (rewrite E, <- app_assoc; reflexivity).
    apply IH. rewrite H, E, <- app_assoc. reflexivity.
  - destruct (scanFrom_after_separator (a ++ b) prev c st E H).
Qed.

(** Outside a literal the byte before the current one is not looked at. *)
Lemma scanFrom_prev_outside (rest : gostring) (p p' : option ascii)
      (st : scanState) :
  inString st = false -> scanFrom p rest st = scanFrom p' rest st.
Proof.
  intros Hout. destruct rest as [|c rest]; [reflexivity|].
  cbn [scanFrom]. f_equal. unfold scanStep. rewrite Hout. reflexivity.
Qed.

(** Two runs in the same mode take the same branches: what one reads through
    without a separator, so does the other. *)
Lemma scanFrom_unsplit_shift (rest : gostring) :
  forall prev st1 st2,
    inString st1 = inString st2 ->
    stringChar st1 = stringChar st2 ->
    current (scanFrom prev rest st1) = current st1 ++ rest ->
    current (scanFrom prev rest st2) = current st2 ++ rest.
Proof.
  induction rest as [|c rest IH]; intros prev st1 st2 Hin Hch H;
    [simpl; rewrite app_nil_r; reflexivity|].
  cbn [scanFrom] in *.
  destruct (scanStep_cases prev c st1) as [[E1 _]|[E1 _]];
    [|destruct (scanFrom_after_separator rest prev c st1 E1 H)].
  assert (Hstep : current (scanStep prev c st2) = current st2 ++ [c]
                  /\ inString (scanStep prev c st1) = inString (scanStep prev c st2)
                  /\ stringChar (scanStep prev c st1) = stringChar (scanStep prev c st2)).
  { revert E1. unfold scanStep. rewrite <- Hin, <- Hch.
    destruct (inString st1); [intros _; repeat split|].
    destruct (isQuote c); [intros _; repeat split|].
    destruct (Ascii.eqb c semicolon); [|intros _; repeat split; exact Hch].
    simpl. intros E1. destruct (current st1); discriminate E1. }
  destruct Hstep as (E2 & Hin' & Hch').
  replace (current st2 ++ c :: rest) with (current (scanStep prev c st2) ++ rest)
    by (rewrite E2, <- app_assoc; reflexivity).
  apply (IH (Some c) _ _ Hin' Hch').
  rewrite H, E1, <- app_assoc. reflexivity.
Qed.

Lemma scanFrom_plainBytes (a : gostring) :
  forall prev st,
    forallb plainByte a = true ->
    inString st = false ->
    scanFrom prev a st
    = {| statements := statements st; current := current st ++ a;
         inString := false; stringChar := stringChar st |}.
Proof.
  induction a as [|c a IH]; intros prev st Ha Hout.
  - simpl. rewrite app_nil_r. destruct st; simpl in *. subst. reflexivity.
  - cbn [forallb] in Ha. apply andb_true_iff in Ha. destruct Ha as [Hc Ha].
    apply andb_true_iff in Hc. destruct Hc as [Hq Hs].
    apply negb_true_iff in Hq, Hs.
    cbn [scanFrom]. rewrite (IH (Some c) _ Ha).
    + unfold scanStep. rewrite Hout, Hq, Hs. simpl. rewrite <- app_assoc. reflexivity.
    + unfold scanStep. rewrite Hout, Hq, Hs. reflexivity.
Qed.

Lemma asciiSpace_plainByte (c : ascii) : asciiSpace c = true -> plainByte c = true.
Proof.
  intros H. unfold plainByte, isQuote.
  destruct (Ascii.eqb_spec c squote) as [->|_]; [discriminate H|].
  destruct (Ascii.eqb_spec c dquote) as [->|_]; [discriminate H|].
  destruct (Ascii.eqb_spec c backtick) as [->|_]; [discriminate H|].
  destruct (Ascii.eqb_spec c semicolon) as [->|_]; [discriminate H|].
  reflexivity.
Qed.

(** A byte of a multi-byte encoding is neither a quote nor the separator. *)
Lemma high_plainByte (c : ascii) : (128 <=? byteval c)%N = true -> plainByte c = true.
Proof.
  intros H. unfold plainByte, isQuote.
  destruct (Ascii.eqb_spec c squote) as [->|_]; [discriminate H|].
  destruct (Ascii.eqb_spec c dquote) as [->|_]; [discriminate H|].
  destruct (Ascii.eqb_spec c backtick) as [->|_]; [discriminate H|].
  destruct (Ascii.eqb_spec c semicolon) as [->|_]; [discriminate H|].
  reflexivity.
Qed.

Lemma space2_plainByte (c1 c2 : ascii) :
  space2 c1 c2 = true -> plainByte c1 = true /\ plainByte c2 = true.
Proof.
  unfold space2. intros H.
  split; apply high_plainByte; apply N.leb_le;
    repeat (apply andb_true_iff in H; destruct H as [H ?]);
    repeat match goal with
           | E : (_ || _)%bool = true |- _ => apply orb_true_iff in E; destruct E
           | E : (_ =? _)%N = true |- _ => apply N.eqb_eq in E
           end; lia.
Qed.

Lemma space3_plainByte (c1 c2 c3 : ascii) :
  space3 c1 c2 c3 = true ->
  plainByte c1 = true /\ plainByte c2 = true /\ plainByte c3 = true.
Proof.
  unfold space3. cbv zeta. intros H.
  repeat split; apply high_plainByte; apply N.leb_le;
    repeat match goal with
           | E : (_ || _)%bool = true |- _ => apply orb_true_iff in E; destruct E
           | E : (_ && _)%bool = true |- _ => apply andb_true_iff in E; destruct E
           | E : (_ =? _)%N = true |- _ => apply N.eqb_eq in E
           | E : (_ <=? _)%N = true |- _ => apply N.leb_le in E
           end; lia.
Qed.

(** What [TrimLeftSpace] removes is made of such bytes. *)
Lemma TrimLeftSpace_removes_plain (s : gostring) :
  exists a, s = a ++ TrimLeftSpace s /\ forallb plainByte a = true.
Proof.
  induction s as [|c1 r1 IH1 IH2 IH3] using rune_steps_ind;
    [exists []; split; reflexivity|].
  cbn [TrimLeftSpace]. destruct (asciiSpace c1) eqn:E1.
  { destruct IH1 as (a & Ha & Hp). exists (c1 :: a). split.
    - simpl. f_equal. exact Ha.
    - cbn [forallb]. rewrite (asciiSpace_plainByte c1 E1). exact Hp. }
  destruct r1 as [|c2 r2]; [exists []; split; reflexivity|].
  destruct (space2 c1 c2) eqn:E2.
  { destruct (IH2 _ _ eq_refl) as (a & Ha & Hp).
    destruct (space2_plainByte c1 c2 E2) as [P1 P2].
    exists (c1 :: c2 :: a). split.
    - simpl. do 2 f_equal. exact Ha.
    - cbn [forallb]. rewrite P1, P2. exact Hp. }
  destruct r2 as [|c3 r3]; [exists []; split; reflexivity|].
  destruct (space3 c1 c2 c3) eqn:E3.
  { destruct (IH3 _ _ _ eq_refl) as (a & Ha & Hp).
    destruct (space3_plainByte c1 c2 c3 E3) as (P1 & P2 & P3).
    exists (c1 :: c2 :: c3 :: a). split.
    - simpl. do 3 f_equal. exact Ha.
    - cbn [forallb]. rewrite P1, P2, P3. exact Hp. }
  exists []. split; reflexivity.
Qed.

(** Trimming a text the loop reads through without a separator leaves one. *)
Lemma unsplit_TrimSpace (seg : gostring) : unsplit seg -> unsplit (TrimSpace seg).
Proof.
  unfold unsplit, scan, TrimSpace. intros H.
  destruct (TrimLeftSpace_removes_plain seg) as (a & Ha & Hp).
  destruct (TrimRightSpace_prefix (TrimLeftSpace seg)) as [b Hb].
  set (t := TrimLeftSpace seg) in *.
  assert (Ht : current (scanFrom None t scanInit) = t).
  { rewrite Ha in H at 1. rewrite scanFrom_app in H.
    rewrite (scanFrom_plainBytes a None scanInit Hp eq_refl) in H.
    rewrite (scanFrom_prev_outside t (lastByte None a) None) in H by reflexivity.
    apply (scanFrom_unsplit_shift t None
             {| statements := statements scanInit;
                current := current scanInit ++ a;
                inString := false;
                stringChar := stringChar scanInit |}
             scanInit eq_refl eq_refl).
    rewrite H. exact Ha. }
  apply (scanFrom_unsplit_prefix (TrimRightSpace t) b None scanInit).
  simpl. rewrite <- Hb. exact Ht.
Qed.

Lemma unsplit_splitStatements (seg : gostring) :
  unsplit seg ->
  splitStatements seg
  = if isEmpty (TrimSpace seg) then [] else [TrimSpace seg].
Proof.
  unfold unsplit, scan. intros H.
  unfold splitStatements, scanFinish, scan.
  rewrite (scanFrom_unsplit_statements seg None scanInit H), H. reflexivity.
Qed.

Lemma lastByte_snoc (a : gostring) (c : ascii) :
  forall p, lastByte p (a ++ [c]) = Some c.
Proof.
  induction a as [|x a IH]; intros p; [reflexivity|]. simpl. apply IH.
Qed.

Lemma scan_snoc (a : gostring) (c : ascii) :
  scan (a ++ [c]) = scanStep (lastByte None a) c (scan a).
Proof. unfold scan. rewrite scanFrom_app. reflexivity. Qed.

Lemma scanStep_restartable (prev : option ascii) (c : ascii) (st : scanState) :
  restartable prev st /\ emittedWhole st ->
  restartable (Some c) (scanStep prev c st) /\ emittedWhole (scanStep prev c st).
Proof.
  intros [(Hc & Hi & Hs) He].
  destruct (inString st) eqn:Hin.
  - destruct (Hs eq_refl) as [Hch Hp].
    assert (E : scanStep prev c st
                = {| statements := statements st; current := current st ++ [c];
                     inString := if Ascii.eqb c (stringChar st) && notEscaped prev
                                 then false else true;
                     stringChar := stringChar st |})
      by (unfold scanStep; rewrite Hin; reflexivity).
    rewrite E. split; [|exact He].
    unfold restartable. cbn [current inString stringChar].
    rewrite scan_snoc, Hp. unfold scanStep. rewrite Hi, Hc, Hch.
    cbn [current inString stringChar].
    repeat split. apply lastByte_snoc.
  - unfold scanStep. rewrite Hin.
    destruct (isQuote c) eqn:Hq.
    + split; [|exact He].
      unfold restartable. cbn [current inString stringChar].
      rewrite scan_snoc. unfold scanStep. rewrite Hi, Hq, Hc.
      cbn [current inString stringChar].
      repeat split. apply lastByte_snoc.
    + destruct (Ascii.eqb c semicolon) eqn:Hsc.
      * split.
        { unfold restartable. cbn [current inString stringChar].
          repeat split; discriminate. }
        unfold emittedWhole. cbn [statements].
        destruct (isEmpty (TrimSpace (current st))) eqn:Hem; [exact He|].
        intros stmt Hstmt. apply in_app_or in Hstmt.
        destruct Hstmt as [Hstmt|[<-|[]]]; [exact (He stmt Hstmt)|].
        split; [exact Hem|]. exists (current st). split; [reflexivity|exact Hc].
      * split; [|exact He].
        unfold restartable. cbn [current inString stringChar].
        rewrite scan_snoc. unfold scanStep. rewrite Hi, Hq, Hsc, Hc.
        cbn [current inString stringChar].
        repeat split; discriminate.
Qed.

Lemma scanFrom_restartable (rest : gostring) :
  forall prev st,
    restartable prev st /\ emittedWhole st ->
    restartable (lastByte prev rest) (scanFrom prev rest st)
    /\ emittedWhole (scanFrom prev rest st).
Proof.
  induction rest as [|c rest IH]; intros prev st H; [exact H|].
  cbn [scanFrom]. change (lastByte prev (c :: rest)) with (lastByte (Some c) rest).
  apply IH, scanStep_restartable, H.
Qed.

(** Splitting is stable: a statement that [splitStatements] returned is, for
    [splitStatements], a script of one statement, itself.  Nothing more can
    be cut from it, and nothing more trimmed. *)
Theorem splitStatements_stable :
  forall script stmt : gostring,
    In stmt (splitStatements script) ->
    splitStatements stmt = [stmt].
Proof.
  intros script stmt Hin.
  assert (H0 : restartable None scanInit /\ emittedWhole scanInit).
  { split; [repeat split; discriminate|intros s []]. }
  destruct (scanFrom_restartable script None scanInit H0) as [(Hc & _) He].
  fold (scan script) in Hc, He.
  assert (Hstmt : isEmpty stmt = false
                  /\ exists seg, stmt = TrimSpace seg /\ unsplit seg).
  { unfold splitStatements, scanFinish in Hin.
    destruct (isEmpty (TrimSpace (current (scan script)))) eqn:Hem;
      [exact (He stmt Hin)|].
    apply in_app_or in Hin. destruct Hin as [Hin|[<-|[]]]; [exact (He stmt Hin)|].
    split; [exact Hem|]. exists (current (scan script)). split; [reflexivity|exact Hc]. }
  destruct Hstmt as (Hne & seg & -> & Hseg).
  rewrite (unsplit_splitStatements _ (unsplit_TrimSpace seg Hseg)).
  rewrite TrimSpace_idempotent, Hne. reflexivity.
Qed.

Lemma splitStatements_stable_witness :
  In (str "INSERT INTO t VALUES ('a;b')")
     (splitStatements (str "CREATE TABLE t (x TEXT);  INSERT INTO t VALUES ('a;b') ; "))
  /\ splitStatements (str "INSERT INTO t VALUES ('a;b')")
     = [str "INSERT INTO t VALUES ('a;b')"].
Proof.
  assert (H : In (str "INSERT INTO t VALUES ('a;b')")
     (splitStatements (str "CREATE TABLE t (x TEXT);  INSERT INTO t VALUES ('a;b') ; ")))
    by (vm_compute; right; left; reflexivity).
  split; [exact H|].
  exact (splitStatements_stable _ _ H).
Defined.
